(** * Movie-Recommendation-System: hybrid ranking engine

    A shallow embedding of the scoring pipeline of [ai_recommender.py],
    the personalization layer of [user_preference.py] and the offline
    item-item model builder of [movielens.py], together with the
    properties the specification states about them.

    Conventions.
    - Python floats are idealised as exact rationals ([Q]); equalities
      between scores are stated with [==].
    - Python dicts keyed by strings or ids are [gmap]s.
    - A value that may be JSON [null] is an [option]; an operation that
      raises in Python returns [None] in the model. *)

From Stdlib Require Import ZArith QArith Qround Qminmax Lqa Lia Bool.
From Stdlib Require Import Ascii String Sorted.
From stdpp Require Import gmap strings list pretty.

Local Open Scope string_scope.
Local Open Scope list_scope.

(** ** Python string helpers *)

Module PyStr.

(** [sep.join(l)] *)
Fixpoint join (sep : string) (l : list string) : string :=
  match l with
  | [] => ""
  | x :: rest =>
      match rest with
      | [] => x
      | _ :: _ => (x ++ sep ++ join sep rest)%string
      end
  end.

(** The ASCII characters [str.split()] treats as whitespace: tab to
    carriage return, the four separators 28 to 31, and the space. *)
Definition is_space (c : ascii) : bool :=
  match nat_of_ascii c with
  | 9%nat | 10%nat | 11%nat | 12%nat | 13%nat
  | 28%nat | 29%nat | 30%nat | 31%nat | 32%nat => true
  | _ => false
  end.

Definition flush (cur : string) : list string :=
  match cur with
  | EmptyString => []
  | String _ _ => [cur]
  end.

(** [s.split()] with the word under construction in [cur]. *)
Fixpoint split_from (cur s : string) : list string :=
  match s with
  | EmptyString => flush cur
  | String c s' =>
      if is_space c then flush cur ++ split_from "" s'
      else split_from (cur ++ String c "")%string s'
  end.

(** [s.split()]: the whitespace-separated tokens of [s]. *)
Definition words (s : string) : list string := split_from "" s.

(** [[x] * n] *)
Definition times {A} (n : nat) (x : A) : list A := List.repeat x n.

(** Truthiness of a string and of a list. *)
Definition truthy_str (s : string) : bool :=
  match s with EmptyString => false | _ => true end.

Definition truthy_list {A} (l : list A) : bool :=
  match l with [] => false | _ => true end.

End PyStr.

(** ** Python numbers, idealised as rationals *)

Module PyNum.

Definition Qltb (x y : Q) : bool := negb (Qle_bool y x).
Definition Qleb (x y : Q) : bool := Qle_bool x y.

(** [min(a, b)]: the first argument unless the second is smaller. *)
Definition pmin (a b : Q) : Q := if Qltb b a then b else a.

(** [max(iterable, default=d)] *)
Definition pmax_default (d : Q) (l : list Q) : Q :=
  match l with
  | [] => d
  | x :: rest => fold_left (fun m y => if Qltb m y then y else m) rest x
  end.

(** [round(x, ndigits)]: nearest multiple of [10^-ndigits], ties to even. *)
Definition round_half_even (y : Q) : Z :=
  let f := Qfloor y in
  let frac := (y - inject_Z f)%Q in
  if Qltb frac (1 # 2) then f
  else if Qltb (1 # 2) frac then (f + 1)%Z
  else if Z.even f then f else (f + 1)%Z.

Definition round (x : Q) (ndigits : nat) : Q :=
  let scale := inject_Z (10 ^ Z.of_nat ndigits) in
  (inject_Z (round_half_even (x * scale)) / scale)%Q.

(** Stable sort, largest key first: [l.sort(key=key, reverse=True)]. *)
Fixpoint insert_desc {A} (key : A -> Q) (x : A) (l : list A) : list A :=
  match l with
  | [] => [x]
  | y :: l' => if Qltb (key x) (key y) then y :: insert_desc key x l' else x :: l
  end.

Definition sort_desc {A} (key : A -> Q) (l : list A) : list A :=
  fold_right (insert_desc key) [] l.

(** [numpy.argsort(-scores)]: the positions of [scores], largest score
    first.  NumPy leaves the order of equal scores open; the model keeps
    equal scores in position order. *)
Definition argsort_desc (scores : list Q) : list nat :=
  sort_desc (fun j => nth j scores 0%Q) (seq 0 (length scores)).

End PyNum.

(** ** Item profiles and feature strings ([ai_recommender.py]) *)

Module Recommender.
Import PyStr PyNum.

(** The profile dictionary built by [build_movie_profile].  A list or
    text field read with [profile.get(...)] is [None] when the key is
    missing; [release_year] holds the value of
    [int(profile.get('release_year', '0') or '0')], so [0] stands for an
    unknown year, and the profiles represented are those whose year
    text is empty or a number (on any other text [int] raises);
    [vote_average] and [popularity] are passed through from
    the metadata provider and are [None] when the provider sent [null]. *)
Record Profile := {
  movie_id : Z;
  title : string;
  overview : option string;
  genres : option (list string);
  cast : option (list string);
  director : option (list string);
  crew : option (list string);
  keywords : option (list string);
  ml_tags : option (list string);
  release_year : Z;
  vote_average : option Q;
  popularity : option Q
}.

(** [if profile.get(f): features.extend([' '.join(profile[f])] * n)] *)
Definition list_block (n : nat) (field : option (list string)) : list string :=
  match field with
  | Some l => if truthy_list l then times n (join " " l) else []
  | None => []
  end.

(** [if profile.get('overview'): features.append(profile['overview'])] *)
Definition text_block (field : option string) : list string :=
  match field with
  | Some s => if truthy_str s then [s] else []
  | None => []
  end.

Definition feature_blocks (p : Profile) : list string :=
  list_block 3 (genres p) ++
  list_block 3 (director p) ++
  list_block 2 (keywords p) ++
  list_block 2 (ml_tags p) ++
  list_block 2 (cast p) ++
  text_block (overview p) ++
  list_block 1 (crew p).

Definition create_feature_string (profile : option Profile) : string :=
  match profile with
  | None => ""
  | Some p => join " " (feature_blocks p)
  end.

(** Tokens of a list field: the words of its entries, in order. *)
Definition field_tokens (field : option (list string)) : list string :=
  flat_map words (default [] field).

Definition text_tokens (field : option string) : list string :=
  words (default "" field).

(** [n] copies of a token sequence, one after the other. *)
Definition weighted (n : nat) (toks : list string) : list string :=
  List.concat (List.repeat toks n).


(** *** The collaborative-filtering model read at serving time
    ([movielens.py], [recommend_similar_by_movieId] and
    [recommend_similar_by_tmdbId]) *)

(** The unpickled payload written by [build_and_save_cf_model]. *)
Record CFModel := {
  item_index : gmap Z nat;
  user_index : gmap Z nat;
  top_indices : list (list nat);
  top_scores : list (list Q);
  index_to_movieId : option (list Z);
  movieId_to_tmdbId : gmap Z Z;
  tmdbId_to_movieId : gmap Z Z
}.

(** The loop [for j in order: ...] of [recommend_similar_by_movieId];
    [None] is an [IndexError]. *)
Fixpoint collect_neighbors (movie_id : Z) (index_to_movie : list Z)
    (neighbors : list nat) (scores : list Q) (top_n : nat)
    (order : list nat) (recs : list Z) : option (list Z) :=
  match order with
  | [] => Some recs
  | j :: order' =>
      nb ← neighbors !! j;
      mid ← index_to_movie !! nb;
      sc ← scores !! j;
      let recs' := if negb (Z.eqb mid movie_id) && Qltb 0 sc
                   then recs ++ [mid] else recs in
      if (top_n <=? length recs')%nat then Some recs'
      else collect_neighbors movie_id index_to_movie neighbors scores top_n order' recs'
  end.

Definition recommend_similar_by_movieId (movie_id : Z) (model : CFModel)
    (index_to_movie : list Z) (top_n : nat) : option (list Z) :=
  match item_index model !! movie_id with
  | None => Some []
  | Some idx =>
      neighbors ← top_indices model !! idx;
      scores ← top_scores model !! idx;
      collect_neighbors movie_id index_to_movie neighbors scores top_n
        (argsort_desc scores) []
  end.

(** The loop [for mid in rec_ml_ids: ...] of [recommend_similar_by_tmdbId]. *)
Fixpoint map_to_tmdb (movie_to_tmdb : gmap Z Z) (top_n : nat)
    (rec_ml_ids : list Z) (tmdb_recs : list Z) : list Z :=
  match rec_ml_ids with
  | [] => tmdb_recs
  | mid :: rest =>
      let recs' := match movie_to_tmdb !! mid with
                   | Some tid => if Z.eqb tid 0 then tmdb_recs else tmdb_recs ++ [tid]
                   | None => tmdb_recs
                   end in
      if (top_n <=? length recs')%nat then recs'
      else map_to_tmdb movie_to_tmdb top_n rest recs'
  end.

Definition recommend_similar_by_tmdbId (tmdb_id : Z) (model : CFModel)
    (top_n : nat) : option (list Z) :=
  match tmdbId_to_movieId model !! tmdb_id, index_to_movieId model with
  | Some ml_movie_id, Some index_to_movie =>
      rec_ml_ids ← recommend_similar_by_movieId ml_movie_id model index_to_movie (top_n * 2);
      Some (map_to_tmdb (movieId_to_tmdbId model) top_n rec_ml_ids [])
  | _, _ => Some []
  end.

(** *** Lazy loading of the model ([_try_load_cf], [_cf_neighbors_for_tmdb]) *)

(** What is found at [config.CF_MODEL_PATH]. *)
Inductive ModelFile :=
  | FileAbsent
  | FileUnreadable
  | FileHolds (m : CFModel).

Record Env := {
  ML_AVAILABLE : bool;
  cf_file : ModelFile
}.

(** The two fields of the engine object the CF path reads and writes. *)
Record Engine := {
  cf_loaded : bool;
  cf_model : option CFModel
}.

Definition new_engine : Engine := {| cf_loaded := false; cf_model := None |}.

Definition _try_load_cf (env : Env) (self : Engine) : Engine :=
  if cf_loaded self then self
  else if negb (ML_AVAILABLE env) then {| cf_loaded := true; cf_model := None |}
  else match cf_file env with
       | FileAbsent => {| cf_loaded := true; cf_model := cf_model self |}
       | FileHolds m => {| cf_loaded := true; cf_model := Some m |}
       | FileUnreadable => {| cf_loaded := true; cf_model := None |}
       end.

(** Returns the engine after the load attempt and the neighbour set;
    the set is [None] when [recommend_similar_by_tmdbId] raises. *)
Definition _cf_neighbors_for_tmdb (env : Env) (self : Engine) (tmdb_id : Z)
    (top_n : nat) : Engine * option (gset Z) :=
  let self' := _try_load_cf env self in
  match cf_model self' with
  | None => (self', Some ∅)
  | Some model =>
      (self', recs ← recommend_similar_by_tmdbId tmdb_id model top_n;
              Some (list_to_set recs))
  end.

(** *** Hybrid scoring ([get_intelligent_recommendations]) *)

Record ScoredMovie := {
  profile : Profile;
  similarity_score : Q;
  final_score : Q;
  rerank_score : option Q
}.

(** An entry of the returned list. *)
Record Recommendation := {
  rec_id : Z;
  rec_title : string;
  rec_similarity_score : Q;
  rec_profile : Profile
}.

Definition noise_floor : Q := 0.03.

(** [(rating / 10) * 0.08 if rating >= 6 else 0] *)
Definition rating_boost (rating : Q) : Q :=
  if Qleb 6 rating then (rating / 10) * 0.08 else 0.

(** [min(popularity / 1000, 0.02)] *)
Definition popularity_boost (popularity : Q) : Q :=
  pmin (popularity / 1000) 0.02.

Definition age_penalty (year : Z) (rating : Q) : Q :=
  if (0 <? year)%Z && (year <? 1990)%Z && Qltb rating 7.5
  then - 0.05 else 0.

(** [cf_neighbors and profile['id'] in cf_neighbors] *)
Definition cf_boost (cf_neighbors : gset Z) (p : Profile) : Q :=
  if negb (bool_decide (cf_neighbors = ∅)) && bool_decide (movie_id p ∈ cf_neighbors)
  then 0.05 else 0.

(** The result of one iteration of the scoring loop. *)
Inductive Scored :=
  | Raised
  | Skipped
  | Kept (m : ScoredMovie).

Definition score_candidate (cf_neighbors : gset Z) (p : Profile) (score : Q) : Scored :=
  if Qltb score noise_floor then Skipped
  else match vote_average p with
       | None => Raised
       | Some rating =>
           match popularity p with
           | None => Raised
           | Some pop =>
               Kept {| profile := p;
                       similarity_score := score;
                       final_score := score + rating_boost rating + popularity_boost pop
                                      + age_penalty (release_year p) rating
                                      + cf_boost cf_neighbors p;
                       rerank_score := None |}
           end
       end.

(** [for i, profile in enumerate(candidate_profiles)]; [None] when an
    iteration raises ([similarities[i]] out of range included). *)
Fixpoint score_loop (cf_neighbors : gset Z) (candidate_profiles : list Profile)
    (similarities : list Q) : option (list ScoredMovie) :=
  match candidate_profiles with
  | [] => Some []
  | p :: ps =>
      match similarities with
      | [] => None
      | score :: sims =>
          match score_candidate cf_neighbors p score with
          | Raised => None
          | Skipped => score_loop cf_neighbors ps sims
          | Kept m => rest ← score_loop cf_neighbors ps sims; Some (m :: rest)
          end
      end
  end.

(** The safety-net filter and the base ranking. *)
Definition base_ranking (scored_movies : list ScoredMovie) : list ScoredMovie :=
  sort_desc final_score
    (List.filter (fun m => Qleb noise_floor (similarity_score m)) scored_movies).

(** *** Optional cross-encoder re-ranking of the top prefix *)

Definition join_text (p : Profile) : string :=
  let parts :=
    [title p] ++ text_block (overview p) ++
    list_block 1 (genres p) ++ list_block 1 (keywords p) in
  String.substring 0 (Z.to_nat 5120) (join " " parts).

Definition set_rerank (m : ScoredMovie) (s : Q) : ScoredMovie :=
  {| profile := profile m; similarity_score := similarity_score m;
     final_score := final_score m; rerank_score := Some s |}.

(** [for item, s in zip(subset, scores): item['rerank_score'] = float(s)] *)
Fixpoint attach_scores (subset : list ScoredMovie) (scores : list Q) : list ScoredMovie :=
  match subset, scores with
  | m :: ms, s :: ss => set_rerank m s :: attach_scores ms ss
  | _, _ => subset
  end.

(** A loaded re-ranker maps the (query, document) pairs to scores, or raises. *)
Definition Reranker := list (string * string) -> option (list Q).

Definition rerank (reranker : option Reranker) (RERANKER_TOP_K : Z)
    (source_profile : Profile) (scored_movies : list ScoredMovie) : list ScoredMovie :=
  match reranker, scored_movies with
  | Some predict, _ :: _ =>
      let top_k := Z.to_nat (Z.max 1 RERANKER_TOP_K) in
      let subset := firstn top_k scored_movies in
      let query_text := join_text source_profile in
      let pairs := List.map (fun item => (query_text, join_text (profile item))) subset in
      match predict pairs with
      | Some scores =>
          sort_desc (fun x => default 0%Q (rerank_score x)) (attach_scores subset scores)
            ++ skipn top_k scored_movies
      | None => scored_movies
      end
  | _, _ => scored_movies
  end.

(** *** Diversification: greedy maximal marginal relevance *)

(** The constant of the source; the selection below takes the trade-off
    as a parameter so that other values can be stated. *)
Definition lambda_rel : Q := 0.7.

(** [best_mmr = -1e9] *)
Definition mmr_floor : Q := - 1000000000.

(** [available.remove(best_i)] *)
Fixpoint remove_first (x : nat) (l : list nat) : list nat :=
  match l with
  | [] => []
  | y :: l' => if Nat.eqb x y then l' else y :: remove_first x l'
  end.

(** [{p['id']: idx for idx, p in enumerate(candidate_profiles)}] *)
Definition make_id_to_idx (candidate_profiles : list Profile) : gmap Z nat :=
  fold_left (fun m ip => <[movie_id (snd ip) := fst ip]> m)
    (combine (seq 0 (length candidate_profiles)) candidate_profiles) ∅.

Section MMR.
Variable lam : Q.
Variable pairwise : nat -> nat -> Q.
Variable id_to_idx : gmap Z nat.
Variable scored_movies : list ScoredMovie.

Definition rel_at (si : nat) : Q :=
  match scored_movies !! si with
  | Some m => final_score m
  | None => 0
  end.

Definition idx_at (si : nat) : option nat :=
  m ← scored_movies !! si; id_to_idx !! movie_id (profile m).

Definition div_at (selected : list nat) (si : nat) : Q :=
  match idx_at si with
  | None => 0
  | Some idx =>
      match selected with
      | [] => 0
      | _ :: _ => pmax_default 0 (List.map (pairwise idx) (omap idx_at selected))
      end
  end.

Definition mmr_value (selected : list nat) (si : nat) : Q :=
  lam * rel_at si - (1 - lam) * div_at selected si.

(** The inner [for si in available] loop: the running best index and value. *)
Definition best_step (value : nat -> Q) (best : option nat * Q) (si : nat)
    : option nat * Q :=
  if Qltb (snd best) (value si) then (Some si, value si) else best.

Definition pick_best (value : nat -> Q) (available : list nat) : option nat * Q :=
  fold_left (best_step value) available (None, mmr_floor).

(** The [while] loop, [n] being [num_recommendations - len(selected)].
    When no candidate beats the initial [best_mmr], [best_i] is still
    [None] and [available.remove(None)] raises. *)
Fixpoint mmr_loop (n : nat) (selected available : list nat) : option (list nat) :=
  match n with
  | O => Some selected
  | S n' =>
      match available with
      | [] => Some selected
      | _ :: _ =>
          match fst (pick_best (mmr_value selected) available) with
          | None => None
          | Some best_i =>
              mmr_loop n' (selected ++ [best_i]) (remove_first best_i available)
          end
      end
  end.

Definition mmr_indices (num_recommendations : nat) : option (list nat) :=
  mmr_loop num_recommendations [] (seq 0 (length scored_movies)).
End MMR.

(** [final_list]: the MMR selection, or the plain prefix when the MMR
    block raises ([pairwise = None]: the pairwise matrix could not be
    computed). *)
Definition mmr_select (lam : Q) (pairwise : option (nat -> nat -> Q))
    (id_to_idx : gmap Z nat) (scored_movies : list ScoredMovie)
    (num_recommendations : nat) : list ScoredMovie :=
  match pairwise with
  | None => firstn num_recommendations scored_movies
  | Some pw =>
      match mmr_indices lam pw id_to_idx scored_movies num_recommendations with
      | Some selected => omap (fun i => scored_movies !! i) selected
      | None => firstn num_recommendations scored_movies
      end
  end.

Definition to_recommendation (item : ScoredMovie) : Recommendation :=
  {| rec_id := movie_id (profile item);
     rec_title := title (profile item);
     rec_similarity_score := round (similarity_score item * 100) 1;
     rec_profile := profile item |}.

(** *** The whole request, from the candidate profiles on *)

Section Request.
(** What the request reads from outside the engine. *)
Variable env : Env.
Variable build_movie_profile : Z -> option Profile.
(** Seed-to-candidate similarities from the embedding or TF-IDF
    model, given the seed's and the candidates' feature strings. *)
Variable vectorize : string -> list string -> option (list Q).
(** Candidate-to-candidate similarities over the same vectors. *)
Variable pairwise_of : string -> list string -> option (nat -> nat -> Q).
Variable reranker : option Reranker.
Variable RERANKER_TOP_K : Z.

(** The body of the [try] block; [None] when it raises. *)
Definition ranked_recommendations (self : Engine) (source_movie_id : Z)
    (source_profile : Profile) (candidate_profiles : list Profile)
    (num_recommendations : nat) : Engine * option (list Recommendation) :=
  let source_features := create_feature_string (Some source_profile) in
  let candidate_features :=
    List.map (fun p => create_feature_string (Some p)) candidate_profiles in
  match vectorize source_features candidate_features with
  | None => (self, None)
  | Some similarities =>
      let (self', cf) := _cf_neighbors_for_tmdb env self source_movie_id 50 in
      (self',
       cf_neighbors ← cf;
       scored ← score_loop cf_neighbors candidate_profiles similarities;
       let scored_movies :=
         rerank reranker RERANKER_TOP_K source_profile (base_ranking scored) in
       let final_list :=
         mmr_select lambda_rel (pairwise_of source_features candidate_features)
           (make_id_to_idx candidate_profiles) scored_movies num_recommendations in
       Some (List.map to_recommendation (firstn num_recommendations final_list)))
  end.

(** The [except] block: up to 12 CF neighbours of the seed, each
    reported with similarity 0.  [None] when it raises in turn. *)
Definition cf_fallback (self : Engine) (source_movie_id : Z)
    : Engine * option (list Recommendation) :=
  let (self', cf) := _cf_neighbors_for_tmdb env self source_movie_id 12 in
  (self',
   cf_neighbors ← cf;
   Some (omap (fun tmdb_id =>
                 prof ← build_movie_profile tmdb_id;
                 Some {| rec_id := movie_id prof; rec_title := title prof;
                         rec_similarity_score := 0; rec_profile := prof |})
           (firstn 12 (elements cf_neighbors)))).

(** [get_intelligent_recommendations] from [if not candidate_profiles]
    on.  The outer [option] is [None] when the call raises. *)
Definition get_intelligent_recommendations (self : Engine) (source_movie_id : Z)
    (source_profile : Profile) (candidate_profiles : list Profile)
    (num_recommendations : nat) : Engine * option (list Recommendation) :=
  match candidate_profiles with
  | [] => (self, Some [])
  | _ :: _ =>
      match ranked_recommendations self source_movie_id source_profile
              candidate_profiles num_recommendations with
      | (self', Some recommendations) => (self', Some recommendations)
      | (self', None) => cf_fallback self' source_movie_id
      end
  end.
End Request.

End Recommender.

(** ** User preference learning ([user_preference.py]) *)

Module UserPreference.
Import PyStr PyNum Recommender.
Local Open Scope Q_scope.

(** An entry of a [genres], [cast] or [keywords] list in [movie_data]:
    a plain name, or a provider dictionary whose ["name"] key may be
    missing. *)
Inductive Entry :=
  | Name (s : string)
  | Dict (name : option string).

(** [entry.get("name", "")] for a dictionary, the entry itself otherwise. *)
Definition entry_name (e : Entry) : string :=
  match e with
  | Name s => s
  | Dict (Some s) => s
  | Dict None => ""
  end.

(** The keys of [movie_data] that [_update_preferences] reads. *)
Record MovieData := {
  md_genres : option (list Entry);
  md_director : option (list string);
  md_cast : option (list Entry);
  md_keywords : option (list Entry)
}.

(** The four accumulators of [profile["preferences"]]. *)
Record Preferences := {
  pref_genres : gmap string Q;
  pref_directors : gmap string Q;
  pref_actors : gmap string Q;
  pref_keywords : gmap string Q
}.

Record RatingEntry := {
  rating : Q;
  timestamp : string
}.

Record UserProfile := {
  user_id : string;
  created_at : string;
  ratings : gmap string RatingEntry;
  watchlist : list Z;
  viewed : list (Z * string);
  clicked_trailers : list (Z * string);
  searches : list (string * string);
  disliked : list Z;
  liked : list Z;
  preferences : Preferences
}.

Definition set_ratings (p : UserProfile) (r : gmap string RatingEntry) : UserProfile :=
  {| user_id := user_id p; created_at := created_at p; ratings := r;
     watchlist := watchlist p; viewed := viewed p;
     clicked_trailers := clicked_trailers p; searches := searches p;
     disliked := disliked p; liked := liked p; preferences := preferences p |}.

Definition set_preferences (p : UserProfile) (prefs : Preferences) : UserProfile :=
  {| user_id := user_id p; created_at := created_at p; ratings := ratings p;
     watchlist := watchlist p; viewed := viewed p;
     clicked_trailers := clicked_trailers p; searches := searches p;
     disliked := disliked p; liked := liked p; preferences := prefs |}.

Definition empty_preferences : Preferences :=
  {| pref_genres := ∅; pref_directors := ∅; pref_actors := ∅; pref_keywords := ∅ |}.

(** [_empty_profile]; [load_user_profile] adds the empty [disliked] and
    [liked] lists on the next load. *)
Definition _empty_profile (uid now : string) : UserProfile :=
  {| user_id := uid; created_at := now; ratings := ∅; watchlist := [];
     viewed := []; clicked_trailers := []; searches := [];
     disliked := []; liked := []; preferences := empty_preferences |}.

(** What is on disk for a user: a profile, a file that is not valid
    JSON, or a file that cannot be read for another reason. *)
Inductive ProfileFile :=
  | Corrupt
  | Unreadable
  | Stored (p : UserProfile).

(** The profile directory; the second component of the value of
    [load_user_profile] is the directory after a corrupt file has been
    moved aside. *)
Definition load_user_profile (store : gmap string ProfileFile) (now uid : string)
    : UserProfile * gmap string ProfileFile :=
  match store !! uid with
  | Some (Stored p) => (p, store)
  | Some Corrupt => (_empty_profile uid now, delete uid store)
  | Some Unreadable => (_empty_profile uid now, store)
  | None => (_empty_profile uid now, store)
  end.

(** [save_user_profile]; a failed write ([disk_ok = false]) is caught
    and leaves the directory as it was. *)
Definition save_user_profile (disk_ok : bool) (store : gmap string ProfileFile)
    (uid : string) (p : UserProfile) : gmap string ProfileFile :=
  if disk_ok then <[uid := Stored p]> store else store.

(** [acc[k] = round(acc.get(k, 0) + w, 2)] *)
Definition bump (w : Q) (acc : gmap string Q) (k : string) : gmap string Q :=
  <[k := round (default 0%Q (acc !! k) + w) 2]> acc.

(** One of the four [for] loops: entries with an empty name are skipped. *)
Definition bump_all (w : Q) (names : list string) (acc : gmap string Q) : gmap string Q :=
  fold_left (fun a k => if truthy_str k then bump w a k else a) names acc.

Definition _update_preferences (prefs : Preferences) (movie_data : MovieData)
    (weight : Q) : Preferences :=
  {| pref_genres :=
       bump_all weight (List.map entry_name (default [] (md_genres movie_data)))
         (pref_genres prefs);
     pref_directors :=
       bump_all weight (default [] (md_director movie_data)) (pref_directors prefs);
     pref_actors :=
       bump_all (weight * 0.5)
         (List.map entry_name (firstn 5 (default [] (md_cast movie_data))))
         (pref_actors prefs);
     pref_keywords :=
       bump_all (weight * 0.3)
         (List.map entry_name (firstn 10 (default [] (md_keywords movie_data))))
         (pref_keywords prefs) |}.

(** The in-memory part of [track_rating].  [movie_data] is [None] for a
    missing argument; an empty dictionary, also falsy in Python, is a
    [MovieData] without keys, on which [_update_preferences] changes
    nothing. *)
Definition rate_profile (now : string) (profile : UserProfile) (movie_id : Z)
    (rating : Q) (movie_data : option MovieData) : UserProfile :=
  let profile1 :=
    set_ratings profile
      (<[pretty movie_id := {| rating := rating; timestamp := now |}]> (ratings profile)) in
  match movie_data with
  | Some md =>
      if Qleb 4 rating
      then set_preferences profile1
             (_update_preferences (preferences profile1) md (rating / 5))
      else profile1
  | None => profile1
  end.

(** [loaded_at] and [now] are the two readings of the clock, at load
    time (used only for a fresh profile) and at rating time. *)
Definition track_rating (disk_ok : bool) (loaded_at now : string)
    (store : gmap string ProfileFile) (uid : string) (movie_id : Z)
    (rating : Q) (movie_data : option MovieData)
    : UserProfile * gmap string ProfileFile :=
  let (profile, store1) := load_user_profile store loaded_at uid in
  let profile' := rate_profile now profile movie_id rating movie_data in
  (profile', save_user_profile disk_ok store1 uid profile').

(** *** Personalized re-ranking *)

(** [_calculate_personalization_score]: one overlap loop. *)
Definition overlap (acc : gmap string Q) (per_feature : Q) (names : list string) : Q :=
  fold_left (fun s k => match acc !! k with
                        | Some v => s + v * per_feature
                        | None => s
                        end) names 0%Q.

Definition genre_score (user_prefs : Preferences) (movie_profile : option Profile) : Q :=
  overlap (pref_genres user_prefs) 0.03
    (default [] (movie_profile ≫= genres)).

Definition director_score (user_prefs : Preferences) (movie_profile : option Profile) : Q :=
  overlap (pref_directors user_prefs) 0.05
    (default [] (movie_profile ≫= director)).

Definition actor_score (user_prefs : Preferences) (movie_profile : option Profile) : Q :=
  overlap (pref_actors user_prefs) 0.01
    (firstn 5 (default [] (movie_profile ≫= cast))).

Definition _calculate_personalization_score (user_prefs : Preferences)
    (movie_profile : option Profile) : Q :=
  let score := 0%Q in
  let score := score + pmin (genre_score user_prefs movie_profile) 0.15 in
  let score := score + pmin (director_score user_prefs movie_profile) 0.10 in
  let score := score + pmin (actor_score user_prefs movie_profile) 0.05 in
  pmin score 0.30.

(** An entry of a recommendation list as the personalization layer
    sees it: the keys it reads with [.get] may be missing. *)
Record Rec := {
  r_id : Z;
  r_title : string;
  r_similarity_score : option Q;
  r_final_score : option Q;
  r_profile : option Profile;
  r_personalization_score : option Q
}.

(** What [get_intelligent_recommendations] hands over: no
    ["final_score"] key, the similarity as a percentage. *)
Definition of_recommendation (r : Recommendation) : Rec :=
  {| r_id := rec_id r; r_title := rec_title r;
     r_similarity_score := Some (rec_similarity_score r);
     r_final_score := None; r_profile := Some (rec_profile r);
     r_personalization_score := None |}.

(** [rec.get("final_score", rec.get("similarity_score", 0))] *)
Definition base_score (r : Rec) : Q :=
  match r_final_score r with
  | Some f => f
  | None => default 0%Q (r_similarity_score r)
  end.

(** [str(movie_profile.get("id"))] *)
Definition id_key (movie_profile : option Profile) : string :=
  match movie_profile with
  | Some p => pretty (movie_id p)
  | None => "None"
  end.

(** [movie_profile.get('id') in disliked] *)
Definition is_disliked (profile : UserProfile) (movie_profile : option Profile) : bool :=
  match movie_profile with
  | Some p => bool_decide (movie_id p ∈ disliked profile)
  | None => false
  end.

Definition is_rated (profile : UserProfile) (movie_profile : option Profile) : bool :=
  bool_decide (is_Some (ratings profile !! id_key movie_profile)).

(** The adjusted score of one entry, before the rated entries are dropped. *)
Definition adjusted_score (profile : UserProfile) (r : Rec) : Q :=
  let personalization_score :=
    _calculate_personalization_score (preferences profile) (r_profile r) in
  let final_score := base_score r + personalization_score in
  if is_disliked profile (r_profile r) then final_score - 0.5 else final_score.

Definition personalize_one (profile : UserProfile) (r : Rec) : option Rec :=
  if is_rated profile (r_profile r) then None
  else Some {| r_id := r_id r; r_title := r_title r;
               r_similarity_score := r_similarity_score r;
               r_final_score := Some (adjusted_score profile r);
               r_profile := r_profile r;
               r_personalization_score :=
                 Some (round (_calculate_personalization_score
                                (preferences profile) (r_profile r) * 100) 1) |}.

(** The loop over [base_recs] and the final sort, before the cut. *)
Definition personalized_recs (profile : UserProfile) (base_recs : list Rec) : list Rec :=
  sort_desc (fun r => default 0%Q (r_final_score r))
    (omap (personalize_one profile) base_recs).

(** [get_personalized_recommendations] on a loaded profile.
    [base_engine k] stands for the [k] base recommendations of either
    branch: the content engine for a seed, or the profile-only pool. *)
Definition get_personalized_recommendations (profile : UserProfile)
    (base_engine : nat -> list Rec) (num_recommendations : nat) : list Rec :=
  let base_recs := base_engine (num_recommendations * 2)%nat in
  match base_recs with
  | [] => []
  | _ :: _ => firstn num_recommendations (personalized_recs profile base_recs)
  end.

End UserPreference.

(** ** The other interaction events and the seedless pool
    ([user_preference.py]) *)

Module Tracking.
Import PyStr PyNum Recommender UserPreference.
Local Open Scope Q_scope.

(** [l[-n:]] *)
Definition last_n {A} (n : nat) (l : list A) : list A :=
  if (n =? 0)%nat then l else skipn (length l - n) l.

(** [l.remove(x)]: the first occurrence goes. *)
Fixpoint list_remove (x : Z) (l : list Z) : list Z :=
  match l with
  | [] => []
  | y :: l' => if Z.eqb x y then l' else y :: list_remove x l'
  end.

Definition set_watchlist (p : UserProfile) (w : list Z) : UserProfile :=
  {| user_id := user_id p; created_at := created_at p; ratings := ratings p;
     watchlist := w; viewed := viewed p;
     clicked_trailers := clicked_trailers p; searches := searches p;
     disliked := disliked p; liked := liked p; preferences := preferences p |}.

Definition set_viewed (p : UserProfile) (v : list (Z * string)) : UserProfile :=
  {| user_id := user_id p; created_at := created_at p; ratings := ratings p;
     watchlist := watchlist p; viewed := v;
     clicked_trailers := clicked_trailers p; searches := searches p;
     disliked := disliked p; liked := liked p; preferences := preferences p |}.

Definition set_clicked_trailers (p : UserProfile) (v : list (Z * string)) : UserProfile :=
  {| user_id := user_id p; created_at := created_at p; ratings := ratings p;
     watchlist := watchlist p; viewed := viewed p;
     clicked_trailers := v; searches := searches p;
     disliked := disliked p; liked := liked p; preferences := preferences p |}.

Definition set_searches (p : UserProfile) (v : list (string * string)) : UserProfile :=
  {| user_id := user_id p; created_at := created_at p; ratings := ratings p;
     watchlist := watchlist p; viewed := viewed p;
     clicked_trailers := clicked_trailers p; searches := v;
     disliked := disliked p; liked := liked p; preferences := preferences p |}.

Definition set_disliked (p : UserProfile) (d : list Z) : UserProfile :=
  {| user_id := user_id p; created_at := created_at p; ratings := ratings p;
     watchlist := watchlist p; viewed := viewed p;
     clicked_trailers := clicked_trailers p; searches := searches p;
     disliked := d; liked := liked p; preferences := preferences p |}.

Definition set_liked (p : UserProfile) (l : list Z) : UserProfile :=
  {| user_id := user_id p; created_at := created_at p; ratings := ratings p;
     watchlist := watchlist p; viewed := viewed p;
     clicked_trailers := clicked_trailers p; searches := searches p;
     disliked := disliked p; liked := l; preferences := preferences p |}.

(** The in-memory part of each event: what happens to the loaded
    profile between [load_user_profile] and [save_user_profile]. *)
Definition view_profile (now : string) (p : UserProfile) (movie_id : Z) : UserProfile :=
  set_viewed p (last_n 100 (viewed p ++ [(movie_id, now)])).

Definition trailer_profile (now : string) (p : UserProfile) (movie_id : Z) : UserProfile :=
  set_clicked_trailers p (last_n 50 (clicked_trailers p ++ [(movie_id, now)])).

Definition search_profile (now : string) (p : UserProfile) (query : string) : UserProfile :=
  set_searches p (last_n 50 (searches p ++ [(query, now)])).

Definition not_interested_profile (p : UserProfile) (movie_id : Z) : UserProfile :=
  if bool_decide (movie_id ∈ disliked p) then p
  else set_disliked p (disliked p ++ [movie_id]).

Definition more_like_profile (p : UserProfile) (movie_id : Z)
    (movie_data : option MovieData) : UserProfile :=
  let p1 := if bool_decide (movie_id ∈ liked p) then p
            else set_liked p (liked p ++ [movie_id]) in
  match movie_data with
  | Some md => set_preferences p1 (_update_preferences (preferences p1) md 0.5)
  | None => p1
  end.

Definition add_watchlist_profile (p : UserProfile) (movie_id : Z) : UserProfile :=
  if bool_decide (movie_id ∈ watchlist p) then p
  else set_watchlist p (watchlist p ++ [movie_id]).

Definition remove_watchlist_profile (p : UserProfile) (movie_id : Z) : UserProfile :=
  if bool_decide (movie_id ∈ watchlist p)
  then set_watchlist p (list_remove movie_id (watchlist p))
  else p.

(** Load, change, save: the frame every event shares.  The result is
    the changed profile and the profile directory afterwards. *)
Definition with_profile (disk_ok : bool) (loaded_at : string)
    (store : gmap string ProfileFile) (uid : string)
    (change : UserProfile -> UserProfile)
    : UserProfile * gmap string ProfileFile :=
  let (profile, store1) := load_user_profile store loaded_at uid in
  (change profile, save_user_profile disk_ok store1 uid (change profile)).

Definition track_view (disk_ok : bool) (loaded_at now : string)
    (store : gmap string ProfileFile) (uid : string) (movie_id : Z) :=
  with_profile disk_ok loaded_at store uid (fun p => view_profile now p movie_id).

Definition track_trailer_click (disk_ok : bool) (loaded_at now : string)
    (store : gmap string ProfileFile) (uid : string) (movie_id : Z) :=
  with_profile disk_ok loaded_at store uid (fun p => trailer_profile now p movie_id).

Definition track_search (disk_ok : bool) (loaded_at now : string)
    (store : gmap string ProfileFile) (uid : string) (query : string) :=
  with_profile disk_ok loaded_at store uid (fun p => search_profile now p query).

Definition track_not_interested (disk_ok : bool) (loaded_at : string)
    (store : gmap string ProfileFile) (uid : string) (movie_id : Z) :=
  with_profile disk_ok loaded_at store uid (fun p => not_interested_profile p movie_id).

Definition track_more_like (disk_ok : bool) (loaded_at : string)
    (store : gmap string ProfileFile) (uid : string) (movie_id : Z)
    (movie_data : option MovieData) :=
  with_profile disk_ok loaded_at store uid (fun p => more_like_profile p movie_id movie_data).

Definition add_to_watchlist (disk_ok : bool) (loaded_at : string)
    (store : gmap string ProfileFile) (uid : string) (movie_id : Z) :=
  with_profile disk_ok loaded_at store uid (fun p => add_watchlist_profile p movie_id).

Definition remove_from_watchlist (disk_ok : bool) (loaded_at : string)
    (store : gmap string ProfileFile) (uid : string) (movie_id : Z) :=
  with_profile disk_ok loaded_at store uid (fun p => remove_watchlist_profile p movie_id).

(** *** Recommendations without a seed *)

(** An entry of the provider's list of popular titles; [vote_average]
    and [overview] are [None] when the key is missing. *)
Record PopularMovie := {
  pm_id : Z;
  pm_title : string;
  pm_vote_average : option Q;
  pm_overview : option string
}.

(** The basic profile built for a popular title.  It has the keys
    [id], [title], [genres] (always the empty list), [vote_average] and
    [overview]; the keys it lacks read as missing in the
    personalization score, the only reader of this profile. *)
Definition basic_profile (movie : PopularMovie) : Profile :=
  {| movie_id := pm_id movie; title := pm_title movie;
     overview := Some (default "" (pm_overview movie));
     genres := Some []; cast := None; director := None; crew := None;
     keywords := None; ml_tags := None; release_year := 0;
     vote_average := Some (default 0 (pm_vote_average movie));
     popularity := None |}.

Definition profile_based_entry (profile : UserProfile) (movie : PopularMovie) : Rec :=
  let movie_profile := basic_profile movie in
  let score := _calculate_personalization_score (preferences profile) (Some movie_profile) in
  {| r_id := pm_id movie; r_title := pm_title movie;
     r_similarity_score := Some (score * 100);
     r_final_score := Some (score + default 0 (pm_vote_average movie) / 100);
     r_profile := Some movie_profile;
     r_personalization_score := None |}.

(** [_get_profile_based_recommendations], [candidates] being the first
    page of popular titles. *)
Definition _get_profile_based_recommendations (candidates : list PopularMovie)
    (profile : UserProfile) (num_recommendations : nat) : list Rec :=
  firstn num_recommendations
    (sort_desc (fun r => default 0 (r_final_score r))
       (List.map (profile_based_entry profile)
          (firstn (num_recommendations * 2) candidates))).

(** [get_personalized_recommendations] with its two sources of base
    recommendations: the content engine for a seed, the popular pool
    without one ([base_movie_id] absent or 0). *)
Definition recommend_for_user (engine : Z -> nat -> list Recommendation)
    (candidates : list PopularMovie) (profile : UserProfile)
    (base_movie_id : option Z) (num_recommendations : nat) : list Rec :=
  get_personalized_recommendations profile
    (fun k =>
       match base_movie_id with
       | Some seed =>
           if Z.eqb seed 0
           then _get_profile_based_recommendations candidates profile k
           else List.map of_recommendation (engine seed k)
       | None => _get_profile_based_recommendations candidates profile k
       end)
    num_recommendations.

(** *** Activity summary *)

Record UserStats := {
  total_ratings : nat;
  total_watchlist : nat;
  total_views : nat;
  total_searches : nat;
  top_genres : list (string * Q);
  top_directors : list (string * Q);
  average_rating : Q
}.

(** [get_user_stats].  The two top lists are cut from the accumulator
    entries sorted by value; among equal values Python keeps insertion
    order, which a finite map does not record, so the model fixes some
    order for them. *)
Definition get_user_stats (profile : UserProfile) : UserStats :=
  let rs := List.map (fun kv => rating (snd kv)) (map_to_list (ratings profile)) in
  {| total_ratings := length rs;
     total_watchlist := length (watchlist profile);
     total_views := length (viewed profile);
     total_searches := length (searches profile);
     top_genres :=
       firstn 5 (sort_desc snd (map_to_list (pref_genres (preferences profile))));
     top_directors :=
       firstn 3 (sort_desc snd (map_to_list (pref_directors (preferences profile))));
     average_rating :=
       match rs with
       | [] => 0
       | _ :: _ => fold_right Qplus 0 rs / inject_Z (Z.of_nat (length rs))
       end |}.

End Tracking.

(** ** The offline model builder ([movielens.py]) *)

Module MovieLens.
Import PyStr PyNum Recommender.
Local Open Scope Q_scope.

(** A row of [ratings.csv] and a row of [links.csv]; [tmdbId] is [None]
    where the file has no value. *)
Record RatingRow := {
  userId : Z;
  movieId : Z;
  rating : Q
}.

Record LinkRow := {
  link_movieId : Z;
  tmdbId : option Z
}.

(** [build_tmdb_mapping]: later rows overwrite earlier ones. *)
Definition build_tmdb_mapping (links : list LinkRow) : gmap Z Z * gmap Z Z :=
  let clean := omap (fun l => t ← tmdbId l; Some (link_movieId l, t)) links in
  (fold_left (fun m mt => <[fst mt := snd mt]> m) clean ∅,
   fold_left (fun m mt => <[snd mt := fst mt]> m) clean ∅).

(** [Series.unique()]: the distinct values in order of first appearance. *)
Fixpoint unique_from (seen : list Z) (l : list Z) : list Z :=
  match l with
  | [] => []
  | x :: l' =>
      if bool_decide (x ∈ seen) then unique_from seen l'
      else x :: unique_from (x :: seen) l'
  end.

Definition unique (l : list Z) : list Z := unique_from [] l.

(** [{v: i for i, v in enumerate(values)}] *)
Definition index_map (values : list Z) : gmap Z nat :=
  fold_left (fun m iv => <[snd iv := fst iv]> m)
    (combine (seq 0 (length values)) values) ∅.

Definition Qsum (l : list Q) : Q := fold_right Qplus 0 l.

(** [build_item_user_matrix]: the item-by-user matrix, written densely;
    [csr_matrix((data, (rows, cols)))] adds up the ratings filed under
    the same cell. *)
Definition build_item_user_matrix (ratings : list RatingRow)
    : list (list Q) * gmap Z nat * gmap Z nat :=
  let unique_users := unique (List.map userId ratings) in
  let unique_items := unique (List.map movieId ratings) in
  let cell mid uid :=
    Qsum (List.map rating
            (List.filter (fun r => Z.eqb (movieId r) mid && Z.eqb (userId r) uid) ratings)) in
  (List.map (fun mid => List.map (cell mid) unique_users) unique_items,
   index_map unique_items, index_map unique_users).

(** *** Block-wise cosine similarities *)

Definition eps : Q := 1 # 10000000000.

Fixpoint dot (a b : list Q) : Q :=
  match a, b with
  | x :: a', y :: b' => x * y + dot a' b'
  | _, _ => 0
  end.

(** [x[:k] = values] on a row of the output arrays. *)
Definition assign_prefix {A} (k : nat) (values row : list A) : list A :=
  firstn k values ++ skipn k row.

(** [range(start, stop, step)] for a positive [step]. *)
Fixpoint range_from (fuel start stop step : nat) : list nat :=
  match fuel with
  | O => []
  | S fuel' =>
      if (start <? stop)%nat
      then start :: range_from fuel' (start + step) stop step
      else []
  end.

(** [range(0, stop, step)] with a step of any sign other than 0. *)
Definition range0 (stop : nat) (step : Z) : list nat :=
  if (0 <? step)%Z then range_from stop 0 stop (Z.to_nat step) else [].

(** [numpy.argpartition(-sims, k)[:k]]: the positions of the [k] largest
    entries.  NumPy fixes neither their order nor the choice among equal
    entries; the model lists them largest first. *)
Definition argpartition_top (k : nat) (sims : list Q) : list nat :=
  firstn k (argsort_desc sims).

(** [a[order]] *)
Definition take_at {A} (d : A) (a : list A) (order : list nat) : list A :=
  List.map (fun j => nth j a d) order.

Section Blockwise.
(** [numpy.sqrt] on the sums of squares. *)
Variable sqrtQ : Q -> Q.
Variable item_user : list (list Q).
Variable top_k : nat.

Definition n_items : nat := length item_user.

Definition row (i : nat) : list Q := nth i item_user [].

(** [norms[i]] *)
Definition norm (i : nat) : Q := sqrtQ (dot (row i) (row i)) + eps.

(** [dots.getrow(local_row)]: the columns and values the sparse
    product stores for row [g], those with a non-zero value.  SciPy does
    not fix the order of a row's entries; the model lists them by
    column, which matters only for the order of equal scores. *)
Definition product_row (g : nat) : list (nat * Q) :=
  List.filter (fun e => negb (Qeq_bool (snd e) 0))
    (List.map (fun j => (j, dot (row g) (row j))) (seq 0 n_items)).

(** [idx] and [sims] after the mask [idx != global_row]. *)
Definition neighbors (g : nat) : list (nat * Q) :=
  List.filter (fun e => negb (Nat.eqb (fst e) g))
    (List.map (fun e => (fst e, snd e / (norm g * norm (fst e)))) (product_row g)).

(** The positions kept for a row, best first. *)
Definition top_order (sims : list Q) : list nat :=
  if (length sims <=? top_k)%nat then argsort_desc sims
  else
    let part := argpartition_top top_k sims in
    take_at 0%nat part (argsort_desc (take_at 0 sims part)).

(** One iteration of the inner [for local_row] loop. *)
Definition process_row (tables : list (list nat) * list (list Q)) (global_row : nat)
    : list (list nat) * list (list Q) :=
  let idx := List.map fst (neighbors global_row) in
  let sims := List.map snd (neighbors global_row) in
  match sims with
  | [] => tables
  | _ :: _ =>
      let order := top_order sims in
      let k := Nat.min top_k (length order) in
      let (top_indices, top_scores) := tables in
      (<[global_row :=
           assign_prefix k (firstn k (take_at 0%nat idx order))
             (default [] (top_indices !! global_row))]> top_indices,
       <[global_row :=
           assign_prefix k (firstn k (take_at 0 sims order))
             (default [] (top_scores !! global_row))]> top_scores)
  end.

Definition process_block (block_size : nat)
    (tables : list (list nat) * list (list Q)) (start : nat)
    : list (list nat) * list (list Q) :=
  let stop := Nat.min (start + block_size) n_items in
  fold_left (fun t local_row => process_row t (start + local_row))
    (seq 0 (stop - start)) tables.

Definition zero_tables : list (list nat) * list (list Q) :=
  (List.repeat (List.repeat 0%nat top_k) n_items,
   List.repeat (List.repeat 0 top_k) n_items).

(** [None] when [range] rejects a step of 0. *)
Definition compute_item_similarities_blockwise (block_size : Z)
    : option (list (list nat) * list (list Q)) :=
  if Z.eqb block_size 0 then None
  else Some (fold_left (process_block (Z.to_nat block_size))
               (range0 n_items block_size) zero_tables).
End Blockwise.

(** *** Building and saving *)

(** [os.path.dirname(path)] is empty when [path] has no separator;
    [os.makedirs('')] then raises. *)
Fixpoint has_separator (path : string) : bool :=
  match path with
  | EmptyString => false
  | String c rest => if Ascii.eqb c "/"%char then true else has_separator rest
  end.

(** A path that ends with the separator, such as ["out/"] or ["/"],
    names a directory; [open(path, 'wb')] raises on it, after
    [os.makedirs] has created the directory. *)
Fixpoint ends_with_separator (path : string) : bool :=
  match path with
  | EmptyString => false
  | String c EmptyString => Ascii.eqb c "/"%char
  | String _ rest => ends_with_separator rest
  end.

(** The file system is the snapshot files written so far, by path;
    [None] when the call raises.  The directories that [os.makedirs]
    creates are not part of this state, and the path is taken not to
    name a directory that exists already. *)
Definition save_similarity_model (fs : gmap string CFModel) (path : string)
    (payload : CFModel) : option (gmap string CFModel) :=
  if has_separator path && negb (ends_with_separator path)
  then Some (<[path := payload]> fs) else None.

Inductive BuildResult :=
  | BuildRaised
  | NoModel
  | Saved (model_path : string).

Definition count_ratings (valid : list RatingRow) (mid : Z) : nat :=
  length (List.filter (fun r => Z.eqb (movieId r) mid) valid).

(** The ratings left after the crosswalk filter. *)
Definition in_crosswalk (links : list LinkRow) (ratings : list RatingRow) : list RatingRow :=
  let movie_to_tmdb := fst (build_tmdb_mapping links) in
  List.filter (fun r => bool_decide (is_Some (movie_to_tmdb !! movieId r))) ratings.

(** ... and after pruning the items with too few ratings. *)
Definition pruned (links : list LinkRow) (ratings : list RatingRow)
    (min_item_ratings : Z) : list RatingRow :=
  let valid := in_crosswalk links ratings in
  if (1 <? min_item_ratings)%Z
  then List.filter
         (fun r => (min_item_ratings <=? Z.of_nat (count_ratings valid (movieId r)))%Z) valid
  else valid.

Definition build_and_save_cf_model (sqrtQ : Q -> Q) (fs : gmap string CFModel)
    (ratings : list RatingRow) (links : list LinkRow) (model_path : string)
    (top_k : nat) (min_item_ratings : Z) (block_size : Z)
    : BuildResult * gmap string CFModel :=
  let (movie_to_tmdb, tmdb_to_movie) := build_tmdb_mapping links in
  let valid := pruned links ratings min_item_ratings in
  match valid with
  | [] => (NoModel, fs)
  | _ :: _ =>
      let '(item_user, item_index, user_index) := build_item_user_matrix valid in
      match compute_item_similarities_blockwise sqrtQ item_user top_k block_size with
      | None => (BuildRaised, fs)
      | Some (top_indices, top_scores) =>
          let payload :=
            {| Recommender.item_index := item_index;
               Recommender.user_index := user_index;
               Recommender.top_indices := top_indices;
               Recommender.top_scores := top_scores;
               Recommender.index_to_movieId := Some (unique (List.map movieId valid));
               Recommender.movieId_to_tmdbId := movie_to_tmdb;
               Recommender.tmdbId_to_movieId := tmdb_to_movie |} in
          match save_similarity_model fs model_path payload with
          | Some fs' => (Saved model_path, fs')
          | None => (BuildRaised, fs)
          end
      end
  end.

(** A square root rounded down to ten decimals; one function that meets
    the accuracy the bound on the scores asks for. *)
Definition sqrt_fixed (x : Q) : Q :=
  inject_Z (Z.sqrt (Qfloor (x * inject_Z (10 ^ 20)))) / inject_Z (10 ^ 10).

(** A square root carried to 23 binary places, the precision of
    single-precision numbers between 1 and 2, in which the builder
    computes its norms; for 2 it is 11863283 / 2^23 = 1.41421353..., the
    value [numpy.sqrt] returns for [float32(2)]. *)
Definition sqrt_single (x : Q) : Q :=
  inject_Z (Z.sqrt (Qfloor (x * inject_Z (2 ^ 46)))) / inject_Z (2 ^ 23).

End MovieLens.

(** ** Tag normalization ([movielens.py], [_normalize_tag]) *)

Module Tags.
Import PyStr.

(** Strings stand for tags of ASCII characters, for which [str.lower]
    changes the letters A to Z only and [str.strip] removes the
    whitespace of [str.split]. *)
Definition is_upper (c : ascii) : bool :=
  let n := nat_of_ascii c in (65 <=? n)%nat && (n <=? 90)%nat.

Definition lower_char (c : ascii) : ascii :=
  if is_upper c then ascii_of_nat (nat_of_ascii c + 32) else c.

Fixpoint lower (s : string) : string :=
  match s with
  | EmptyString => EmptyString
  | String c s' => String (lower_char c) (lower s')
  end.

Fixpoint lstrip (s : string) : string :=
  match s with
  | EmptyString => EmptyString
  | String c s' => if is_space c then lstrip s' else s
  end.

Fixpoint rstrip (s : string) : string :=
  match s with
  | EmptyString => EmptyString
  | String c s' =>
      match rstrip s' with
      | EmptyString => if is_space c then EmptyString else String c EmptyString
      | String _ _ as r => String c r
      end
  end.

Definition strip (s : string) : string := rstrip (lstrip s).

(** The class [a-z0-9] of [TAG_TOKEN_RE], which matches its complement. *)
Definition is_tag_char (c : ascii) : bool :=
  let n := nat_of_ascii c in
  ((97 <=? n)%nat && (n <=? 122)%nat) || ((48 <=? n)%nat && (n <=? 57)%nat).

(** [TAG_TOKEN_RE.sub(" ", t)]: every maximal run of characters outside
    the class becomes one space; [in_run] tells that the run's space
    has been written. *)
Fixpoint sub_runs (in_run : bool) (t : string) : string :=
  match t with
  | EmptyString => EmptyString
  | String c t' =>
      if is_tag_char c then String c (sub_runs false t')
      else if in_run then sub_runs true t'
      else String " " (sub_runs true t')
  end.

Definition _normalize_tag (tag : string) : string :=
  let t := lower (strip tag) in
  let t := sub_runs false t in
  join " " (words t).

End Tags.

(** ** Vocabulary for the statements about preferences *)

Module PrefSpec.
Import PyNum Recommender UserPreference.

(** The value an accumulator contributes for a feature: its entry, or
    nothing when the feature has never been seen. *)
Definition acc_value (acc : gmap string Q) (k : string) : Q :=
  default 0%Q (acc !! k).

Inductive Accumulator := Genres | Directors | Actors | Keywords.

#[global] Instance Accumulator_eq_dec : EqDecision Accumulator.
Proof. solve_decision. Defined.

Definition get_acc (which : Accumulator) (prefs : Preferences) : gmap string Q :=
  match which with
  | Genres => pref_genres prefs
  | Directors => pref_directors prefs
  | Actors => pref_actors prefs
  | Keywords => pref_keywords prefs
  end.

Definition set_acc (which : Accumulator) (acc : gmap string Q) (prefs : Preferences)
    : Preferences :=
  match which with
  | Genres =>
      {| pref_genres := acc; pref_directors := pref_directors prefs;
         pref_actors := pref_actors prefs; pref_keywords := pref_keywords prefs |}
  | Directors =>
      {| pref_genres := pref_genres prefs; pref_directors := acc;
         pref_actors := pref_actors prefs; pref_keywords := pref_keywords prefs |}
  | Actors =>
      {| pref_genres := pref_genres prefs; pref_directors := pref_directors prefs;
         pref_actors := acc; pref_keywords := pref_keywords prefs |}
  | Keywords =>
      {| pref_genres := pref_genres prefs; pref_directors := pref_directors prefs;
         pref_actors := pref_actors prefs; pref_keywords := acc |}
  end.

(** Every accumulator value of [a] is at most the one of [b]. *)
Definition prefs_le (a b : Preferences) : Prop :=
  forall which k, (acc_value (get_acc which a) k <= acc_value (get_acc which b) k)%Q.

(** [new] is [old] after one pass of an accumulation loop of weight [w]
    over [names]: features not named (and the empty name) keep their
    value; when no name repeats, every named feature holds its former
    value, or 0, plus [w], rounded to two decimals. *)
Definition accumulated (w : Q) (names : list string) (old new : gmap string Q) : Prop :=
  (forall k, ~ In k names \/ k = "" -> new !! k = old !! k) /\
  (NoDup names -> forall k, In k names -> k <> "" ->
     new !! k = Some (round (acc_value old k + w) 2)).

End PrefSpec.

(** ** Vocabulary for the statements about the builder *)

Module BuilderSpec.
Import PyNum MovieLens.
Local Open Scope Q_scope.

(** Largest first: an entry is never below a later one. *)
Definition descending (l : list Q) : Prop :=
  forall (p q : nat) (a b : Q),
    (p <= q)%nat -> l !! p = Some a -> l !! q = Some b -> b <= a.

Definition nonnegative (item_user : list (list Q)) : Prop :=
  Forall (Forall (fun x => 0 <= x)) item_user.

(** No computed square root of a row's sum of squares is negative. *)
Definition sqrt_nonneg (sqrtQ : Q -> Q) (item_user : list (list Q)) : Prop :=
  Forall (fun r => 0 <= sqrtQ (dot r r)) item_user.

(** The computed norm of every row, [sqrt(sum of squares) + eps], is not
    below the true norm: [sqrtQ] is non-negative and falls short of the
    square root by at most [eps]. *)
Definition sqrt_accurate (sqrtQ : Q -> Q) (item_user : list (list Q)) : Prop :=
  Forall (fun r => 0 <= sqrtQ (dot r r) /\
                   dot r r <= (sqrtQ (dot r r) + eps) * (sqrtQ (dot r r) + eps))
    item_user.

(** The similarity the builder stores for the pair of rows [g], [j]. *)
Definition cosine (sqrtQ : Q -> Q) (item_user : list (list Q)) (g j : nat) : Q :=
  dot (row item_user g) (row item_user j)
  / (norm sqrtQ item_user g * norm sqrtQ item_user j).

Section Stored.
Variable sqrtQ : Q -> Q.
Variable item_user : list (list Q).
Variable top_k : nat.

(** What the loop writes for row [g]: the positions it keeps among the
    row's neighbours, and the indices and scores found there. *)
Definition stored_order (g : nat) : list nat :=
  top_order top_k (List.map snd (neighbors sqrtQ item_user g)).

Definition stored_indices (g : nat) : list nat :=
  take_at 0%nat (List.map fst (neighbors sqrtQ item_user g)) (stored_order g).

Definition stored_scores (g : nat) : list Q :=
  take_at 0 (List.map snd (neighbors sqrtQ item_user g)) (stored_order g).
End Stored.

End BuilderSpec.

(** ** Vocabulary for the statements about the filter *)

Module FilterSpec.
Import PyNum Recommender.

(** A scored entry stems from candidate number [i] and passed the floor. *)
Definition from_candidate (candidate_profiles : list Profile) (similarities : list Q)
    (m : ScoredMovie) : Prop :=
  exists i : nat,
    candidate_profiles !! i = Some (profile m) /\
    similarities !! i = Some (similarity_score m) /\
    (noise_floor <= similarity_score m)%Q.

End FilterSpec.

(** ** The specification's wording of three properties *)

Module AsSpecified.
Import PyNum Recommender UserPreference MovieLens BuilderSpec.
Local Open Scope Q_scope.

(** The filter invariant as the specification words it: a candidate
    below the floor is never returned. *)
Definition below_floor_never_returned : Prop :=
  forall (env : Env) (build_movie_profile : Z -> option Profile)
    (vectorize : string -> list string -> option (list Q))
    (pairwise_of : string -> list string -> option (nat -> nat -> Q))
    (reranker : option Reranker) (top_k : Z)
    (self self' : Engine) (source_movie_id : Z) (source_profile : Profile)
    (cands : list Profile) (n : nat) (recs : list Recommendation)
    (sims : list Q) (i : nat) (p : Profile) (s : Q),
    NoDup (List.map movie_id cands) ->
    get_intelligent_recommendations env build_movie_profile vectorize pairwise_of
      reranker top_k self source_movie_id source_profile cands n = (self', Some recs) ->
    vectorize (create_feature_string (Some source_profile))
      (List.map (fun p => create_feature_string (Some p)) cands) = Some sims ->
    cands !! i = Some p -> sims !! i = Some s -> (s < noise_floor)%Q ->
    ~ In (movie_id p) (List.map rec_id recs).

(** The dislike scenario as the specification words it: title 42, once
    disliked, is never in the personalized output. *)
Definition disliked_never_surfaces : Prop :=
  forall (profile : UserProfile) (base_engine : nat -> list Rec) (n : nat),
    42%Z ∈ disliked profile ->
    ~ In 42%Z (List.map r_id (get_personalized_recommendations profile base_engine n)).

(** The bound on the stored scores as the specification words it,
    with the norms computed in single precision: every stored score
    lies in [-1, 1]. *)
Definition scores_within_unit_bounds : Prop :=
  forall (item_user : list (list Q)) (top_k : nat) (block_size : Z)
    (ti : list (list nat)) (ts : list (list Q)),
    compute_item_similarities_blockwise sqrt_single item_user top_k block_size
      = Some (ti, ts) ->
    Forall (Forall (fun s => - 1 <= s /\ s <= 1)) ts.

End AsSpecified.

(** ** Sample data used in the examples *)

Module Fixtures.
Import PyNum Recommender.

Definition blade_runner : Profile := {|
  movie_id := 78; title := "Blade Runner";
  overview := Some "A blade runner must pursue replicants";
  genres := Some ["Science Fiction"; "Drama"];
  cast := Some ["Harrison Ford"];
  director := Some ["Ridley Scott"];
  crew := None;
  keywords := Some [];
  ml_tags := Some ["dystopia"];
  release_year := 1982;
  vote_average := Some 7.9%Q;
  popularity := Some 60%Q |}.

Definition bare (i : Z) (name : string) (vote pop : option Q) : Profile := {|
  movie_id := i; title := name; overview := None; genres := Some ["Drama"];
  cast := None; director := None; crew := None; keywords := None;
  ml_tags := None; release_year := 2001;
  vote_average := vote; popularity := pop |}.

Definition seed : Profile := bare 100 "Seed" (Some 7%Q) (Some 10%Q).
Definition cand_a : Profile := bare 200 "A" (Some 7%Q) (Some 10%Q).
(** The provider sent [null] as this title's vote average. *)
Definition cand_b_null : Profile := bare 300 "B" None (Some 10%Q).
Definition cand_b : Profile := bare 300 "B" (Some 8%Q) (Some 10%Q).

(** Two MovieLens items, 1 and 2, each the other's only neighbour;
    they are TMDb titles 100 and 200. *)
Definition small_model : CFModel := {|
  item_index := <[1%Z := 0%nat]> (<[2%Z := 1%nat]> ∅);
  user_index := <[7%Z := 0%nat]> ∅;
  top_indices := [[1%nat; 0%nat]; [0%nat; 0%nat]];
  top_scores := [[0.9%Q; 0%Q]; [0.9%Q; 0%Q]];
  index_to_movieId := Some [1%Z; 2%Z];
  movieId_to_tmdbId := <[1%Z := 100%Z]> (<[2%Z := 200%Z]> ∅);
  tmdbId_to_movieId := <[100%Z := 1%Z]> (<[200%Z := 2%Z]> ∅) |}.

Definition env_with_model : Env :=
  {| ML_AVAILABLE := true; cf_file := FileHolds small_model |}.

Definition lookup_profile (i : Z) : option Profile :=
  if Z.eqb i 200 then Some cand_a
  else if Z.eqb i 300 then Some cand_b
  else if Z.eqb i 100 then Some seed else None.

Definition sims_low_high (_ : string) (_ : list string) : option (list Q) :=
  Some [0.01%Q; 0.5%Q].

Definition pairwise_flat (_ : string) (_ : list string) : option (nat -> nat -> Q) :=
  Some (fun i j => if Nat.eqb i j then 1%Q else 0.1%Q).

Definition scored (p : Profile) (sim final : Q) : ScoredMovie :=
  {| profile := p; similarity_score := sim; final_score := final;
     rerank_score := None |}.

Definition scored_a : ScoredMovie := scored cand_a 0.5 0.8.
Definition scored_b : ScoredMovie := scored cand_b 0.6 0.9.
Definition scored_c : ScoredMovie := scored seed 0.6 0.9.
Definition three_scored : list ScoredMovie := [scored_a; scored_b; scored_c].

(** A user who rated dramas highly and marked title 42 as not interesting. *)
Definition drama_fan : UserPreference.UserProfile :=
  {| UserPreference.user_id := "u1"; UserPreference.created_at := "2024-01-01T00:00:00";
     UserPreference.ratings := ∅; UserPreference.watchlist := [];
     UserPreference.viewed := []; UserPreference.clicked_trailers := [];
     UserPreference.searches := [];
     UserPreference.disliked := [42%Z]; UserPreference.liked := [];
     UserPreference.preferences :=
       {| UserPreference.pref_genres := <["Drama" := 2%Q]> ∅;
          UserPreference.pref_directors := ∅;
          UserPreference.pref_actors := ∅;
          UserPreference.pref_keywords := ∅ |} |}.

Definition title_42 : Profile := bare 42 "Forty-Two" (Some 8%Q) (Some 10%Q).

(** The content engine returned title 42 alone, as a 50% match. *)
Definition engine_returns_42 (_ : nat) : list UserPreference.Rec :=
  [UserPreference.of_recommendation
     {| rec_id := 42; rec_title := "Forty-Two"; rec_similarity_score := 50%Q;
        rec_profile := title_42 |}].

(** Three ratings of two MovieLens items, both in the crosswalk. *)
Definition few_ratings : list MovieLens.RatingRow :=
  [ {| MovieLens.userId := 7; MovieLens.movieId := 1; MovieLens.rating := 4%Q |};
    {| MovieLens.userId := 8; MovieLens.movieId := 1; MovieLens.rating := 5%Q |};
    {| MovieLens.userId := 7; MovieLens.movieId := 2; MovieLens.rating := 3%Q |} ].

Definition two_links : list MovieLens.LinkRow :=
  [ {| MovieLens.link_movieId := 1; MovieLens.tmdbId := Some 100%Z |};
    {| MovieLens.link_movieId := 2; MovieLens.tmdbId := Some 200%Z |};
    {| MovieLens.link_movieId := 3; MovieLens.tmdbId := None |} ].

(** The details of a title as the provider sends them. *)
Definition drama_details : UserPreference.MovieData :=
  {| UserPreference.md_genres :=
       Some [UserPreference.Dict (Some "Drama"); UserPreference.Dict (Some "Thriller")];
     UserPreference.md_director := None;
     UserPreference.md_cast := Some [UserPreference.Name "Ann Actor"];
     UserPreference.md_keywords := Some [UserPreference.Dict (Some "heist")] |}.

Definition one_user : gmap string UserPreference.ProfileFile :=
  <["u1" := UserPreference.Stored drama_fan]> ∅.

End Fixtures.

(** ** Vocabulary for the statements about ranking and serving *)

Module ServingSpec.
Import PyNum Recommender.

(** An entry of an answer of [recommend_similar_by_movieId] comes from
    a slot of the seed's row whose score is positive. *)
Definition from_positive_slot (model : CFModel) (index_to_movie : list Z)
    (movie_id : Z) (r : Z) : Prop :=
  exists (idx j nb : nat) (row_i : list nat) (row_s : list Q) (sc : Q),
    item_index model !! movie_id = Some idx /\
    top_indices model !! idx = Some row_i /\
    top_scores model !! idx = Some row_s /\
    row_i !! j = Some nb /\ row_s !! j = Some sc /\ (0 < sc)%Q /\
    index_to_movie !! nb = Some r.

(** [movie_to_tmdb.get(mid)] when it is truthy: the TMDb id of a
    MovieLens item, unless it is missing or 0. *)
Definition crosswalk_image (movie_to_tmdb : gmap Z Z) (mid : Z) : option Z :=
  tid ← movie_to_tmdb !! mid; if Z.eqb tid 0 then None else Some tid.

(** What re-ranking must not touch in a scored entry. *)
Definition core (m : ScoredMovie) : Profile * Q * Q :=
  (profile m, similarity_score m, final_score m).

(** The tables of a model have [n] rows of [k] slots, every stored
    index is below [n], and the index-to-id list has [n] entries: no
    lookup made while reading neighbours can be out of range. *)
Definition well_shaped (model : CFModel) (n k : nat) : Prop :=
  (forall m idx, item_index model !! m = Some idx -> (idx < n)%nat) /\
  length (top_indices model) = n /\ length (top_scores model) = n /\
  Forall (fun r => length r = k /\ Forall (fun j => (j < n)%nat) r) (top_indices model) /\
  Forall (fun r => length r = k) (top_scores model) /\
  exists index_to_movie,
    index_to_movieId model = Some index_to_movie /\ length index_to_movie = n.

End ServingSpec.

(** ** Vocabulary for the statements about interaction events *)

Module EventSpec.
Import PyNum Recommender UserPreference PrefSpec Tracking.

(** No accumulator holds a negative value. *)
Definition nonneg_acc (acc : gmap string Q) : Prop :=
  forall k v, acc !! k = Some v -> (0 <= v)%Q.

Definition nonneg_prefs (prefs : Preferences) : Prop :=
  forall which, nonneg_acc (get_acc which prefs).

(** Every feature known to [old] is known to [new]. *)
Definition keys_kept (old new : Preferences) : Prop :=
  forall which k, is_Some (get_acc which old !! k) -> is_Some (get_acc which new !! k).

(** [new] is the history [old] with [x] appended, cut to its last
    [cap] entries. *)
Definition keeps_latest {A} (cap : nat) (old : list A) (x : A) (new : list A) : Prop :=
  (exists dropped, old ++ [x] = dropped ++ new) /\
  length new = Nat.min cap (S (length old)) /\
  last new = Some x.

(** The fields of a profile other than its three histories. *)
Definition beyond_histories (p : UserProfile) :=
  (user_id p, created_at p, ratings p, watchlist p, disliked p, liked p, preferences p).

End EventSpec.

(** ** Vocabulary for the statements about the data set *)

Module DatasetSpec.
Import PyNum Recommender MovieLens.

(** A row of [links.csv] that pairs MovieLens id [m] with TMDb id [t]. *)
Definition links_pair (links : list LinkRow) (m t : Z) : Prop :=
  exists l, In l links /\ link_movieId l = m /\ tmdbId l = Some t.

(** No MovieLens id is paired with two TMDb ids, and no TMDb id with
    two MovieLens ids. *)
Definition one_to_one (links : list LinkRow) : Prop :=
  forall m t m' t', links_pair links m t -> links_pair links m' t' ->
    (m = m' <-> t = t').

(** The ratings user [uid] gave to item [mid], in file order. *)
Definition ratings_of (ratings : list RatingRow) (mid uid : Z) : list Q :=
  List.map rating
    (List.filter (fun r => Z.eqb (movieId r) mid && Z.eqb (userId r) uid) ratings).

(** [index] numbers the entries of [values]: it maps a value to the
    position it has in the list, and nothing else. *)
Definition enumerates (index : gmap Z nat) (values : list Z) : Prop :=
  forall v i, index !! v = Some i <-> values !! i = Some v.

(** The snapshot [build_and_save_cf_model] pickles for the pruned
    ratings [valid] and the two tables. *)
Definition built_payload (links : list LinkRow) (valid : list RatingRow)
    (tables : list (list nat) * list (list Q)) : CFModel :=
  {| item_index := snd (fst (build_item_user_matrix valid));
     user_index := snd (build_item_user_matrix valid);
     top_indices := fst tables;
     top_scores := snd tables;
     index_to_movieId := Some (unique (List.map movieId valid));
     movieId_to_tmdbId := fst (build_tmdb_mapping links);
     tmdbId_to_movieId := snd (build_tmdb_mapping links) |}.

(** The engine's environment once the snapshot is in place. *)
Definition serving (model : CFModel) : Env :=
  {| ML_AVAILABLE := true; cf_file := FileHolds model |}.

End DatasetSpec.

(** ** Vocabulary for the statements about tags *)

Module TagSpec.
Import PyStr Tags.

(** Every character of [s] passes the test [P]. *)
Fixpoint all_chars (P : ascii -> bool) (s : string) : bool :=
  match s with
  | EmptyString => true
  | String c s' => P c && all_chars P s'
  end.

(** A non-empty word of lower-case letters and digits. *)
Definition token (w : string) : bool := truthy_str w && all_chars is_tag_char w.

Definition tag_or_space (c : ascii) : bool := is_tag_char c || Ascii.eqb c " ".

(** Neither the character nor its lower-case form is a letter a to z
    or a digit. *)
Definition outside_class (c : ascii) : bool := negb (is_tag_char (lower_char c)).

End TagSpec.

(** * Properties *)

(** ** Feature strings *)

Example words_ex : PyStr.words "  a bc  d " = ["a"; "bc"; "d"].
Proof. reflexivity. Qed.

Example feature_string_ex :
  Recommender.create_feature_string (Some Fixtures.blade_runner) =
  "Science Fiction Drama Science Fiction Drama Science Fiction Drama Ridley Scott Ridley Scott Ridley Scott dystopia dystopia Harrison Ford Harrison Ford A blade runner must pursue replicants".
Proof. reflexivity. Qed.


Section FeatureString.
Import PyStr Recommender.

Lemma split_from_sep (s1 s2 cur : string) (c : ascii) :
  is_space c = true ->
  split_from cur (s1 ++ String c s2)%string = split_from cur s1 ++ split_from "" s2.
Proof.
  intros Hc. revert cur.
  induction s1 as [|a s1 IH]; intros cur; simpl.
  - now rewrite Hc.
  - destruct (is_space a).
    + rewrite IH. now rewrite <- app_assoc.
    + apply IH.
Qed.

Lemma words_sep (s1 s2 : string) :
  words (s1 ++ " " ++ s2)%string = words s1 ++ words s2.
Proof. unfold words. simpl. now apply split_from_sep. Qed.

(** Splitting a space-joined list gives the words of its members. *)
Lemma words_join (l : list string) :
  words (join " " l) = flat_map words l.
Proof.
  induction l as [|x rest IH].
  - reflexivity.
  - destruct rest as [|y rest].
    + simpl. now rewrite app_nil_r.
    + change (join " " (x :: y :: rest)) with (x ++ " " ++ join " " (y :: rest))%string.
      rewrite words_sep, IH. reflexivity.
Qed.

Lemma flat_map_words_times (n : nat) (s : string) :
  flat_map words (times n s) = weighted n (words s).
Proof.
  unfold times, weighted. induction n as [|n IH]; simpl; [reflexivity|].
  now rewrite IH.
Qed.

Lemma list_block_tokens (n : nat) (field : option (list string)) :
  flat_map words (list_block n field) = weighted n (field_tokens field).
Proof.
  unfold list_block, field_tokens.
  destruct field as [[|x l]|].
  - simpl. unfold weighted. induction n; simpl; auto.
  - cbn [truthy_list default]. now rewrite flat_map_words_times, words_join.
  - simpl. unfold weighted. induction n; simpl; auto.
Qed.

Lemma text_block_tokens (field : option string) :
  flat_map words (text_block field) = weighted 1 (text_tokens field).
Proof.
  unfold text_block, text_tokens, weighted.
  destruct field as [[|c s]|]; simpl; now rewrite ?app_nil_r.
Qed.

Lemma weighted_length (n : nat) (toks : list string) :
  length (weighted n toks) = (n * length toks)%nat.
Proof.
  unfold weighted. induction n as [|n IH]; simpl; [reflexivity|].
  rewrite length_app, IH. reflexivity.
Qed.

(** C1. [create_feature_string] is the space-joined list of the blocks of
    the non-empty fields, in the order genres, director, keywords,
    ml_tags, cast, overview, crew, each list field space-joined and
    repeated 3, 3, 2, 2, 2, 1, 1 times; the words of the result are
    exactly the tokens of each field repeated by its weight, so an empty
    or missing field contributes no token and the word count of every
    field is its weight times its token count. *)
Theorem create_feature_string_weighting (p : Profile) :
  create_feature_string (Some p) =
    join " " (list_block 3 (genres p) ++ list_block 3 (director p) ++
              list_block 2 (keywords p) ++ list_block 2 (ml_tags p) ++
              list_block 2 (cast p) ++ text_block (overview p) ++
              list_block 1 (crew p))
  /\ (forall n, list_block n None = [] /\ list_block n (Some []) = [])
  /\ (text_block None = [] /\ text_block (Some "") = [])
  /\ (forall n x l, list_block n (Some (x :: l)) = times n (join " " (x :: l)))
  /\ words (create_feature_string (Some p)) =
       weighted 3 (field_tokens (genres p)) ++
       weighted 3 (field_tokens (director p)) ++
       weighted 2 (field_tokens (keywords p)) ++
       weighted 2 (field_tokens (ml_tags p)) ++
       weighted 2 (field_tokens (cast p)) ++
       weighted 1 (text_tokens (overview p)) ++
       weighted 1 (field_tokens (crew p))
  /\ length (words (create_feature_string (Some p))) =
       (3 * length (field_tokens (genres p)) +
        3 * length (field_tokens (director p)) +
        2 * length (field_tokens (keywords p)) +
        2 * length (field_tokens (ml_tags p)) +
        2 * length (field_tokens (cast p)) +
        1 * length (text_tokens (overview p)) +
        1 * length (field_tokens (crew p)))%nat.
Proof.
  assert (Hw : words (create_feature_string (Some p)) =
       weighted 3 (field_tokens (genres p)) ++
       weighted 3 (field_tokens (director p)) ++
       weighted 2 (field_tokens (keywords p)) ++
       weighted 2 (field_tokens (ml_tags p)) ++
       weighted 2 (field_tokens (cast p)) ++
       weighted 1 (text_tokens (overview p)) ++
       weighted 1 (field_tokens (crew p))).
  { unfold create_feature_string, feature_blocks.
    rewrite words_join, !flat_map_app, !list_block_tokens, text_block_tokens.
    reflexivity. }
  repeat split; try reflexivity.
  - exact Hw.
  - rewrite Hw, !length_app, !weighted_length. lia.
Qed.

End FeatureString.

(** ** Hybrid scoring *)

Section NumFacts.
Import PyNum.

Lemma Qltb_lt (x y : Q) : Qltb x y = true <-> (x < y)%Q.
Proof.
  unfold Qltb. rewrite negb_true_iff. split.
  - intros H. apply Qnot_le_lt. intros Hle. apply Qle_bool_iff in Hle. congruence.
  - intros H. destruct (Qle_bool y x) eqn:E; [|reflexivity].
    apply Qle_bool_iff in E. exfalso. apply (Qlt_not_le _ _ H E).
Qed.

Lemma Qltb_ge (x y : Q) : Qltb x y = false <-> (y <= x)%Q.
Proof.
  unfold Qltb. rewrite negb_false_iff. apply Qle_bool_iff.
Qed.

Lemma Qleb_le (x y : Q) : Qleb x y = true <-> (x <= y)%Q.
Proof. apply Qle_bool_iff. Qed.

Lemma Qleb_gt (x y : Q) : Qleb x y = false <-> (y < x)%Q.
Proof.
  unfold Qleb. split.
  - intros H. apply Qnot_le_lt. intros Hle. apply Qle_bool_iff in Hle. congruence.
  - intros H. destruct (Qle_bool x y) eqn:E; [|reflexivity].
    apply Qle_bool_iff in E. exfalso. apply (Qlt_not_le _ _ H E).
Qed.

Lemma pmin_spec (a b : Q) : (pmin a b == Qmin a b)%Q.
Proof.
  unfold pmin. destruct (Qltb b a) eqn:E.
  - apply Qltb_lt in E. symmetry. apply Q.min_r. now apply Qlt_le_weak.
  - apply Qltb_ge in E. symmetry. now apply Q.min_l.
Qed.

Lemma pmin_le_l (a b : Q) : (pmin a b <= a)%Q.
Proof. rewrite pmin_spec. apply Q.le_min_l. Qed.

Lemma pmin_le_r (a b : Q) : (pmin a b <= b)%Q.
Proof. rewrite pmin_spec. apply Q.le_min_r. Qed.

End NumFacts.

Section ListFacts.
Context {A : Type}.

Lemma In_firstn (n : nat) (l : list A) (x : A) : In x (firstn n l) -> In x l.
Proof.
  intros H. rewrite <- (firstn_skipn n l). apply in_or_app. now left.
Qed.

Lemma lookup_repeat (x : A) (m g : nat) :
  (g < m)%nat -> List.repeat x m !! g = Some x.
Proof.
  revert g. induction m as [|m IH]; intros g Hg; [lia|].
  destruct g as [|g]; simpl; [reflexivity|]. apply IH. lia.
Qed.

Lemma skipn_repeat (x : A) (k m : nat) :
  skipn k (List.repeat x m) = List.repeat x (m - k).
Proof.
  revert k. induction m as [|m IH]; intros k.
  - now destruct k.
  - destruct k as [|k]; [reflexivity|]. simpl. apply IH.
Qed.

Lemma omap_length_le {B} (f : A -> option B) (l : list A) :
  (length (omap f l) <= length l)%nat.
Proof.
  induction l as [|x l IH]; simpl; [lia|].
  destruct (f x); simpl.
  - apply le_n_S. exact IH.
  - apply Nat.le_le_succ_r. exact IH.
Qed.

End ListFacts.

Section Scoring.
Import PyNum Recommender.

Lemma rating_boost_high (rating : Q) :
  (6 <= rating)%Q -> (rating_boost rating == rating / 10 * 0.08)%Q.
Proof.
  intros H. unfold rating_boost. apply Qleb_le in H. rewrite H. reflexivity.
Qed.

Lemma rating_boost_low (rating : Q) :
  (rating < 6)%Q -> (rating_boost rating == 0)%Q.
Proof.
  intros H. unfold rating_boost. apply Qleb_gt in H. rewrite H. reflexivity.
Qed.

Lemma age_penalty_old (year : Z) (rating : Q) :
  (0 < year)%Z -> (year < 1990)%Z -> (rating < 7.5)%Q ->
  (age_penalty year rating == - 0.05)%Q.
Proof.
  intros H1 H2 H3. unfold age_penalty.
  apply Z.ltb_lt in H1, H2. apply Qltb_lt in H3. rewrite H1, H2, H3. reflexivity.
Qed.

Lemma age_penalty_none (year : Z) (rating : Q) :
  ~ ((0 < year)%Z /\ (year < 1990)%Z /\ (rating < 7.5)%Q) ->
  (age_penalty year rating == 0)%Q.
Proof.
  intros H. unfold age_penalty.
  destruct (0 <? year)%Z eqn:E1; [|reflexivity].
  destruct (year <? 1990)%Z eqn:E2; [|reflexivity].
  destruct (Qltb rating 7.5) eqn:E3; [|reflexivity].
  exfalso. apply H. apply Z.ltb_lt in E1, E2. apply Qltb_lt in E3. auto.
Qed.

Lemma cf_boost_member (cf_neighbors : gset Z) (p : Profile) :
  movie_id p ∈ cf_neighbors -> cf_boost cf_neighbors p = 0.05%Q.
Proof.
  intros H. unfold cf_boost.
  rewrite (bool_decide_eq_true_2 _ H).
  rewrite bool_decide_eq_false_2; [reflexivity|].
  intros ->. now apply not_elem_of_empty in H.
Qed.

Lemma cf_boost_not_member (cf_neighbors : gset Z) (p : Profile) :
  movie_id p ∉ cf_neighbors -> cf_boost cf_neighbors p = 0%Q.
Proof.
  intros H. unfold cf_boost.
  rewrite (bool_decide_eq_false_2 _ H). now rewrite andb_false_r.
Qed.

Lemma score_candidate_kept (cf_neighbors : gset Z) (p : Profile) (score rating pop : Q) :
  vote_average p = Some rating -> popularity p = Some pop ->
  (noise_floor <= score)%Q ->
  score_candidate cf_neighbors p score =
    Kept {| profile := p; similarity_score := score;
            final_score := score + rating_boost rating + popularity_boost pop
                           + age_penalty (release_year p) rating
                           + cf_boost cf_neighbors p;
            rerank_score := None |}.
Proof.
  intros Hr Hp Hs. unfold score_candidate.
  apply Qltb_ge in Hs. now rewrite Hs, Hr, Hp.
Qed.

(** C4. For a candidate at or above the noise floor, the rating boost is
    [(vote_average / 10) * 0.08] from a vote average of 6 up and 0
    below; the popularity boost is [min (popularity / 1000) 0.02]; the
    age penalty is [-0.05] exactly when the year is positive, before
    1990 and the vote average is below 7.5, and 0 otherwise; and the
    final score is the raw similarity plus these terms plus the
    collaborative boost. *)
Theorem score_adjustments (cf_neighbors : gset Z) (p : Profile) (score rating pop : Q) :
  vote_average p = Some rating -> popularity p = Some pop ->
  (noise_floor <= score)%Q ->
  exists m,
    score_candidate cf_neighbors p score = Kept m /\
    profile m = p /\ similarity_score m = score /\
    ((6 <= rating)%Q -> (rating_boost rating == rating / 10 * 0.08)%Q) /\
    ((rating < 6)%Q -> (rating_boost rating == 0)%Q) /\
    (popularity_boost pop == Qmin (pop / 1000) 0.02)%Q /\
    ((0 < release_year p)%Z /\ (release_year p < 1990)%Z /\ (rating < 7.5)%Q ->
       (age_penalty (release_year p) rating == - 0.05)%Q) /\
    (~ ((0 < release_year p)%Z /\ (release_year p < 1990)%Z /\ (rating < 7.5)%Q) ->
       (age_penalty (release_year p) rating == 0)%Q) /\
    (final_score m == score + rating_boost rating + popularity_boost pop
                      + age_penalty (release_year p) rating
                      + cf_boost cf_neighbors p)%Q.
Proof.
  intros Hr Hp Hs. eexists. split.
  - apply (score_candidate_kept cf_neighbors p score rating pop); assumption.
  - repeat split; simpl; try reflexivity.
    + apply rating_boost_high.
    + apply rating_boost_low.
    + apply pmin_spec.
    + intros (H1 & H2 & H3). now apply age_penalty_old.
    + apply age_penalty_none.
Qed.

Lemma score_adjustments_witness :
  exists m,
    score_candidate ∅ Fixtures.cand_a 0.5 = Kept m /\
    (final_score m == 0.566)%Q.
Proof.
  destruct (score_adjustments ∅ Fixtures.cand_a 0.5 7 10) as (m & Hk & _ & _ & _ & _ & _ & _ & _ & Hf).
  - reflexivity.
  - reflexivity.
  - unfold noise_floor, Qle. simpl. lia.
  - exists m. split; [exact Hk|]. rewrite Hf. vm_compute. reflexivity.
Defined.

End Scoring.

(** ** Collaborative boost *)

Section Collaborative.
Import PyNum Recommender.

Lemma no_model_without_file (env : Env) :
  ML_AVAILABLE env = false \/ cf_file env = FileAbsent \/ cf_file env = FileUnreadable ->
  cf_model (_try_load_cf env new_engine) = None.
Proof.
  unfold _try_load_cf, new_engine. simpl.
  intros [H | [H | H]].
  - now rewrite H.
  - rewrite H. now destruct (ML_AVAILABLE env).
  - rewrite H. now destruct (ML_AVAILABLE env).
Qed.

Lemma no_model_no_neighbors (env : Env) (self : Engine) (tmdb_id : Z) (top_n : nat) :
  cf_model (_try_load_cf env self) = None ->
  snd (_cf_neighbors_for_tmdb env self tmdb_id top_n) = Some ∅.
Proof. intros H. unfold _cf_neighbors_for_tmdb. now rewrite H. Qed.

Lemma model_neighbors (env : Env) (self : Engine) (tmdb_id : Z) (top_n : nat)
    (model : CFModel) :
  cf_model (_try_load_cf env self) = Some model ->
  snd (_cf_neighbors_for_tmdb env self tmdb_id top_n) =
    (recs ← recommend_similar_by_tmdbId tmdb_id model top_n; Some (list_to_set recs)).
Proof. intros H. unfold _cf_neighbors_for_tmdb. now rewrite H. Qed.

(** C3. With [cf_neighbors] the neighbour set the engine computes for the
    seed (from the loaded model when there is one), a candidate that
    survives the filter gets exactly [+0.05] on top of the other terms
    if and only if its id is in that set; when no model is loaded (the
    optional MovieLens support is unavailable, the model file is absent,
    or loading it failed) the set is empty and the boost is 0. *)
Theorem collaborative_boost (env : Env) (self : Engine) (source_movie_id : Z)
    (cf_neighbors : gset Z) (p : Profile) (score rating pop : Q) :
  snd (_cf_neighbors_for_tmdb env self source_movie_id 50) = Some cf_neighbors ->
  vote_average p = Some rating -> popularity p = Some pop ->
  (noise_floor <= score)%Q ->
  exists m,
    score_candidate cf_neighbors p score = Kept m /\
    (forall model, cf_model (_try_load_cf env self) = Some model ->
       exists recs, recommend_similar_by_tmdbId source_movie_id model 50 = Some recs /\
                    cf_neighbors = list_to_set recs) /\
    ((final_score m == score + rating_boost rating + popularity_boost pop
                       + age_penalty (release_year p) rating + 0.05)%Q
       <-> movie_id p ∈ cf_neighbors) /\
    ((final_score m == score + rating_boost rating + popularity_boost pop
                       + age_penalty (release_year p) rating + 0)%Q
       <-> movie_id p ∉ cf_neighbors) /\
    (cf_model (_try_load_cf env self) = None ->
       cf_neighbors = ∅ /\ cf_boost cf_neighbors p = 0%Q) /\
    (self = new_engine ->
     ML_AVAILABLE env = false \/ cf_file env = FileAbsent \/ cf_file env = FileUnreadable ->
       cf_model (_try_load_cf env self) = None).
Proof.
  intros Hcf Hr Hp Hs. eexists. split.
  { apply (score_candidate_kept cf_neighbors p score rating pop); assumption. }
  cbn [final_score].
  split; [|split; [|split; [|split]]].
  - intros model Hm. rewrite (model_neighbors _ _ _ _ _ Hm) in Hcf.
    destruct (recommend_similar_by_tmdbId source_movie_id model 50) as [recs|]; [|discriminate].
    exists recs. split; [reflexivity|]. simpl in Hcf. congruence.
  - destruct (decide (movie_id p ∈ cf_neighbors)) as [Hin|Hout].
    + rewrite (cf_boost_member _ _ Hin). split; [auto | reflexivity].
    + rewrite (cf_boost_not_member _ _ Hout). split; [|contradiction].
      intros H. exfalso. lra.
  - destruct (decide (movie_id p ∈ cf_neighbors)) as [Hin|Hout].
    + rewrite (cf_boost_member _ _ Hin). split; [|contradiction].
      intros H. exfalso. lra.
    + rewrite (cf_boost_not_member _ _ Hout). split; [auto | reflexivity].
  - intros Hnone. rewrite (no_model_no_neighbors _ _ _ _ Hnone) in Hcf.
    assert (cf_neighbors = ∅) as -> by congruence.
    split; [reflexivity|]. apply cf_boost_not_member. apply not_elem_of_empty.
  - intros -> H. now apply no_model_without_file.
Qed.

Lemma collaborative_boost_witness :
  exists m,
    score_candidate (list_to_set [200%Z]) Fixtures.cand_a 0.5 = Kept m /\
    (final_score m == 0.616)%Q.
Proof.
  destruct (collaborative_boost Fixtures.env_with_model new_engine 100
              (list_to_set [200%Z]) Fixtures.cand_a 0.5 7 10)
    as (m & Hk & _ & Hin & _).
  - vm_compute. reflexivity.
  - reflexivity.
  - reflexivity.
  - unfold noise_floor, Qle. simpl. lia.
  - exists m. split; [exact Hk|].
    assert (H200 : movie_id Fixtures.cand_a ∈ (list_to_set [200%Z] : gset Z)).
    { apply elem_of_list_to_set. simpl. left. }
    apply Hin in H200. rewrite H200. vm_compute. reflexivity.
Defined.

End Collaborative.

(** ** The noise-floor filter *)

Section SortFacts.
Import PyNum.
Context {A : Type} (key : A -> Q).

Lemma insert_desc_perm (x : A) (l : list A) :
  Permutation (insert_desc key x l) (x :: l).
Proof.
  induction l as [|y l IH]; simpl.
  - reflexivity.
  - destruct (Qltb (key x) (key y)).
    + rewrite IH. apply perm_swap.
    + reflexivity.
Qed.

Lemma sort_desc_perm (l : list A) : Permutation (sort_desc key l) l.
Proof.
  induction l as [|x l IH]; simpl.
  - reflexivity.
  - rewrite insert_desc_perm. now constructor.
Qed.

Lemma sort_desc_Forall (P : A -> Prop) (l : list A) :
  Forall P l -> Forall P (sort_desc key l).
Proof. intros H. now rewrite sort_desc_perm. Qed.

Lemma sort_desc_length (l : list A) : length (sort_desc key l) = length l.
Proof. apply Permutation_length, sort_desc_perm. Qed.

End SortFacts.

Section Filter.
Import PyNum Recommender FilterSpec.

Lemma from_candidate_shift (p : Profile) (ps : list Profile) (s : Q) (sims : list Q)
    (m : ScoredMovie) :
  from_candidate ps sims m -> from_candidate (p :: ps) (s :: sims) m.
Proof. intros (i & H1 & H2 & H3). exists (S i). auto. Qed.

Lemma score_loop_from_candidate (cf_neighbors : gset Z) (cands : list Profile) :
  forall (sims : list Q) (scored : list ScoredMovie),
    score_loop cf_neighbors cands sims = Some scored ->
    Forall (from_candidate cands sims) scored.
Proof.
  induction cands as [|p ps IH]; intros sims scored H; simpl in H.
  - injection H as <-. constructor.
  - destruct sims as [|s sims]; [discriminate|].
    destruct (score_candidate cf_neighbors p s) as [| |m] eqn:E; [discriminate| |].
    + eapply Forall_impl; [apply (IH _ _ H)|].
      intros m'. apply from_candidate_shift.
    + destruct (score_loop cf_neighbors ps sims) as [rest|] eqn:E'; [|discriminate].
      simpl in H. injection H as <-. constructor.
      * unfold score_candidate in E.
        destruct (Qltb s noise_floor) eqn:Es; [discriminate|].
        destruct (vote_average p); [|discriminate].
        destruct (popularity p); [|discriminate].
        injection E as <-. exists 0%nat. simpl. repeat split.
        now apply Qltb_ge.
      * eapply Forall_impl; [apply (IH _ _ E')|].
        intros m'. apply from_candidate_shift.
Qed.

Lemma attach_scores_Forall (P : ScoredMovie -> Prop) (subset : list ScoredMovie) :
  (forall m s, P m -> P (set_rerank m s)) ->
  forall scores, Forall P subset -> Forall P (attach_scores subset scores).
Proof.
  intros Hset. induction subset as [|m ms IH]; intros scores H.
  - now destruct scores.
  - destruct scores as [|s ss]; [exact H|]. simpl.
    apply Forall_cons in H as [H1 H2]. constructor; auto.
Qed.

Lemma rerank_Forall (P : ScoredMovie -> Prop) (reranker : option Reranker)
    (top_k : Z) (source_profile : Profile) (scored : list ScoredMovie) :
  (forall m s, P m -> P (set_rerank m s)) ->
  Forall P scored -> Forall P (rerank reranker top_k source_profile scored).
Proof.
  intros Hset H. unfold rerank.
  destruct reranker as [predict|]; [|exact H].
  destruct scored as [|m0 scored0] eqn:Escored; [exact H|]. rewrite <- Escored in *.
  match goal with |- context [predict ?x] => destruct (predict x) as [scores|] end;
    [|exact H].
  apply Forall_app. split.
  - apply sort_desc_Forall, attach_scores_Forall; [exact Hset|].
    now apply Forall_take.
  - now apply Forall_drop.
Qed.

Lemma mmr_select_Forall (P : ScoredMovie -> Prop) (lam : Q)
    (pairwise : option (nat -> nat -> Q)) (id_to_idx : gmap Z nat)
    (scored : list ScoredMovie) (n : nat) :
  Forall P scored -> Forall P (mmr_select lam pairwise id_to_idx scored n).
Proof.
  intros H. unfold mmr_select.
  destruct pairwise as [pw|]; [|now apply Forall_take].
  destruct (mmr_indices lam pw id_to_idx scored n) as [sel|]; [|now apply Forall_take].
  apply Forall_forall. intros m Hm.
  apply list_elem_of_omap in Hm as (i & _ & Hi).
  rewrite Forall_forall in H. apply H. eapply list_elem_of_lookup_2, Hi.
Qed.

Lemma base_ranking_Forall (P : ScoredMovie -> Prop) (scored : list ScoredMovie) :
  Forall P scored -> Forall P (base_ranking scored).
Proof.
  intros H. unfold base_ranking. apply sort_desc_Forall.
  apply List.Forall_forall. intros m Hm. apply List.filter_In in Hm as [Hm _].
  rewrite List.Forall_forall in H. auto.
Qed.

(** Every entry returned by a completed [try] block is a candidate at or
    above the noise floor. *)
Lemma ranked_from_candidates (env : Env)
    (vectorize : string -> list string -> option (list Q))
    (pairwise_of : string -> list string -> option (nat -> nat -> Q))
    (reranker : option Reranker) (top_k : Z)
    (self self' : Engine) (source_movie_id : Z) (source_profile : Profile)
    (cands : list Profile) (n : nat) (recs : list Recommendation) :
  ranked_recommendations env vectorize pairwise_of reranker top_k
    self source_movie_id source_profile cands n = (self', Some recs) ->
  exists sims,
    vectorize (create_feature_string (Some source_profile))
      (List.map (fun p => create_feature_string (Some p)) cands) = Some sims /\
    Forall (fun r => exists i s, cands !! i = Some (rec_profile r) /\
                       rec_id r = movie_id (rec_profile r) /\
                       sims !! i = Some s /\ (noise_floor <= s)%Q) recs.
Proof.
  unfold ranked_recommendations. intros H.
  destruct (vectorize _ _) as [sims|]; [|discriminate].
  exists sims. split; [reflexivity|].
  destruct (_cf_neighbors_for_tmdb env self source_movie_id 50) as [self1 cf].
  injection H as _ H.
  destruct cf as [cf_neighbors|]; [|discriminate]. simpl in H.
  destruct (score_loop cf_neighbors cands sims) as [scored|] eqn:Es; [|discriminate].
  simpl in H. injection H as <-.
  apply score_loop_from_candidate in Es.
  apply Forall_map, Forall_take.
  eapply Forall_impl.
  - apply mmr_select_Forall, rerank_Forall, base_ranking_Forall, Es.
    intros m s Hm. exact Hm.
  - intros m (i & H1 & H2 & H3). exists i, (similarity_score m). simpl. auto.
Qed.

End Filter.

Section NoCandidates.
Import PyNum Recommender.

(** Without candidates the [try] block has nothing to return. *)
Lemma ranked_without_candidates (env : Env)
    (vectorize : string -> list string -> option (list Q))
    (pairwise_of : string -> list string -> option (nat -> nat -> Q))
    (reranker : option Reranker) (top_k : Z)
    (self self' : Engine) (source_movie_id : Z) (source_profile : Profile)
    (n : nat) (recs : list Recommendation) :
  ranked_recommendations env vectorize pairwise_of reranker top_k
    self source_movie_id source_profile [] n = (self', Some recs) ->
  recs = [].
Proof.
  unfold ranked_recommendations. intros H.
  destruct (vectorize _ _) as [sims|]; [|discriminate].
  destruct (_cf_neighbors_for_tmdb env self source_movie_id 50) as [self1 cf].
  injection H as _ H.
  destruct cf as [cf_neighbors|]; [|discriminate]. simpl in H.
  injection H as <-.
  assert (Hr : rerank reranker top_k source_profile (base_ranking []) = []).
  { unfold rerank. now destruct reranker. }
  rewrite Hr. unfold mmr_select, mmr_indices.
  destruct (pairwise_of _ _) as [pw|]; destruct n; reflexivity.
Qed.

End NoCandidates.

Section FilterClaim.
Import PyNum Recommender Fixtures AsSpecified.

Example small_model_neighbors :
  recommend_similar_by_tmdbId 100 small_model 50 = Some [200%Z].
Proof. vm_compute. reflexivity. Qed.

(** Candidate A has raw similarity 0.01.  Scoring candidate B raises
    (its vote average is [null]), the [except] block takes over and
    returns the seed's CF neighbours, among them A. *)
Lemma below_floor_returned_by_fallback : ~ below_floor_never_returned.
Proof.
  intros H.
  apply (H env_with_model lookup_profile sims_low_high pairwise_flat None 40%Z
           new_engine
           {| cf_loaded := true; cf_model := Some small_model |}
           100%Z seed [cand_a; cand_b_null] 12%nat
           [{| rec_id := 200; rec_title := "A"; rec_similarity_score := 0;
               rec_profile := cand_a |}]
           [0.01%Q; 0.5%Q] 0%nat cand_a 0.01%Q).
  - apply (bool_decide_unpack (NoDup _)). vm_compute. reflexivity.
  - vm_compute. reflexivity.
  - reflexivity.
  - reflexivity.
  - reflexivity.
  - reflexivity.
  - simpl. left. reflexivity.
Qed.

End FilterClaim.

Section FilterTheorem.
Import PyNum Recommender Fixtures AsSpecified.

Lemma NoDup_ids_same_index (cands : list Profile) (i j : nat) (p q : Profile) :
  NoDup (List.map movie_id cands) ->
  cands !! i = Some p -> cands !! j = Some q -> movie_id p = movie_id q -> i = j.
Proof.
  intros Hnd Hi Hj Heq.
  eapply NoDup_lookup; [exact Hnd| |].
  - change (List.map movie_id cands) with (movie_id <$> cands).
    rewrite list_lookup_fmap, Hi. reflexivity.
  - change (List.map movie_id cands) with (movie_id <$> cands).
    rewrite list_lookup_fmap, Hj. simpl. now rewrite Heq.
Qed.

(** What the [except] block returns: at most 12 entries, each reported
    with similarity 0 and holding the profile fetched for one of the
    seed's CF neighbours. *)
Lemma cf_fallback_shape (env : Env) (build_movie_profile : Z -> option Profile)
    (self self' : Engine) (source_movie_id : Z) (recs : list Recommendation) :
  cf_fallback env build_movie_profile self source_movie_id = (self', Some recs) ->
  (length recs <= 12)%nat /\
  exists cf_neighbors : gset Z,
    snd (_cf_neighbors_for_tmdb env self source_movie_id 12) = Some cf_neighbors /\
    Forall (fun r => rec_similarity_score r = 0%Q /\
                     exists tmdb_id, tmdb_id ∈ cf_neighbors /\
                       build_movie_profile tmdb_id = Some (rec_profile r)) recs.
Proof.
  unfold cf_fallback.
  destruct (_cf_neighbors_for_tmdb env self source_movie_id 12) as [self1 cf].
  intros H. injection H as _ H.
  destruct cf as [cf_neighbors|]; [|discriminate].
  simpl in H. injection H as <-. split.
  - etransitivity; [apply omap_length_le|]. apply firstn_le_length.
  - exists cf_neighbors. split; [reflexivity|].
    apply Forall_forall. intros r Hr.
    apply list_elem_of_omap in Hr as (tmdb_id & Hin & Hr).
    destruct (build_movie_profile tmdb_id) as [prof|] eqn:E; [|discriminate].
    simpl in Hr. injection Hr as <-. simpl. split; [reflexivity|].
    exists tmdb_id. split; [|exact E].
    apply list_elem_of_In, In_firstn, list_elem_of_In, elem_of_elements in Hin.
    exact Hin.
Qed.

(** C2 (amended). When the similarity computation and the scoring pass
    complete without raising, the call returns the ranked list, and no
    candidate whose raw similarity is below 0.03 is in it, whatever its
    rating, popularity, age or collaborative terms.  When they raise
    and there are candidates, the call instead returns the CF fallback
    of the [except] block, which does not look at similarities. *)
Theorem noise_floor_filter (env : Env) (build_movie_profile : Z -> option Profile)
    (vectorize : string -> list string -> option (list Q))
    (pairwise_of : string -> list string -> option (nat -> nat -> Q))
    (reranker : option Reranker) (top_k : Z)
    (self : Engine) (source_movie_id : Z) (source_profile : Profile)
    (cands : list Profile) (n : nat) :
  NoDup (List.map movie_id cands) ->
  (forall self' recs,
     ranked_recommendations env vectorize pairwise_of reranker top_k
       self source_movie_id source_profile cands n = (self', Some recs) ->
     snd (get_intelligent_recommendations env build_movie_profile vectorize
            pairwise_of reranker top_k self source_movie_id source_profile cands n)
       = Some recs /\
     forall sims i p s,
       vectorize (create_feature_string (Some source_profile))
         (List.map (fun p => create_feature_string (Some p)) cands) = Some sims ->
       cands !! i = Some p -> sims !! i = Some s -> (s < noise_floor)%Q ->
       ~ In (movie_id p) (List.map rec_id recs)) /\
  (forall self',
     ranked_recommendations env vectorize pairwise_of reranker top_k
       self source_movie_id source_profile cands n = (self', None) ->
     cands <> [] ->
     get_intelligent_recommendations env build_movie_profile vectorize
       pairwise_of reranker top_k self source_movie_id source_profile cands n
       = cf_fallback env build_movie_profile self' source_movie_id /\
     forall recs,
       snd (cf_fallback env build_movie_profile self' source_movie_id) = Some recs ->
       (length recs <= 12)%nat /\
       Forall (fun r => rec_similarity_score r = 0%Q) recs).
Proof.
  intros Hnd. split.
  - intros self' recs Hr. split.
    + unfold get_intelligent_recommendations.
      destruct cands; [|now rewrite Hr].
      apply ranked_without_candidates in Hr. now subst recs.
    + intros sims i p s Hv Hi Hs Hlt Hin.
      apply ranked_from_candidates in Hr as (sims' & Hv' & Hall).
      rewrite Hv in Hv'. injection Hv' as <-.
      apply List.in_map_iff in Hin as (r & Hid & Hr).
      rewrite List.Forall_forall in Hall.
      destruct (Hall r Hr) as (j & s' & Hj & Hrid & Hsj & Hfloor).
      assert (i = j) as <-.
      { eapply NoDup_ids_same_index; eauto. congruence. }
      rewrite Hs in Hsj. injection Hsj as <-.
      apply (Qlt_not_le _ _ Hlt Hfloor).
  - intros self' Hr Hne. split.
    + unfold get_intelligent_recommendations.
      destruct cands; [contradiction|]. now rewrite Hr.
    + intros recs Hf.
      destruct (cf_fallback env build_movie_profile self' source_movie_id)
        as [self2 res] eqn:E.
      simpl in Hf. subst res.
      destruct (cf_fallback_shape _ _ _ _ _ _ E) as (Hlen & cf_neighbors & _ & Hall).
      split; [exact Hlen|].
      eapply Forall_impl; [exact Hall|]. simpl. tauto.
Qed.

Lemma noise_floor_filter_witness :
  NoDup (List.map movie_id [cand_a; cand_b]) /\
  ~ In (movie_id cand_a)
      (List.map rec_id
         (default [] (snd (ranked_recommendations env_with_model sims_low_high
                             pairwise_flat None 40 new_engine 100 seed
                             [cand_a; cand_b] 12)))).
Proof.
  assert (Hnd : NoDup (List.map movie_id [cand_a; cand_b])).
  { apply (bool_decide_unpack (NoDup _)). vm_compute. reflexivity. }
  split; [exact Hnd|].
  set (r := ranked_recommendations env_with_model sims_low_high pairwise_flat None 40
              new_engine 100 seed [cand_a; cand_b] 12).
  assert (E : r = (fst r, Some (default [] (snd r)))) by (vm_compute; reflexivity).
  apply (proj2 (proj1 (noise_floor_filter env_with_model lookup_profile sims_low_high
                         pairwise_flat None 40 new_engine 100 seed [cand_a; cand_b] 12
                         Hnd) (fst r) (default [] (snd r)) E)
           [0.01%Q; 0.5%Q] 0%nat cand_a 0.01%Q); reflexivity.
Defined.

Example ranked_example :
  List.map rec_id
    (default [] (snd (ranked_recommendations env_with_model sims_low_high
                        pairwise_flat None 40 new_engine 100 seed
                        [cand_a; cand_b] 12))) = [300%Z].
Proof. vm_compute. reflexivity. Qed.

End FilterTheorem.

(** ** Diversification *)

Section PickBest.
Import PyNum Recommender.

Lemma Qltb_proper (x x' y y' : Q) :
  (x == x')%Q -> (y == y')%Q -> Qltb x y = Qltb x' y'.
Proof.
  intros Hx Hy.
  destruct (Qltb x y) eqn:E1; destruct (Qltb x' y') eqn:E2; try reflexivity.
  - apply Qltb_lt in E1. apply Qltb_ge in E2. rewrite Hx, Hy in E1.
    exfalso. apply (Qlt_not_le _ _ E1 E2).
  - apply Qltb_ge in E1. apply Qltb_lt in E2. rewrite Hx, Hy in E1.
    exfalso. apply (Qlt_not_le _ _ E2 E1).
Qed.

Variable value : nat -> Q.

(** What the inner loop leaves in [(best_i, best_mmr)]: either nothing
    beat the starting value, or the first position holding the maximum. *)
Lemma best_fold_spec (available : list nat) :
  forall (best : option nat) (v : Q),
    let r := fold_left (best_step value) available (best, v) in
    (fst r = best /\ snd r = v /\ forall j, In j available -> (value j <= v)%Q)
    \/ (exists before i after,
          available = before ++ i :: after /\
          fst r = Some i /\ snd r = value i /\ (v < value i)%Q /\
          (forall j, In j before -> (value j < value i)%Q) /\
          (forall j, In j after -> (value j <= value i)%Q)).
Proof.
  induction available as [|a rest IH]; intros best v; simpl.
  - left. split; [reflexivity|]. split; [reflexivity|]. intros j [].
  - change (best_step value (best, v) a)
      with (if Qltb v (value a) then (Some a, value a) else (best, v)).
    destruct (Qltb v (value a)) eqn:E.
    + apply Qltb_lt in E. right.
      destruct (IH (Some a) (value a))
        as [(H1 & H2 & H3) | (before & i & after & H1 & H2 & H3 & H4 & H5 & H6)].
      * exists [], a, rest. simpl.
        split; [reflexivity|]. split; [exact H1|]. split; [exact H2|].
        split; [exact E|]. split; [intros j []|exact H3].
      * exists (a :: before), i, after. subst rest. simpl.
        split; [reflexivity|]. split; [exact H2|]. split; [exact H3|].
        split; [lra|]. split; [|exact H6].
        intros j [<- | Hj]; auto.
    + apply Qltb_ge in E.
      destruct (IH best v)
        as [(H1 & H2 & H3) | (before & i & after & H1 & H2 & H3 & H4 & H5 & H6)].
      * left. split; [exact H1|]. split; [exact H2|].
        intros j [<- | Hj]; auto.
      * right. exists (a :: before), i, after. subst rest. simpl.
        split; [reflexivity|]. split; [exact H2|]. split; [exact H3|].
        split; [exact H4|]. split; [|exact H6].
        intros j [<- | Hj]; auto. lra.
Qed.

Lemma best_fold_ext (value' : nat -> Q) (available : list nat) :
  (forall i, (value i == value' i)%Q) ->
  forall (best : option nat) (v v' : Q), (v == v')%Q ->
    fst (fold_left (best_step value) available (best, v)) =
    fst (fold_left (best_step value') available (best, v')).
Proof.
  intros Hext. induction available as [|a rest IH]; intros best v v' Hv; simpl.
  - reflexivity.
  - change (best_step value (best, v) a)
      with (if Qltb v (value a) then (Some a, value a) else (best, v)).
    change (best_step value' (best, v') a)
      with (if Qltb v' (value' a) then (Some a, value' a) else (best, v')).
    rewrite (Qltb_proper v v' (value a) (value' a) Hv (Hext a)).
    destruct (Qltb v' (value' a)); apply IH; auto.
Qed.

End PickBest.

Section Selection.
Import PyNum Recommender.
Variable key : nat -> Q.

Lemma insert_desc_head (x : nat) (l : list nat) :
  (forall j, In j l -> (key j <= key x)%Q) -> insert_desc key x l = x :: l.
Proof.
  intros H. destruct l as [|y l]; simpl; [reflexivity|].
  assert (E : Qltb (key x) (key y) = false) by (apply Qltb_ge, H; now left).
  now rewrite E.
Qed.

(** Selection and insertion agree: the first maximum heads the stable
    descending sort, and the rest is the sort of what is left. *)
Lemma sort_desc_select (before after : list nat) (i : nat) :
  (forall j, In j before -> (key j < key i)%Q) ->
  (forall j, In j after -> (key j <= key i)%Q) ->
  sort_desc key (before ++ i :: after) = i :: sort_desc key (before ++ after).
Proof.
  intros Hb Ha. induction before as [|a bs IH]; simpl.
  - apply insert_desc_head. intros j Hj. apply Ha.
    apply (Permutation_in _ (sort_desc_perm key after) Hj).
  - rewrite IH by (intros j Hj; apply Hb; now right).
    simpl. assert (E : Qltb (key a) (key i) = true) by (apply Qltb_lt, Hb; now left).
    now rewrite E.
Qed.

Lemma remove_first_split (before after : list nat) (i : nat) :
  ~ In i before -> remove_first i (before ++ i :: after) = before ++ after.
Proof.
  intros H. induction before as [|a bs IH]; simpl.
  - now rewrite Nat.eqb_refl.
  - destruct (Nat.eqb i a) eqn:E.
    + apply Nat.eqb_eq in E. exfalso. apply H. now left.
    + f_equal. apply IH. intros Hin. apply H. now right.
Qed.

Lemma pick_best_sorted (available : list nat) :
  available <> [] ->
  (forall j, In j available -> (mmr_floor < key j)%Q) ->
  exists b,
    fst (pick_best key available) = Some b /\
    sort_desc key available = b :: sort_desc key (remove_first b available) /\
    (forall j, In j (remove_first b available) -> In j available).
Proof.
  intros Hne Hfloor. unfold pick_best.
  destruct (best_fold_spec key available None mmr_floor)
    as [(_ & _ & H3) | (before & i & after & H1 & H2 & _ & _ & H5 & H6)].
  - destruct available as [|a rest]; [contradiction|].
    exfalso. specialize (H3 a (or_introl eq_refl)).
    specialize (Hfloor a (or_introl eq_refl)). lra.
  - exists i. split; [exact H2|].
    assert (Hni : ~ In i before).
    { intros Hin. specialize (H5 i Hin). lra. }
    rewrite H1, (remove_first_split _ _ _ Hni). split.
    + now apply sort_desc_select.
    + intros j Hj. apply in_app_iff in Hj as [Hj | Hj]; apply in_app_iff; auto.
      right. now right.
Qed.

End Selection.

Section RelevanceOnly.
Import PyNum Recommender.
Variable pairwise : nat -> nat -> Q.
Variable id_to_idx : gmap Z nat.
Variable scored_movies : list ScoredMovie.

Local Abbreviation rel := (rel_at scored_movies).

Lemma mmr_value_one (selected : list nat) (si : nat) :
  (mmr_value 1 pairwise id_to_idx scored_movies selected si == rel si)%Q.
Proof. unfold mmr_value. ring. Qed.

Lemma mmr_loop_one (n : nat) :
  forall selected available,
    (forall j, In j available -> (mmr_floor < rel j)%Q) ->
    mmr_loop 1 pairwise id_to_idx scored_movies n selected available =
      Some (selected ++ firstn n (sort_desc rel available)).
Proof.
  induction n as [|n IH]; intros selected available Hfloor; simpl.
  - now rewrite app_nil_r.
  - destruct available as [|a rest] eqn:Ea.
    + simpl. now rewrite app_nil_r.
    + rewrite <- Ea in *.
      assert (Hne : available <> []) by (rewrite Ea; discriminate).
      destruct (pick_best_sorted rel available Hne Hfloor) as (b & Hb & Hs & Hsub).
      unfold pick_best in *.
      rewrite (best_fold_ext _ rel available (mmr_value_one selected) None
                 mmr_floor mmr_floor (Qeq_refl _)).
      rewrite Hb, IH by (intros j Hj; apply Hfloor, Hsub, Hj).
      rewrite Hs. simpl. now rewrite <- app_assoc.
Qed.

Lemma omap_lookup_seq (l pre : list ScoredMovie) :
  omap (fun i => (pre ++ l) !! i) (seq (length pre) (length l)) = l.
Proof.
  revert pre. induction l as [|x l IH]; intros pre; simpl.
  - reflexivity.
  - rewrite lookup_app_r by lia. rewrite Nat.sub_diag. simpl. f_equal.
    specialize (IH (pre ++ [x])).
    rewrite length_app in IH. simpl in IH. rewrite Nat.add_1_r in IH.
    rewrite <- app_assoc in IH. exact IH.
Qed.

Lemma omap_insert_desc (x : nat) (m : ScoredMovie) (l : list nat) :
  scored_movies !! x = Some m ->
  Forall (fun i => is_Some (scored_movies !! i)) l ->
  omap (fun i => scored_movies !! i) (insert_desc rel x l) =
  insert_desc final_score m (omap (fun i => scored_movies !! i) l).
Proof.
  intros Hx Hall. induction l as [|y l IH]; simpl.
  - now rewrite Hx.
  - apply Forall_cons in Hall as [[my Ey] Hall].
    rewrite Ey. simpl. unfold rel_at at 1 2. rewrite Hx, Ey.
    destruct (Qltb (final_score m) (final_score my)); simpl.
    + rewrite Ey. f_equal. now apply IH.
    + now rewrite Hx, Ey.
Qed.

Lemma omap_sort_desc (l : list nat) :
  Forall (fun i => is_Some (scored_movies !! i)) l ->
  omap (fun i => scored_movies !! i) (sort_desc rel l) =
  sort_desc final_score (omap (fun i => scored_movies !! i) l).
Proof.
  induction l as [|x l IH]; intros Hall; [reflexivity|].
  apply Forall_cons in Hall as [[m Hx] Hall].
  change (sort_desc rel (x :: l)) with (insert_desc rel x (sort_desc rel l)).
  rewrite (omap_insert_desc x m) by (auto using sort_desc_Forall).
  rewrite IH by assumption. simpl. now rewrite Hx.
Qed.

Lemma omap_take_valid (n : nat) (l : list nat) :
  Forall (fun i => is_Some (scored_movies !! i)) l ->
  omap (fun i => scored_movies !! i) (firstn n l) =
  firstn n (omap (fun i => scored_movies !! i) l).
Proof.
  revert n. induction l as [|x l IH]; intros n Hall.
  - now destruct n.
  - apply Forall_cons in Hall as [[m Hx] Hall].
    destruct n as [|n]; [reflexivity|]. simpl. rewrite Hx. simpl.
    f_equal. now apply IH.
Qed.

Lemma seq_valid :
  Forall (fun i => is_Some (scored_movies !! i)) (seq 0 (length scored_movies)).
Proof.
  apply List.Forall_forall. intros i Hi. apply in_seq in Hi.
  apply lookup_lt_is_Some. lia.
Qed.

Lemma mmr_select_one (n : nat) :
  Forall (fun m => (mmr_floor < final_score m)%Q) scored_movies ->
  mmr_select 1 (Some pairwise) id_to_idx scored_movies n =
    firstn n (sort_desc final_score scored_movies).
Proof.
  intros Hfloor. unfold mmr_select, mmr_indices.
  rewrite mmr_loop_one.
  - simpl. rewrite omap_take_valid by (apply sort_desc_Forall, seq_valid).
    rewrite omap_sort_desc by apply seq_valid.
    f_equal. f_equal. exact (omap_lookup_seq scored_movies []).
  - intros j Hj. apply in_seq in Hj. unfold rel_at.
    destruct (scored_movies !! j) as [m|] eqn:E.
    + rewrite Forall_forall in Hfloor. apply Hfloor.
      eapply list_elem_of_lookup_2, E.
    + apply lookup_ge_None in E. lia.
Qed.

End RelevanceOnly.

Section MMRClaim.
Import PyNum Recommender.

(** C5. With [lambda = 1] the greedy selection returns the first [n]
    entries of the list sorted by final score, largest first (equal
    scores in list order); and with any [lambda], whenever the inner
    loop picks a candidate, it is the first one in iteration order that
    attains the largest MMR value: everything before it is strictly
    smaller, everything after it is no larger. *)
Theorem mmr_relevance_only_and_tie_break
    (pairwise : nat -> nat -> Q) (id_to_idx : gmap Z nat)
    (scored_movies : list ScoredMovie) (n : nat) :
  Forall (fun m => (mmr_floor < final_score m)%Q) scored_movies ->
  mmr_select 1 (Some pairwise) id_to_idx scored_movies n =
    firstn n (sort_desc final_score scored_movies)
  /\ forall (lam : Q) (selected available : list nat) (best_i : nat),
       let value := mmr_value lam pairwise id_to_idx scored_movies selected in
       fst (pick_best value available) = Some best_i ->
       exists before after,
         available = before ++ best_i :: after /\
         (forall j, In j before -> (value j < value best_i)%Q) /\
         (forall j, In j after -> (value j <= value best_i)%Q).
Proof.
  intros Hfloor. split.
  - now apply mmr_select_one.
  - intros lam selected available best_i value Hpick. unfold pick_best in Hpick.
    destruct (best_fold_spec value available None mmr_floor)
      as [(H1 & _) | (before & i & after & H1 & H2 & _ & _ & H5 & H6)].
    + rewrite Hpick in H1. discriminate.
    + rewrite Hpick in H2. injection H2 as <-.
      exists before, after. auto.
Qed.

End MMRClaim.

Section MMRExamples.
Import PyNum Recommender Fixtures.

(** Scores produced by the scoring pass lie far above the sentinel the
    inner loop starts from, as long as the popularity is not negative. *)
Lemma scored_above_floor (cf_neighbors : gset Z) (p : Profile) (score pop : Q)
    (m : ScoredMovie) :
  score_candidate cf_neighbors p score = Kept m ->
  popularity p = Some pop -> (0 <= pop)%Q ->
  (mmr_floor < final_score m)%Q.
Proof.
  unfold score_candidate. intros H Hp Hpop.
  destruct (Qltb score noise_floor) eqn:Es; [discriminate|].
  destruct (vote_average p) as [rating|]; [|discriminate].
  rewrite Hp in H. injection H as <-. simpl.
  apply Qltb_ge in Es. unfold noise_floor in Es.
  assert (H1 : (0 <= rating_boost rating)%Q).
  { unfold rating_boost. destruct (Qleb 6 rating) eqn:E; [|lra].
    apply Qleb_le in E. unfold Qdiv. change (/ 10)%Q with (1 # 10)%Q. lra. }
  assert (H2 : (0 <= popularity_boost pop)%Q).
  { unfold popularity_boost, pmin, Qdiv. change (/ 1000)%Q with (1 # 1000)%Q.
    destruct (Qltb _ _); lra. }
  assert (H3 : (- 0.05 <= age_penalty (release_year p) rating)%Q).
  { unfold age_penalty. destruct (_ && _); lra. }
  assert (H4 : (0 <= cf_boost cf_neighbors p)%Q).
  { unfold cf_boost. destruct (_ && _); lra. }
  unfold mmr_floor. lra.
Qed.

Lemma mmr_relevance_only_and_tie_break_witness :
  mmr_select 1 (Some (fun _ _ => 0.4%Q)) ∅ three_scored 2
    = [scored_b; scored_c].
Proof.
  assert (H : Forall (fun m => (mmr_floor < final_score m)%Q) three_scored).
  { repeat constructor. }
  rewrite (proj1 (mmr_relevance_only_and_tie_break (fun _ _ => 0.4%Q) ∅
                    three_scored 2 H)).
  reflexivity.
Defined.

(** With the trade-off of the source, 0.7, and B and C near-duplicates of
    each other, the second pick is A instead of C. *)
Example mmr_diversifies :
  mmr_select lambda_rel
    (Some (fun i j => if (Nat.eqb i 0 || Nat.eqb j 0) then 0.1%Q else 0.95%Q))
    (make_id_to_idx (List.map profile three_scored)) three_scored 2
    = [scored_b; scored_a].
Proof. vm_compute. reflexivity. Qed.

End MMRExamples.

(** ** Personalization boost *)

Section Personalization.
Import PyNum Recommender UserPreference PrefSpec.
Local Open Scope Q_scope.

Lemma pmin_mono (a a' c : Q) : a <= a' -> pmin a c <= pmin a' c.
Proof.
  intros H. unfold pmin.
  destruct (Qltb c a) eqn:E1; destruct (Qltb c a') eqn:E2;
    try apply Qltb_lt in E1; try apply Qltb_ge in E1;
    try apply Qltb_lt in E2; try apply Qltb_ge in E2; lra.
Qed.

Lemma pmin_clip (a c : Q) : c <= a -> pmin a c == c.
Proof.
  intros H. unfold pmin. destruct (Qltb c a) eqn:E; [reflexivity|].
  apply Qltb_ge in E. lra.
Qed.

Lemma pmin_below (a c : Q) : a <= c -> pmin a c == a.
Proof.
  intros H. unfold pmin. destruct (Qltb c a) eqn:E; [|reflexivity].
  apply Qltb_lt in E. lra.
Qed.

Lemma overlap_fold_mono (acc acc' : gmap string Q) (w : Q) (names : list string) :
  (forall k, acc_value acc k <= acc_value acc' k) -> 0 <= w ->
  forall s s', s <= s' ->
    fold_left (fun s k => match acc !! k with
                          | Some v => s + v * w
                          | None => s
                          end) names s
    <= fold_left (fun s k => match acc' !! k with
                             | Some v => s + v * w
                             | None => s
                             end) names s'.
Proof.
  intros Hle Hw. induction names as [|k names IH]; intros s s' Hs; simpl.
  - exact Hs.
  - apply IH. specialize (Hle k). unfold acc_value in Hle.
    destruct (acc !! k) as [v|], (acc' !! k) as [v'|]; simpl in Hle; nra.
Qed.

Lemma overlap_mono (acc acc' : gmap string Q) (w : Q) (names : list string) :
  (forall k, acc_value acc k <= acc_value acc' k) -> 0 <= w ->
  overlap acc w names <= overlap acc' w names.
Proof.
  intros Hle Hw. unfold overlap. apply overlap_fold_mono; auto. lra.
Qed.

(** The boost never decreases when every accumulator value grows or stays. *)
Lemma personalization_score_mono (prefs prefs' : Preferences) (p : option Profile) :
  prefs_le prefs prefs' ->
  _calculate_personalization_score prefs p <= _calculate_personalization_score prefs' p.
Proof.
  intros Hle. unfold _calculate_personalization_score.
  apply pmin_mono.
  assert (Hg : pmin (genre_score prefs p) 0.15 <= pmin (genre_score prefs' p) 0.15).
  { apply pmin_mono, overlap_mono; [apply (Hle Genres) | lra]. }
  assert (Hd : pmin (director_score prefs p) 0.10 <= pmin (director_score prefs' p) 0.10).
  { apply pmin_mono, overlap_mono; [apply (Hle Directors) | lra]. }
  assert (Ha : pmin (actor_score prefs p) 0.05 <= pmin (actor_score prefs' p) 0.05).
  { apply pmin_mono, overlap_mono; [apply (Hle Actors) | lra]. }
  lra.
Qed.

Lemma get_set_acc (which which' : Accumulator) (acc : gmap string Q) (prefs : Preferences) :
  get_acc which' (set_acc which acc prefs) =
    if bool_decide (which = which') then acc else get_acc which' prefs.
Proof. destruct which, which'; reflexivity. Qed.

Lemma raise_one_value (which : Accumulator) (k : string) (v v' : Q) (prefs : Preferences) :
  get_acc which prefs !! k = Some v -> v <= v' ->
  prefs_le prefs (set_acc which (<[k := v']> (get_acc which prefs)) prefs).
Proof.
  intros Hk Hv which' k'. rewrite get_set_acc.
  destruct (bool_decide (which = which')) eqn:E.
  - apply bool_decide_eq_true in E. subst which'. unfold acc_value.
    destruct (decide (k = k')) as [<-|Hne].
    + rewrite lookup_insert_eq, Hk. simpl. exact Hv.
    + rewrite lookup_insert_ne by exact Hne. lra.
  - lra.
Qed.

(** C6. Raising the value of any single entry of any of the four
    accumulators never lowers the personalization boost; the boost is
    the sum of the genre, director and actor terms, each the overlap sum
    clipped from above at 0.15, 0.10 and 0.05 (and equal to the cap as
    soon as the sum reaches it), the total clipped at 0.30. *)
Theorem personalization_boost_monotone_capped
    (prefs : Preferences) (p : option Profile)
    (which : Accumulator) (k : string) (v v' : Q) :
  get_acc which prefs !! k = Some v -> v <= v' ->
  let prefs' := set_acc which (<[k := v']> (get_acc which prefs)) prefs in
  let g := genre_score prefs p in
  let d := director_score prefs p in
  let a := actor_score prefs p in
  _calculate_personalization_score prefs p
    <= _calculate_personalization_score prefs' p
  /\ _calculate_personalization_score prefs p
       == pmin (pmin g 0.15 + pmin d 0.10 + pmin a 0.05) 0.30
  /\ pmin g 0.15 <= 0.15 /\ (0.15 <= g -> pmin g 0.15 == 0.15)
  /\ (g <= 0.15 -> pmin g 0.15 == g)
  /\ pmin d 0.10 <= 0.10 /\ (0.10 <= d -> pmin d 0.10 == 0.10)
  /\ (d <= 0.10 -> pmin d 0.10 == d)
  /\ pmin a 0.05 <= 0.05 /\ (0.05 <= a -> pmin a 0.05 == 0.05)
  /\ (a <= 0.05 -> pmin a 0.05 == a)
  /\ _calculate_personalization_score prefs p <= 0.30
  /\ (0.15 <= g -> 0.10 <= d -> 0.05 <= a ->
        _calculate_personalization_score prefs p == 0.30).
Proof.
  intros Hk Hv prefs' g d a.
  assert (Hsum : _calculate_personalization_score prefs p
                   == pmin (pmin g 0.15 + pmin d 0.10 + pmin a 0.05) 0.30).
  { unfold _calculate_personalization_score. fold g d a.
    unfold pmin at 1 5.
    rewrite (Qltb_proper 0.30 0.30
               (0 + pmin g 0.15 + pmin d 0.10 + pmin a 0.05)
               (pmin g 0.15 + pmin d 0.10 + pmin a 0.05)) by (reflexivity || ring).
    destruct (Qltb _ _); [reflexivity | ring]. }
  split; [|split; [exact Hsum|]].
  - apply personalization_score_mono. now apply (raise_one_value which k v v').
  - repeat split.
    + apply pmin_le_r.
    + apply pmin_clip.
    + apply pmin_below.
    + apply pmin_le_r.
    + apply pmin_clip.
    + apply pmin_below.
    + apply pmin_le_r.
    + apply pmin_clip.
    + apply pmin_below.
    + rewrite Hsum. apply pmin_le_r.
    + intros Hg Hd Ha. rewrite Hsum.
      apply pmin_clip.
      pose proof (pmin_clip g 0.15 Hg). pose proof (pmin_clip d 0.10 Hd).
      pose proof (pmin_clip a 0.05 Ha). lra.
Qed.

Lemma personalization_boost_monotone_capped_witness :
  _calculate_personalization_score
    (preferences Fixtures.drama_fan) (Some Fixtures.cand_a)
  <= _calculate_personalization_score
       (set_acc Genres
          (<["Drama" := 6]> (get_acc Genres (preferences Fixtures.drama_fan)))
          (preferences Fixtures.drama_fan))
       (Some Fixtures.cand_a).
Proof.
  apply (personalization_boost_monotone_capped
           (preferences Fixtures.drama_fan) (Some Fixtures.cand_a)
           Genres "Drama" 2 6).
  - reflexivity.
  - unfold Qle. simpl. lia.
Defined.

Example personalization_values :
  _calculate_personalization_score
    (preferences Fixtures.drama_fan) (Some Fixtures.cand_a) == 0.06
  /\ _calculate_personalization_score
       (set_acc Genres
          (<["Drama" := 6]> (get_acc Genres (preferences Fixtures.drama_fan)))
          (preferences Fixtures.drama_fan))
       (Some Fixtures.cand_a) == 0.15.
Proof. split; vm_compute; reflexivity. Qed.

End Personalization.

(** ** Disliked titles *)

Section Disliked.
Import PyNum Recommender UserPreference PrefSpec AsSpecified.
Local Open Scope Q_scope.

Example disliked_still_listed :
  List.map (fun r => (r_id r, r_final_score r))
    (get_personalized_recommendations Fixtures.drama_fan Fixtures.engine_returns_42 12)
  = [(42%Z, Some (50 + 0.06 - 0.5))].
Proof. vm_compute. reflexivity. Qed.

(** The only base recommendation is the disliked title 42: it comes
    back, 0.5 lower. *)
Lemma disliked_title_surfaces : ~ disliked_never_surfaces.
Proof.
  intros H.
  apply (H Fixtures.drama_fan Fixtures.engine_returns_42 12%nat).
  - apply (bool_decide_unpack (_ ∈ _)). vm_compute. reflexivity.
  - vm_compute. left. reflexivity.
Qed.

Lemma adjusted_score_disliked (profile : UserProfile) (r : Rec) (p : Profile) :
  r_profile r = Some p -> movie_id p ∈ disliked profile ->
  adjusted_score profile r
    = base_score r + _calculate_personalization_score (preferences profile) (Some p) - 0.5.
Proof.
  intros Hp Hd. unfold adjusted_score, is_disliked. rewrite Hp.
  now rewrite (bool_decide_eq_true_2 _ Hd).
Qed.

Lemma adjusted_score_not_disliked (profile : UserProfile) (r : Rec) (p : Profile) :
  r_profile r = Some p -> movie_id p ∉ disliked profile ->
  adjusted_score profile r
    = base_score r + _calculate_personalization_score (preferences profile) (Some p).
Proof.
  intros Hp Hd. unfold adjusted_score, is_disliked. rewrite Hp.
  now rewrite (bool_decide_eq_false_2 _ Hd).
Qed.

Lemma personalize_one_unrated (profile : UserProfile) (r r' : Rec) :
  personalize_one profile r = Some r' ->
  ratings profile !! id_key (r_profile r) = None /\
  r_id r' = r_id r /\ r_profile r' = r_profile r /\
  r_final_score r' = Some (adjusted_score profile r).
Proof.
  unfold personalize_one, is_rated. intros H.
  destruct (bool_decide (is_Some (ratings profile !! id_key (r_profile r)))) eqn:E;
    [discriminate|].
  injection H as <-. apply bool_decide_eq_false in E.
  split; [|auto]. now apply eq_None_not_Some.
Qed.

Lemma in_personalized_recs (profile : UserProfile) (base_recs : list Rec) (r' : Rec) :
  In r' (personalized_recs profile base_recs) <->
  exists r, In r base_recs /\ personalize_one profile r = Some r'.
Proof.
  unfold personalized_recs.
  split.
  - intros H. apply (Permutation_in _ (sort_desc_perm _ _)) in H.
    apply list_elem_of_In, list_elem_of_omap in H as (r & Hr & Hp).
    exists r. split; [now apply list_elem_of_In | exact Hp].
  - intros (r & Hr & Hp).
    apply (Permutation_in _ (Permutation_sym (sort_desc_perm _ _))).
    apply list_elem_of_In, list_elem_of_omap. exists r.
    split; [now apply list_elem_of_In | exact Hp].
Qed.

(** C7 (amended). A disliked title is not removed.  If it is among the
    base recommendations and the user has not rated it, it is in the
    re-ranked list with its adjusted score lowered by exactly 0.5, and
    it is returned whenever that list is no longer than the number of
    recommendations asked for.  Only titles the user has rated are
    dropped from the output. *)
Theorem disliked_penalised_not_dropped (profile : UserProfile)
    (base_engine : nat -> list Rec) (n : nat) (r : Rec) (p : Profile) :
  In r (base_engine (n * 2)%nat) ->
  r_profile r = Some p ->
  movie_id p ∈ disliked profile ->
  ratings profile !! pretty (movie_id p) = None ->
  (exists r',
     In r' (personalized_recs profile (base_engine (n * 2)%nat)) /\
     r_id r' = r_id r /\ r_profile r' = Some p /\
     r_final_score r'
       = Some (base_score r
               + _calculate_personalization_score (preferences profile) (Some p)
               - 0.5) /\
     ((length (personalized_recs profile (base_engine (n * 2)%nat)) <= n)%nat ->
        In r' (get_personalized_recommendations profile base_engine n)))
  /\ (forall out, In out (get_personalized_recommendations profile base_engine n) ->
        ratings profile !! id_key (r_profile out) = None).
Proof.
  intros Hin Hp Hd Hr. split.
  - assert (Hone : personalize_one profile r
                   = Some {| r_id := r_id r; r_title := r_title r;
                             r_similarity_score := r_similarity_score r;
                             r_final_score := Some (adjusted_score profile r);
                             r_profile := r_profile r;
                             r_personalization_score :=
                               Some (round (_calculate_personalization_score
                                              (preferences profile) (r_profile r) * 100) 1) |}).
    { unfold personalize_one, is_rated. rewrite Hp. simpl. rewrite Hr.
      rewrite bool_decide_eq_false_2; [reflexivity|].
      intros [x Hx]. discriminate. }
    eexists. split; [|split; [|split; [|split]]].
    + apply in_personalized_recs. exists r. split; [exact Hin | exact Hone].
    + reflexivity.
    + exact Hp.
    + simpl. f_equal. now apply adjusted_score_disliked.
    + intros Hlen. unfold get_personalized_recommendations.
      destruct (base_engine (n * 2)%nat) as [|r0 rest] eqn:E; [destruct Hin|].
      rewrite firstn_all2 by exact Hlen.
      apply in_personalized_recs. exists r. split; [exact Hin | exact Hone].
  - intros out Hout. unfold get_personalized_recommendations in Hout.
    destruct (base_engine (n * 2)%nat) as [|r0 rest] eqn:E; [destruct Hout|].
    apply In_firstn in Hout.
    apply in_personalized_recs in Hout as (r1 & _ & H1).
    apply personalize_one_unrated in H1 as (H1 & _ & H2 & _).
    now rewrite H2.
Qed.

Lemma disliked_penalised_not_dropped_witness :
  exists r',
    In r' (get_personalized_recommendations Fixtures.drama_fan
             Fixtures.engine_returns_42 12) /\
    r_id r' = 42%Z /\
    r_final_score r' = Some (50 + 0.06 - 0.5).
Proof.
  destruct (disliked_penalised_not_dropped Fixtures.drama_fan
              Fixtures.engine_returns_42 12
              (UserPreference.of_recommendation
                 {| rec_id := 42; rec_title := "Forty-Two";
                    rec_similarity_score := 50; rec_profile := Fixtures.title_42 |})
              Fixtures.title_42)
    as [(r' & _ & Hid & _ & Hf & Hout) _].
  - left. reflexivity.
  - reflexivity.
  - apply (bool_decide_unpack (_ ∈ _)). vm_compute. reflexivity.
  - vm_compute. reflexivity.
  - exists r'. split; [|split].
    + apply Hout. vm_compute. lia.
    + exact Hid.
    + rewrite Hf. vm_compute. reflexivity.
Defined.

End Disliked.

(** ** Rating events *)

Section Tracking.
Import PyStr PyNum Recommender UserPreference PrefSpec.
Local Open Scope Q_scope.

Lemma truthy_str_nonempty (k : string) : truthy_str k = true <-> k <> "".
Proof. destruct k; simpl; split; congruence. Qed.

Lemma bump_all_other (w : Q) (names : list string) (k : string) :
  ~ In k names \/ k = "" ->
  forall acc, bump_all w names acc !! k = acc !! k.
Proof.
  unfold bump_all. induction names as [|a rest IH]; intros Hk acc; simpl.
  - reflexivity.
  - rewrite IH.
    + destruct (truthy_str a) eqn:Ea; [|reflexivity].
      apply truthy_str_nonempty in Ea. unfold bump.
      apply lookup_insert_ne. intros ->.
      destruct Hk as [Hk | Hk]; [apply Hk; now left | contradiction].
    + destruct Hk as [Hk | Hk]; [left | now right].
      intros Hin. apply Hk. now right.
Qed.

Lemma bump_all_once (w : Q) (names : list string) (k : string) :
  NoDup names -> In k names -> k <> "" ->
  forall acc, bump_all w names acc !! k = Some (round (acc_value acc k + w) 2).
Proof.
  induction names as [|a rest IH]; intros Hnd Hin Hk acc; [destruct Hin|].
  apply NoDup_cons in Hnd as [Ha Hnd].
  change (bump_all w (a :: rest) acc)
    with (bump_all w rest (if truthy_str a then bump w acc a else acc)).
  destruct (decide (k = a)) as [->|Hne].
  - rewrite bump_all_other by (left; now rewrite <- list_elem_of_In).
    rewrite (proj2 (truthy_str_nonempty a) Hk). unfold bump.
    now rewrite lookup_insert_eq.
  - destruct Hin as [Heq | Hin]; [congruence|].
    rewrite (IH Hnd Hin Hk). unfold acc_value.
    destruct (truthy_str a); [|reflexivity].
    unfold bump. now rewrite lookup_insert_ne by congruence.
Qed.

Lemma bump_all_accumulated (w : Q) (names : list string) (acc : gmap string Q) :
  accumulated w names acc (bump_all w names acc).
Proof.
  split.
  - intros k Hk. now apply bump_all_other.
  - intros Hnd k Hin Hk. now apply bump_all_once.
Qed.

Lemma rate_profile_ratings (now : string) (profile : UserProfile) (movie_id : Z)
    (r : Q) (movie_data : option MovieData) :
  ratings (rate_profile now profile movie_id r movie_data)
    = <[pretty movie_id := {| rating := r; timestamp := now |}]> (ratings profile).
Proof.
  unfold rate_profile. destruct movie_data as [md|]; [|reflexivity].
  destruct (Qleb 4 r); reflexivity.
Qed.

(** C10. [track_rating] returns the loaded profile with the rating and
    the time stamp stored under the movie's id, and writes it back
    when the disk accepts the write.  The four accumulators are those of
    the loaded profile unless movie data was passed and the rating is at
    least 4; then they are the result of [_update_preferences] with
    weight [rating / 5]: genres and directors gain [rating / 5], the
    first five cast names half of it, the first ten keywords 0.3 of
    it.  For a rating below 4 all four are unchanged. *)
Theorem track_rating_effect (disk_ok : bool) (loaded_at now : string)
    (store : gmap string ProfileFile) (uid : string) (movie_id : Z)
    (r : Q) (movie_data : option MovieData) :
  let loaded := fst (load_user_profile store loaded_at uid) in
  let result := fst (track_rating disk_ok loaded_at now store uid movie_id r movie_data) in
  let store' := snd (track_rating disk_ok loaded_at now store uid movie_id r movie_data) in
  ratings result !! pretty movie_id = Some {| rating := r; timestamp := now |}
  /\ (forall k, k <> pretty movie_id -> ratings result !! k = ratings loaded !! k)
  /\ (disk_ok = true -> store' !! uid = Some (Stored result))
  /\ (r < 4 -> preferences result = preferences loaded)
  /\ (movie_data = None -> preferences result = preferences loaded)
  /\ (forall md, movie_data = Some md -> 4 <= r ->
        preferences result = _update_preferences (preferences loaded) md (r / 5) /\
        accumulated (r / 5)
          (List.map entry_name (default [] (md_genres md)))
          (pref_genres (preferences loaded)) (pref_genres (preferences result)) /\
        accumulated (r / 5)
          (default [] (md_director md))
          (pref_directors (preferences loaded)) (pref_directors (preferences result)) /\
        accumulated (r / 5 * 0.5)
          (List.map entry_name (firstn 5 (default [] (md_cast md))))
          (pref_actors (preferences loaded)) (pref_actors (preferences result)) /\
        accumulated (r / 5 * 0.3)
          (List.map entry_name (firstn 10 (default [] (md_keywords md))))
          (pref_keywords (preferences loaded)) (pref_keywords (preferences result))).
Proof.
  unfold track_rating.
  destruct (load_user_profile store loaded_at uid) as [profile store1]. simpl.
  split; [|split; [|split; [|split; [|split]]]].
  - rewrite rate_profile_ratings. apply lookup_insert_eq.
  - intros k Hk. rewrite rate_profile_ratings. now apply lookup_insert_ne.
  - intros ->. simpl. apply lookup_insert_eq.
  - intros Hr. unfold rate_profile. destruct movie_data as [md|]; [|reflexivity].
    apply Qleb_gt in Hr. now rewrite Hr.
  - intros ->. reflexivity.
  - intros md -> Hr. unfold rate_profile. apply Qleb_le in Hr. rewrite Hr. simpl.
    split; [reflexivity|]. repeat split; apply bump_all_accumulated.
Qed.

Lemma track_rating_effect_witness :
  let result := fst (track_rating true "2024-05-01T11:59:59" "2024-05-01T12:00:00" Fixtures.one_user "u1" 78 5
                       (Some Fixtures.drama_details)) in
  ratings result !! "78" = Some {| rating := 5; timestamp := "2024-05-01T12:00:00" |} /\
  pref_genres (preferences result) !! "Drama" = Some (round (2 + 5 / 5) 2) /\
  pref_actors (preferences result) !! "Ann Actor" = Some (round (0 + 5 / 5 * 0.5) 2) /\
  pref_keywords (preferences result) !! "heist" = Some (round (0 + 5 / 5 * 0.3) 2).
Proof.
  destruct (track_rating_effect true "2024-05-01T11:59:59" "2024-05-01T12:00:00" Fixtures.one_user "u1" 78 5
              (Some Fixtures.drama_details))
    as (Hr & _ & _ & _ & _ & Hupd).
  destruct (Hupd Fixtures.drama_details eq_refl) as (_ & Hg & _ & Ha & Hk).
  { unfold Qle. simpl. lia. }
  split; [exact Hr|]. split; [|split].
  - apply (proj2 Hg).
    + apply (bool_decide_unpack (NoDup _)). vm_compute. reflexivity.
    + left. reflexivity.
    + discriminate.
  - apply (proj2 Ha).
    + apply (bool_decide_unpack (NoDup _)). vm_compute. reflexivity.
    + left. reflexivity.
    + discriminate.
  - apply (proj2 Hk).
    + apply (bool_decide_unpack (NoDup _)). vm_compute. reflexivity.
    + left. reflexivity.
    + discriminate.
Defined.

Example low_rating_keeps_preferences :
  preferences (fst (track_rating true "2024-05-01T11:59:59" "2024-05-01T12:00:00" Fixtures.one_user "u1" 78 3
                      (Some Fixtures.drama_details)))
  = preferences Fixtures.drama_fan.
Proof. reflexivity. Qed.

Example high_rating_values :
  let result := fst (track_rating true "2024-05-01T11:59:59" "2024-05-01T12:00:00" Fixtures.one_user "u1" 78 4
                       (Some Fixtures.drama_details)) in
  (pref_genres (preferences result) !! "Drama",
   pref_genres (preferences result) !! "Thriller",
   pref_actors (preferences result) !! "Ann Actor",
   pref_keywords (preferences result) !! "heist")
  = (Some 2.80, Some 0.80, Some 0.40, Some 0.24).
Proof. vm_compute. reflexivity. Qed.

End Tracking.

(** ** The offline builder *)

Section SortedFacts.
Import PyNum BuilderSpec.
Local Open Scope Q_scope.
Context {A : Type} (key : A -> Q).

Local Abbreviation geq := (fun x y : A => key y <= key x).

Lemma insert_desc_sorted (x : A) (l : list A) :
  StronglySorted geq l -> StronglySorted geq (insert_desc key x l).
Proof.
  induction 1 as [|y l Hs IH Hall]; simpl.
  - repeat constructor.
  - destruct (Qltb (key x) (key y)) eqn:E.
    + apply Qltb_lt in E. constructor; [exact IH|].
      apply (Permutation_Forall (Permutation_sym (insert_desc_perm key x l))).
      constructor; [lra | exact Hall].
    + apply Qltb_ge in E. constructor; [now constructor|].
      constructor; [exact E|].
      eapply Forall_impl; [exact Hall|]. simpl. intros z Hz. lra.
Qed.

Lemma sort_desc_sorted (l : list A) : StronglySorted geq (sort_desc key l).
Proof.
  induction l as [|x l IH]; simpl; [constructor|].
  now apply insert_desc_sorted.
Qed.

Lemma sorted_descending (l : list A) :
  StronglySorted geq l -> descending (List.map key l).
Proof.
  induction 1 as [|y l Hs IH Hall]; intros p q a b Hpq Hp Hq.
  - destruct p; discriminate.
  - destruct p as [|p], q as [|q]; simpl in Hp, Hq.
    + injection Hp as <-. injection Hq as <-. lra.
    + injection Hp as <-.
      change (List.map key l) with (key <$> l) in Hq.
      rewrite list_lookup_fmap in Hq.
      destruct (l !! q) as [z|] eqn:Ez; [|discriminate].
      injection Hq as <-. rewrite Forall_forall in Hall.
      apply Hall. eapply list_elem_of_lookup_2, Ez.
    + lia.
    + apply (IH p q a b); [lia | exact Hp | exact Hq].
Qed.

Lemma sort_desc_descending (l : list A) : descending (List.map key (sort_desc key l)).
Proof. apply sorted_descending, sort_desc_sorted. Qed.

End SortedFacts.

Section ArgsortFacts.
Import PyNum MovieLens BuilderSpec.
Local Open Scope Q_scope.

Lemma argsort_desc_length (s : list Q) : length (argsort_desc s) = length s.
Proof. unfold argsort_desc. now rewrite sort_desc_length, length_seq. Qed.

Lemma argsort_desc_valid (s : list Q) (j : nat) :
  In j (argsort_desc s) -> (j < length s)%nat.
Proof.
  unfold argsort_desc. intros H.
  apply (Permutation_in _ (sort_desc_perm _ _)) in H.
  apply in_seq in H. lia.
Qed.

Lemma argsort_desc_descending (s : list Q) :
  descending (take_at 0 s (argsort_desc s)).
Proof.
  unfold take_at, argsort_desc.
  apply (sort_desc_descending (fun j => nth j s 0)).
Qed.

Lemma take_at_length {A} (d : A) (a : list A) (order : list nat) :
  length (take_at d a order) = length order.
Proof. unfold take_at. apply length_map. Qed.

Lemma take_at_take_at (sims : list Q) (part order : list nat) :
  Forall (fun j => (j < length part)%nat) order ->
  take_at 0 sims (take_at 0%nat part order) = take_at 0 (take_at 0 sims part) order.
Proof.
  unfold take_at. intros H. rewrite List.map_map.
  apply List.map_ext_in. intros j Hj.
  rewrite List.Forall_forall in H. specialize (H j Hj).
  transitivity (nth j (List.map (fun i => nth i sims 0) part) (nth 0%nat sims 0)).
  - symmetry. apply (map_nth (fun i => nth i sims 0)).
  - apply nth_indep. rewrite length_map. exact H.
Qed.

End ArgsortFacts.

Section TopOrder.
Import PyNum MovieLens BuilderSpec.
Local Open Scope Q_scope.

(** Both branches of the selection give valid positions into [sims],
    as many as fit, best first. *)
Lemma top_order_spec (top_k : nat) (sims : list Q) :
  length (top_order top_k sims) = Nat.min top_k (length sims) /\
  Forall (fun j => (j < length sims)%nat) (top_order top_k sims) /\
  descending (take_at 0 sims (top_order top_k sims)).
Proof.
  unfold top_order. destruct (length sims <=? top_k)%nat eqn:E.
  - apply Nat.leb_le in E. split; [|split].
    + rewrite argsort_desc_length. lia.
    + apply List.Forall_forall. apply argsort_desc_valid.
    + apply argsort_desc_descending.
  - apply Nat.leb_gt in E. unfold argpartition_top.
    set (part := firstn top_k (argsort_desc sims)).
    set (sp := take_at 0 sims part).
    assert (Hlen : length part = top_k).
    { unfold part. rewrite length_firstn, argsort_desc_length. lia. }
    assert (Hsp : length sp = length part) by apply take_at_length.
    assert (Hvalid : Forall (fun j => (j < length part)%nat) (argsort_desc sp)).
    { apply List.Forall_forall. intros j Hj. apply argsort_desc_valid in Hj. lia. }
    split; [|split].
    + rewrite take_at_length, argsort_desc_length. lia.
    + apply List.Forall_forall. intros x Hx. unfold take_at in Hx.
      apply List.in_map_iff in Hx as (j & <- & Hj).
      apply argsort_desc_valid in Hj.
      apply argsort_desc_valid. apply (In_firstn top_k). fold part.
      apply nth_In. lia.
    + rewrite take_at_take_at by exact Hvalid. apply argsort_desc_descending.
Qed.

End TopOrder.

Section RowLoop.
Import PyNum MovieLens BuilderSpec.
Local Open Scope Q_scope.
Variable sqrtQ : Q -> Q.
Variable item_user : list (list Q).
Variable top_k : nat.

Local Abbreviation stored_order := (stored_order sqrtQ item_user top_k).
Local Abbreviation stored_indices := (stored_indices sqrtQ item_user top_k).
Local Abbreviation stored_scores := (stored_scores sqrtQ item_user top_k).

Lemma stored_order_length (g : nat) :
  length (stored_order g) = Nat.min top_k (length (neighbors sqrtQ item_user g)).
Proof.
  unfold BuilderSpec.stored_order.
  rewrite (proj1 (top_order_spec top_k _)). now rewrite length_map.
Qed.

Lemma match_nonempty {X Y : Type} (l : list Y) (a b : X) :
  (l = [] -> a = b) -> match l with [] => a | _ :: _ => b end = b.
Proof. destruct l; auto. Qed.

Lemma process_row_insert (tables : list (list nat) * list (list Q)) (g : nat) :
  process_row sqrtQ item_user top_k tables g =
    (<[g := assign_prefix (length (stored_order g)) (stored_indices g)
              (default [] (fst tables !! g))]> (fst tables),
     <[g := assign_prefix (length (stored_order g)) (stored_scores g)
              (default [] (snd tables !! g))]> (snd tables)).
Proof.
  unfold process_row, BuilderSpec.stored_indices, BuilderSpec.stored_scores.
  pose proof (stored_order_length g) as Hlen. unfold BuilderSpec.stored_order in *.
  set (nb := neighbors sqrtQ item_user g) in *.
  set (order := top_order top_k (List.map snd nb)) in *.
  destruct tables as [ti ts]. simpl fst. simpl snd.
  assert (Hk : Nat.min top_k (length order) = length order) by lia.
  rewrite Hk. unfold assign_prefix.
  rewrite !(firstn_all2 (n:=length order) (take_at 0%nat _ order))
    by (rewrite take_at_length; lia).
  rewrite !(firstn_all2 (n:=length order) (take_at 0 _ order))
    by (rewrite take_at_length; lia).
  apply match_nonempty. intros Hs.
  assert (Ho : order = []).
  { apply length_zero_iff_nil. rewrite Hlen.
    assert (Hnb : length nb = length (List.map snd nb)) by (now rewrite length_map).
    rewrite Hnb, Hs. simpl. lia. }
  rewrite Ho. simpl. f_equal.
  - destruct (ti !! g) as [r|] eqn:E; simpl.
    + now rewrite list_insert_id.
    + apply lookup_ge_None in E. now rewrite list_insert_ge.
  - destruct (ts !! g) as [r|] eqn:E; simpl.
    + now rewrite list_insert_id.
    + apply lookup_ge_None in E. now rewrite list_insert_ge.
Qed.

End RowLoop.

Section BlockLoop.
Import PyNum MovieLens BuilderSpec.
Local Open Scope Q_scope.
Variable sqrtQ : Q -> Q.
Variable item_user : list (list Q).
Variable top_k : nat.

Local Abbreviation n := (n_items item_user).
Local Abbreviation step := (process_row sqrtQ item_user top_k).
Local Abbreviation new_indices :=
  (fun g => assign_prefix (length (stored_order sqrtQ item_user top_k g))
              (stored_indices sqrtQ item_user top_k g)).
Local Abbreviation new_scores :=
  (fun g => assign_prefix (length (stored_order sqrtQ item_user top_k g))
              (stored_scores sqrtQ item_user top_k g)).

Lemma lookup_insert_default {A} (f : list A -> list A) (t : list (list A)) (a : nat) :
  <[a := f (default [] (t !! a))]> t !! a = f <$> (t !! a).
Proof.
  destruct (t !! a) as [r|] eqn:E; simpl.
  - apply list_lookup_insert_eq. now apply lookup_lt_Some in E.
  - apply lookup_ge_None in E. rewrite list_insert_ge by exact E.
    now apply lookup_ge_None.
Qed.

(** Rows visited once each are rewritten independently of one another. *)
Lemma fold_rows (L : list nat) :
  NoDup L ->
  forall (T : list (list nat) * list (list Q)) (g : nat),
    fst (fold_left step L T) !! g =
      (if bool_decide (g ∈ L) then new_indices g <$> (fst T !! g) else fst T !! g) /\
    snd (fold_left step L T) !! g =
      (if bool_decide (g ∈ L) then new_scores g <$> (snd T !! g) else snd T !! g).
Proof.
  induction L as [|a L IH]; intros Hnd T g.
  - simpl. split; reflexivity.
  - apply NoDup_cons in Hnd as [Ha Hnd]. simpl fold_left.
    destruct (IH Hnd (step T a) g) as [H1 H2]. rewrite H1, H2. clear H1 H2.
    rewrite (process_row_insert sqrtQ item_user top_k T a). simpl fst. simpl snd.
    destruct (decide (g = a)) as [->|Hne].
    + rewrite (bool_decide_eq_false_2 _ Ha).
      rewrite bool_decide_eq_true_2 by (apply elem_of_cons; now left).
      split; apply lookup_insert_default.
    + rewrite !list_lookup_insert_ne by congruence.
      destruct (bool_decide (g ∈ L)) eqn:E.
      * apply bool_decide_eq_true in E.
        rewrite bool_decide_eq_true_2 by (apply elem_of_cons; now right).
        split; reflexivity.
      * apply bool_decide_eq_false in E.
        rewrite bool_decide_eq_false_2; [split; reflexivity|].
        intros Hin. apply elem_of_cons in Hin as [Hin | Hin]; congruence.
Qed.

Lemma fold_rows_length (L : list nat) :
  forall T : list (list nat) * list (list Q),
    length (fst (fold_left step L T)) = length (fst T) /\
    length (snd (fold_left step L T)) = length (snd T).
Proof.
  induction L as [|a L IH]; intros T; [split; reflexivity|].
  simpl fold_left. destruct (IH (step T a)) as [H1 H2]. rewrite H1, H2.
  rewrite (process_row_insert sqrtQ item_user top_k T a). simpl.
  now rewrite !length_insert.
Qed.

Lemma fold_shifted_from (start m : nat) :
  forall (b : nat) (T : list (list nat) * list (list Q)),
    fold_left (fun t local_row => step t (start + local_row)%nat) (seq b m) T
    = fold_left step (seq (start + b) m) T.
Proof.
  induction m as [|m IH]; intros b T; [reflexivity|].
  simpl. rewrite IH. now rewrite Nat.add_succ_r.
Qed.

Lemma fold_shifted (start m : nat) (T : list (list nat) * list (list Q)) :
  fold_left (fun t local_row => step t (start + local_row)%nat) (seq 0 m) T
  = fold_left step (seq start m) T.
Proof. rewrite fold_shifted_from. now rewrite Nat.add_0_r. Qed.

(** Whatever the positive block size, the blocks visit rows
    [start .. n-1] in order. *)
Lemma blocks_are_rows (bs fuel : nat) :
  (0 < bs)%nat ->
  forall (start : nat) (T : list (list nat) * list (list Q)),
    (n - start <= fuel)%nat ->
    fold_left (process_block sqrtQ item_user top_k bs) (range_from fuel start n bs) T
    = fold_left step (seq start (n - start)) T.
Proof.
  intros Hbs. induction fuel as [|fuel IH]; intros start T Hfuel.
  - simpl. replace (n - start)%nat with 0%nat by lia. reflexivity.
  - simpl. destruct (start <? n)%nat eqn:E.
    + apply Nat.ltb_lt in E. simpl.
      rewrite IH by lia. unfold process_block. rewrite fold_shifted.
      rewrite <- fold_left_app. f_equal.
      destruct (Nat.le_gt_cases (start + bs) n) as [Hle | Hgt].
      * rewrite Nat.min_l by exact Hle.
        replace (start + bs - start)%nat with bs by lia.
        replace (n - start)%nat with (bs + (n - (start + bs)))%nat by lia.
        now rewrite seq_app.
      * rewrite Nat.min_r by lia.
        replace (n - (start + bs))%nat with 0%nat by lia.
        simpl. now rewrite app_nil_r.
    + apply Nat.ltb_ge in E. replace (n - start)%nat with 0%nat by lia. reflexivity.
Qed.

Lemma compute_rows (block_size : Z) :
  (0 < block_size)%Z ->
  compute_item_similarities_blockwise sqrtQ item_user top_k block_size
  = Some (fold_left step (seq 0 n) (zero_tables item_user top_k)).
Proof.
  intros Hbs. unfold compute_item_similarities_blockwise, range0.
  rewrite (proj2 (Z.eqb_neq block_size 0)) by lia.
  rewrite (proj2 (Z.ltb_lt 0 block_size)) by exact Hbs.
  rewrite blocks_are_rows by lia.
  now rewrite Nat.sub_0_r.
Qed.

(** A block size of 0 is rejected by [range]; with a negative one the
    loop body never runs and the tables stay as created. *)
Lemma block_size_zero_raises :
  compute_item_similarities_blockwise sqrtQ item_user top_k 0 = None.
Proof. reflexivity. Qed.

Lemma negative_block_size_no_rows (block_size : Z) :
  (block_size < 0)%Z ->
  compute_item_similarities_blockwise sqrtQ item_user top_k block_size
  = Some (zero_tables item_user top_k).
Proof.
  intros H. unfold compute_item_similarities_blockwise, range0.
  rewrite (proj2 (Z.eqb_neq block_size 0)) by lia.
  rewrite (proj2 (Z.ltb_ge 0 block_size)) by lia. reflexivity.
Qed.

(** Row [g] of the result: the kept neighbours, then the zeros the
    arrays were created with. *)
Lemma compute_row_lookup (block_size : Z) (ti : list (list nat)) (ts : list (list Q))
    (g : nat) :
  (0 < block_size)%Z ->
  compute_item_similarities_blockwise sqrtQ item_user top_k block_size = Some (ti, ts) ->
  (g < n)%nat ->
  ti !! g = Some (stored_indices sqrtQ item_user top_k g
                  ++ List.repeat 0%nat (top_k - length (stored_order sqrtQ item_user top_k g))) /\
  ts !! g = Some (stored_scores sqrtQ item_user top_k g
                  ++ List.repeat 0 (top_k - length (stored_order sqrtQ item_user top_k g))).
Proof.
  intros Hbs Hc Hg. rewrite (compute_rows block_size Hbs) in Hc.
  injection Hc as Hc.
  destruct (fold_rows (seq 0 n) (NoDup_seq 0 n) (zero_tables item_user top_k) g) as [H1 H2].
  rewrite Hc in H1, H2. simpl in H1, H2.
  rewrite bool_decide_eq_true_2 in H1, H2
    by (apply list_elem_of_In, in_seq; lia).
  set (k := length (stored_order sqrtQ item_user top_k g)) in *.
  assert (Hk : (k <= top_k)%nat).
  { unfold k. rewrite stored_order_length. lia. }
  assert (Hz1 : List.repeat (List.repeat 0%nat top_k) n !! g = Some (List.repeat 0%nat top_k)).
  { apply lookup_repeat. exact Hg. }
  assert (Hz2 : List.repeat (List.repeat 0 top_k) n !! g = Some (List.repeat 0 top_k)).
  { apply lookup_repeat. exact Hg. }
  split.
  - rewrite H1, Hz1. simpl. f_equal.
    unfold assign_prefix. rewrite firstn_all2 by (unfold stored_indices; rewrite take_at_length; fold k; lia).
    f_equal. now rewrite skipn_repeat.
  - rewrite H2, Hz2. simpl. f_equal.
    unfold assign_prefix. rewrite firstn_all2 by (unfold stored_scores; rewrite take_at_length; fold k; lia).
    f_equal. now rewrite skipn_repeat.
Qed.

End BlockLoop.

Section Cosine.
Import PyNum MovieLens BuilderSpec.
Local Open Scope Q_scope.

Lemma sq_nonneg (x : Q) : 0 <= x * x.
Proof.
  destruct (Qlt_le_dec x 0) as [H|H].
  - assert (E : x * x == (- x) * (- x)) by ring.
    rewrite E. apply Qmult_le_0_compat; lra.
  - now apply Qmult_le_0_compat.
Qed.

Lemma dot_self_nonneg (a : list Q) : 0 <= dot a a.
Proof.
  induction a as [|x a IH]; simpl; [lra|].
  pose proof (sq_nonneg x). lra.
Qed.

Lemma dot_nonneg (a b : list Q) :
  Forall (fun x => 0 <= x) a -> Forall (fun x => 0 <= x) b -> 0 <= dot a b.
Proof.
  intros Ha. revert b. induction Ha as [|x a Hx Ha IH]; intros b Hb; simpl; [lra|].
  destruct Hb as [|y b Hy Hb]; [lra|].
  specialize (IH b Hb). nra.
Qed.

(** The quadratic form behind the Cauchy-Schwarz inequality. *)
Lemma dot_form_nonneg (a b : list Q) (s t : Q) :
  0 <= dot a a * (s * s) + 2 * dot a b * (s * t) + dot b b * (t * t).
Proof.
  revert b. induction a as [|x a IH]; intros b.
  - simpl. pose proof (dot_self_nonneg b) as Hb.
    pose proof (sq_nonneg t) as Ht.
    pose proof (Qmult_le_0_compat _ _ Hb Ht). lra.
  - destruct b as [|y b].
    + pose proof (dot_self_nonneg (x :: a)) as Ha.
      pose proof (sq_nonneg s) as Hs.
      pose proof (Qmult_le_0_compat _ _ Ha Hs).
      change (dot (x :: a) []) with 0. change (dot [] []) with 0. lra.
    + specialize (IH b). simpl.
      pose proof (sq_nonneg (x * s + y * t)) as H.
      assert (E : (x * x + dot a a) * (s * s) + 2 * (x * y + dot a b) * (s * t)
                  + (y * y + dot b b) * (t * t)
                  == (dot a a * (s * s) + 2 * dot a b * (s * t) + dot b b * (t * t))
                     + (x * s + y * t) * (x * s + y * t)) by ring.
      rewrite E. lra.
Qed.

Lemma dot_self_zero (a b : list Q) : dot a a == 0 -> dot a b == 0.
Proof.
  revert b. induction a as [|x a IH]; intros b H; simpl in *; [reflexivity|].
  destruct b as [|y b]; [reflexivity|].
  pose proof (dot_self_nonneg a) as Ha.
  assert (Hx : x * x == 0) by nra.
  assert (Ha0 : dot a a == 0) by nra.
  rewrite (IH b Ha0).
  assert (Hx0 : x == 0).
  { destruct (Qeq_dec x 0) as [E|E]; [exact E|].
    exfalso. apply E. apply Qmult_integral in Hx. tauto. }
  rewrite Hx0. ring.
Qed.

Lemma cauchy_schwarz (a b : list Q) : dot a b * dot a b <= dot a a * dot b b.
Proof.
  pose proof (dot_self_nonneg a) as Ha. pose proof (dot_self_nonneg b) as Hb.
  destruct (Qeq_dec (dot a a) 0) as [E|E].
  - rewrite (dot_self_zero a b E), E. lra.
  - pose proof (dot_form_nonneg a b (- dot a b) (dot a a)) as H.
    assert (Hpos : 0 < dot a a) by lra.
    assert (H' : 0 <= dot a a * (dot a a * dot b b - dot a b * dot a b)) by nra.
    nra.
Qed.

Variable sqrtQ : Q -> Q.
Variable item_user : list (list Q).

Lemma row_in (g : nat) :
  (g < n_items item_user)%nat -> In (row item_user g) item_user.
Proof. intros H. unfold row. now apply nth_In. Qed.

Lemma norm_accurate (g : nat) :
  sqrt_accurate sqrtQ item_user -> (g < n_items item_user)%nat ->
  0 < norm sqrtQ item_user g /\
  dot (row item_user g) (row item_user g)
    <= norm sqrtQ item_user g * norm sqrtQ item_user g.
Proof.
  intros Hacc Hg. unfold sqrt_accurate in Hacc. rewrite List.Forall_forall in Hacc.
  destruct (Hacc _ (row_in g Hg)) as [H1 H2].
  unfold norm, eps in *. split; [lra | exact H2].
Qed.

Lemma square_le (x y : Q) : 0 <= x -> 0 <= y -> x * x <= y * y -> x <= y.
Proof. intros Hx Hy H. destruct (Qlt_le_dec y x) as [Hlt|Hle]; [nra | exact Hle]. Qed.

(** With accurate norms, every similarity lies between -1 and 1. *)
Lemma cosine_bounds (g j : nat) :
  sqrt_accurate sqrtQ item_user ->
  (g < n_items item_user)%nat -> (j < n_items item_user)%nat ->
  - 1 <= cosine sqrtQ item_user g j /\ cosine sqrtQ item_user g j <= 1.
Proof.
  intros Hacc Hg Hj.
  destruct (norm_accurate g Hacc Hg) as [Hng Hgg].
  destruct (norm_accurate j Hacc Hj) as [Hnj Hjj].
  pose proof (cauchy_schwarz (row item_user g) (row item_user j)) as Hcs.
  pose proof (dot_self_nonneg (row item_user g)) as H0g.
  pose proof (dot_self_nonneg (row item_user j)) as H0j.
  unfold cosine.
  set (D := dot (row item_user g) (row item_user j)) in *.
  set (A := dot (row item_user g) (row item_user g)) in *.
  set (B := dot (row item_user j) (row item_user j)) in *.
  set (Ng := norm sqrtQ item_user g) in *.
  set (Nj := norm sqrtQ item_user j) in *.
  assert (Hp : 0 < Ng * Nj) by nra.
  assert (Hsq : D * D <= (Ng * Nj) * (Ng * Nj)).
  { assert (A * B <= (Ng * Ng) * (Nj * Nj)) by nra. nra. }
  split.
  - apply Qle_shift_div_l; [exact Hp|].
    assert (- D <= Ng * Nj).
    { destruct (Qlt_le_dec D 0) as [Hneg|Hnn]; [|lra].
      apply square_le; [lra | lra | nra]. }
    lra.
  - apply Qle_shift_div_r; [exact Hp|].
    assert (D <= Ng * Nj).
    { destruct (Qlt_le_dec D 0) as [Hneg|Hnn]; [lra|].
      apply square_le; [lra | lra | nra]. }
    lra.
Qed.

Lemma cosine_nonneg (g j : nat) :
  sqrt_accurate sqrtQ item_user -> nonnegative item_user ->
  (g < n_items item_user)%nat -> (j < n_items item_user)%nat ->
  0 <= cosine sqrtQ item_user g j.
Proof.
  intros Hacc Hnn Hg Hj.
  destruct (norm_accurate g Hacc Hg) as [Hng _].
  destruct (norm_accurate j Hacc Hj) as [Hnj _].
  unfold nonnegative in Hnn. rewrite List.Forall_forall in Hnn.
  pose proof (dot_nonneg _ _ (Hnn _ (row_in g Hg)) (Hnn _ (row_in j Hj))) as Hd.
  unfold cosine. apply Qle_shift_div_l; [nra | lra].
Qed.

Lemma sqrt_accurate_nonneg : sqrt_accurate sqrtQ item_user -> sqrt_nonneg sqrtQ item_user.
Proof.
  unfold sqrt_accurate, sqrt_nonneg. intros H.
  eapply Forall_impl; [exact H|]. simpl. tauto.
Qed.

Lemma norm_positive (g : nat) :
  sqrt_nonneg sqrtQ item_user -> (g < n_items item_user)%nat ->
  0 < norm sqrtQ item_user g.
Proof.
  intros Hnn Hg. unfold sqrt_nonneg in Hnn. rewrite List.Forall_forall in Hnn.
  pose proof (Hnn _ (row_in g Hg)) as H. unfold norm, eps. lra.
Qed.

(** Without negative ratings no similarity is negative, however the
    square root is rounded. *)
Lemma cosine_nonneg_rounded (g j : nat) :
  sqrt_nonneg sqrtQ item_user -> nonnegative item_user ->
  (g < n_items item_user)%nat -> (j < n_items item_user)%nat ->
  0 <= cosine sqrtQ item_user g j.
Proof.
  intros Hsq Hnn Hg Hj.
  pose proof (norm_positive g Hsq Hg) as Hng.
  pose proof (norm_positive j Hsq Hj) as Hnj.
  unfold nonnegative in Hnn. rewrite List.Forall_forall in Hnn.
  pose proof (dot_nonneg _ _ (Hnn _ (row_in g Hg)) (Hnn _ (row_in j Hj))) as Hd.
  unfold cosine. apply Qle_shift_div_l; [nra | lra].
Qed.

(** A neighbour of [g] is another row, with a non-zero dot product, and
    its score is the similarity of the two rows. *)
Lemma in_neighbors (g j : nat) (s : Q) :
  In (j, s) (neighbors sqrtQ item_user g) ->
  j <> g /\ (j < n_items item_user)%nat /\ s = cosine sqrtQ item_user g j /\
  ~ dot (row item_user g) (row item_user j) == 0.
Proof.
  unfold neighbors, product_row. intros H.
  apply List.filter_In in H as [H Hne].
  apply List.in_map_iff in H as ([j' d] & Heq & H).
  apply List.filter_In in H as [H Hnz].
  apply List.in_map_iff in H as (j'' & Heq' & H).
  apply in_seq in H. simpl in *.
  injection Heq' as -> <-. injection Heq as -> <-.
  split; [|split; [|split]].
  - apply negb_true_iff, Nat.eqb_neq in Hne. exact Hne.
  - lia.
  - reflexivity.
  - apply negb_true_iff in Hnz. intros E. apply Qeq_bool_iff in E. congruence.
Qed.

Lemma stored_pairs (top_k g p j : nat) (s : Q) :
  stored_indices sqrtQ item_user top_k g !! p = Some j ->
  stored_scores sqrtQ item_user top_k g !! p = Some s ->
  In (j, s) (neighbors sqrtQ item_user g).
Proof.
  unfold stored_indices, stored_scores, take_at.
  set (nb := neighbors sqrtQ item_user g).
  intros Hi Hs.
  change (List.map ?f ?l) with (f <$> l) in Hi.
  change (List.map ?f ?l) with (f <$> l) in Hs.
  rewrite list_lookup_fmap in Hi. rewrite list_lookup_fmap in Hs.
  destruct (stored_order sqrtQ item_user top_k g !! p) as [o|] eqn:Eo; [|discriminate].
  simpl in Hi, Hs. injection Hi as <-. injection Hs as <-.
  assert (Ho : (o < length nb)%nat).
  { pose proof (proj1 (proj2 (top_order_spec top_k (List.map snd nb)))) as Hv.
    rewrite List.Forall_forall in Hv.
    specialize (Hv o). rewrite length_map in Hv. apply Hv.
    apply list_elem_of_In. eapply list_elem_of_lookup_2, Eo. }
  change (fst <$> nb) with (List.map fst nb).
  change (snd <$> nb) with (List.map snd nb).
  rewrite (nth_indep _ 0%nat (fst (0%nat, 0))) by (rewrite length_map; exact Ho).
  rewrite (nth_indep _ 0 (snd (0%nat, 0))) by (rewrite length_map; exact Ho).
  rewrite !map_nth. rewrite <- surjective_pairing. now apply nth_In.
Qed.

End Cosine.

Section Tables.
Import PyNum MovieLens BuilderSpec AsSpecified.
Local Open Scope Q_scope.

Lemma descending_app_zeros (l : list Q) (m : nat) :
  descending l -> Forall (fun x => 0 <= x) l -> descending (l ++ List.repeat 0 m).
Proof.
  intros Hd Hnn p q a b Hpq Hp Hq.
  destruct (Nat.lt_ge_cases q (length l)) as [Hq' | Hq'].
  - rewrite lookup_app_l in Hp, Hq by lia. now apply (Hd p q).
  - rewrite lookup_app_r in Hq by lia.
    assert (Hb : b = 0).
    { apply list_elem_of_lookup_2, list_elem_of_In, repeat_spec in Hq. exact Hq. }
    subst b.
    destruct (Nat.lt_ge_cases p (length l)) as [Hp' | Hp'].
    + rewrite lookup_app_l in Hp by lia.
      rewrite Forall_forall in Hnn. apply Hnn. eapply list_elem_of_lookup_2, Hp.
    + rewrite lookup_app_r in Hp by lia.
      apply list_elem_of_lookup_2, list_elem_of_In, repeat_spec in Hp. subst a. lra.
Qed.

Lemma descending_zeros (m : nat) : descending (List.repeat 0 m).
Proof.
  intros p q a b _ Hp Hq.
  apply list_elem_of_lookup_2, list_elem_of_In, repeat_spec in Hp.
  apply list_elem_of_lookup_2, list_elem_of_In, repeat_spec in Hq.
  subst. lra.
Qed.

Lemma zeros_within (P : Q -> Prop) (m : nat) : P 0 -> Forall P (List.repeat 0 m).
Proof. intros H. induction m; simpl; constructor; assumption. Qed.

(** Two items rated alike by one user: each is the other's only
    neighbour, and the second slot of each row keeps the zeros the
    arrays were created with. *)
Example two_items_one_user :
  compute_item_similarities_blockwise sqrt_fixed [[1]; [1]] 2 500
  = Some ([[1; 0]; [0; 0]]%nat,
          [[cosine sqrt_fixed [[1]; [1]] 0 1; 0]; [cosine sqrt_fixed [[1]; [1]] 1 0; 0]]).
Proof. vm_compute. reflexivity. Qed.

(** With a negative similarity in front of the padding, the score row
    as a whole is not in descending order. *)
Example negative_score_before_padding :
  exists ts,
    snd <$> compute_item_similarities_blockwise sqrt_fixed [[1]; [-1]] 2 500 = Some ts /\
    exists a, ts !! 0%nat = Some [a; 0] /\ a < 0.
Proof.
  eexists. split; [vm_compute; reflexivity|].
  eexists. split; [reflexivity|]. reflexivity.
Qed.

(** Two items with the same two ratings, norms in single precision:
    the computed norm of either row is 1.41421353..., below the square
    root of 2 by more than [eps], and the score the builder stores for
    the pair is 2 over the square of the norm. *)
Example identical_rows_single_precision :
  compute_item_similarities_blockwise sqrt_single [[1; 1]; [1; 1]] 1 500
  = Some ([[1]; [0]]%nat,
          [[cosine sqrt_single [[1; 1]; [1; 1]] 0 1];
           [cosine sqrt_single [[1; 1]; [1; 1]] 1 0]])
  /\ 1 < cosine sqrt_single [[1; 1]; [1; 1]] 0 1.
Proof. split; vm_compute; reflexivity. Qed.

(** The stored score of two identical rows exceeds 1 when the norms are
    rounded as single precision rounds them. *)
Lemma rounded_norm_score_exceeds_one : ~ scores_within_unit_bounds.
Proof.
  intros H.
  destruct identical_rows_single_precision as [Hc Hgt].
  specialize (H [[1; 1]; [1; 1]] 1%nat 500%Z _ _ Hc).
  apply Forall_cons in H as [H _]. apply Forall_cons in H as [[_ H] _].
  lra.
Qed.

(** C9 (amended). The builder raises exactly for a block size of 0.
    Otherwise both tables have one row of [top_k] slots per item, and
    row [g] is made of [k] neighbour entries followed by zeros in both
    arrays: for a positive block size [k] is the smaller of [top_k] and
    the number of other rows whose dot product with row [g] is not 0,
    for a negative one, where the loop over blocks is empty, [k] is 0.
    No neighbour entry is [g] itself; the neighbour scores are in
    descending order; each is the dot product of the two rows over the
    product of their computed norms.  With computed square roots that
    are not negative, a matrix without negative entries has no negative
    score and its whole score row, padding included, is in descending
    order.  With computed square roots that moreover are not more than
    [eps] below the true roots, every score lies in [-1, 1], and in
    [0, 1] for a matrix without negative entries.  Nothing here depends
    on the order given to equal scores. *)
Theorem blockwise_tables (sqrtQ : Q -> Q) (item_user : list (list Q)) (top_k : nat)
    (block_size : Z) :
  (compute_item_similarities_blockwise sqrtQ item_user top_k block_size = None
     <-> block_size = 0%Z)
  /\ forall ti ts,
    compute_item_similarities_blockwise sqrtQ item_user top_k block_size = Some (ti, ts) ->
    length ti = n_items item_user /\ length ts = n_items item_user /\
    forall g, (g < n_items item_user)%nat ->
      exists row_i row_s,
        ti !! g = Some row_i /\ ts !! g = Some row_s /\
        length row_i = top_k /\ length row_s = top_k /\
        let k := if (0 <? block_size)%Z
                 then Nat.min top_k (length (neighbors sqrtQ item_user g))
                 else 0%nat in
        (forall p j s, (p < k)%nat -> row_i !! p = Some j -> row_s !! p = Some s ->
           j <> g /\ (j < n_items item_user)%nat /\
           s = cosine sqrtQ item_user g j /\
           ~ dot (row item_user g) (row item_user j) == 0) /\
        descending (firstn k row_s) /\
        (forall p, (k <= p < top_k)%nat ->
           row_i !! p = Some 0%nat /\ row_s !! p = Some 0) /\
        (sqrt_nonneg sqrtQ item_user -> nonnegative item_user ->
           Forall (fun s => 0 <= s) row_s /\ descending row_s) /\
        (sqrt_accurate sqrtQ item_user ->
           Forall (fun s => - 1 <= s /\ s <= 1) row_s) /\
        (sqrt_accurate sqrtQ item_user -> nonnegative item_user ->
           Forall (fun s => 0 <= s /\ s <= 1) row_s).
Proof.
  split.
  { split.
    - intros Hnone.
      destruct (Z.lt_trichotomy block_size 0) as [Hneg|[Hz|Hpos]]; [|exact Hz|].
      + rewrite negative_block_size_no_rows in Hnone by exact Hneg. discriminate.
      + rewrite compute_rows in Hnone by exact Hpos. discriminate.
    - intros ->. apply block_size_zero_raises. }
  intros ti ts Hc.
  destruct (Z.lt_trichotomy block_size 0) as [Hneg|[Hz|Hbs]].
  - (* A negative block size: no row is written. *)
    rewrite negative_block_size_no_rows in Hc by exact Hneg.
    injection Hc as <- <-. unfold zero_tables. rewrite !repeat_length.
    split; [reflexivity|]. split; [reflexivity|]. intros g Hg.
    exists (List.repeat 0%nat top_k), (List.repeat 0 top_k).
    split; [now apply lookup_repeat|]. split; [now apply lookup_repeat|].
    rewrite !repeat_length. split; [reflexivity|]. split; [reflexivity|].
    rewrite (proj2 (Z.ltb_ge 0 block_size)) by lia. cbv zeta.
    split; [intros p j s Hp; lia|].
    split; [intros p q a b _ Hp; destruct p; discriminate|].
    split; [intros p Hp; split; apply lookup_repeat; lia|].
    split; [intros _ _; split; [apply zeros_within; lra|apply descending_zeros]|].
    split; [intros _; apply zeros_within; lra|].
    intros _ _. apply zeros_within. lra.
  - subst block_size. rewrite block_size_zero_raises in Hc. discriminate.
  - (* A positive block size: every row is written once. *)
    rewrite (proj2 (Z.ltb_lt 0 block_size) Hbs).
    assert (Hshape : length ti = n_items item_user /\ length ts = n_items item_user).
    { pose proof Hc as Hc'. rewrite compute_rows in Hc' by exact Hbs. injection Hc' as Hc'.
      destruct (fold_rows_length sqrtQ item_user top_k (seq 0 (n_items item_user))
                  (zero_tables item_user top_k)) as [H1 H2].
      rewrite Hc' in H1, H2. simpl in H1, H2. rewrite repeat_length in H1, H2. auto. }
    split; [apply Hshape|]. split; [apply Hshape|]. intros g Hg.
    destruct (compute_row_lookup sqrtQ item_user top_k block_size ti ts g Hbs Hc Hg)
      as [Hi Hs].
    pose proof (stored_order_length sqrtQ item_user top_k g) as Hlen.
    set (k := Nat.min top_k (length (neighbors sqrtQ item_user g))) in *.
    set (si := stored_indices sqrtQ item_user top_k g) in *.
    set (ss := stored_scores sqrtQ item_user top_k g) in *.
    assert (Hsi : length si = k) by (unfold si, stored_indices; now rewrite take_at_length).
    assert (Hss : length ss = k) by (unfold ss, stored_scores; now rewrite take_at_length).
    rewrite Hlen in Hi, Hs.
    assert (Hpairs : forall p j s, (p < k)%nat ->
              (si ++ List.repeat 0%nat (top_k - k)) !! p = Some j ->
              (ss ++ List.repeat 0 (top_k - k)) !! p = Some s ->
              In (j, s) (neighbors sqrtQ item_user g)).
    { intros p j s Hp Hj Hsc.
      rewrite lookup_app_l in Hj by lia. rewrite lookup_app_l in Hsc by lia.
      now apply (stored_pairs sqrtQ item_user top_k g p). }
    assert (Hdesc : descending ss).
    { apply (proj2 (proj2 (top_order_spec top_k _))). }
    assert (Hin : forall s, In s ss -> exists j, In (j, s) (neighbors sqrtQ item_user g)).
    { intros s Hin. apply list_elem_of_In, list_elem_of_lookup in Hin as [p Hp].
      assert (Hpk : (p < length si)%nat).
      { apply lookup_lt_Some in Hp. lia. }
      apply lookup_lt_is_Some in Hpk as [j Hj].
      exists j. now apply (stored_pairs sqrtQ item_user top_k g p). }
    assert (Hnonneg : sqrt_nonneg sqrtQ item_user -> nonnegative item_user ->
              Forall (fun s => 0 <= s) ss).
    { intros Hsq Hnn. apply List.Forall_forall. intros s Hsin.
      destruct (Hin s Hsin) as [j Hj].
      apply in_neighbors in Hj as (_ & Hjn & -> & _).
      now apply cosine_nonneg_rounded. }
    assert (Hbound : sqrt_accurate sqrtQ item_user ->
              Forall (fun s => - 1 <= s /\ s <= 1) ss).
    { intros Hacc. apply List.Forall_forall. intros s Hsin.
      destruct (Hin s Hsin) as [j Hj].
      apply in_neighbors in Hj as (_ & Hjn & -> & _).
      now apply cosine_bounds. }
    eexists _, _. split; [exact Hi|]. split; [exact Hs|].
    split; [rewrite length_app, repeat_length; lia|].
    split; [rewrite length_app, repeat_length; lia|].
    cbv zeta.
    split; [|split; [|split; [|split; [|split]]]].
    + intros p j s Hp Hj Hsc. apply in_neighbors. now apply (Hpairs p).
    + rewrite firstn_app, firstn_all2 by lia.
      replace (k - length ss)%nat with 0%nat by lia. simpl. now rewrite app_nil_r.
    + intros p Hp. rewrite !lookup_app_r by lia. split; apply lookup_repeat; lia.
    + intros Hsq Hnn. split.
      * apply Forall_app. split; [now apply Hnonneg|]. apply zeros_within. lra.
      * apply descending_app_zeros; [exact Hdesc|now apply Hnonneg].
    + intros Hacc. apply Forall_app. split; [now apply Hbound|].
      apply zeros_within. lra.
    + intros Hacc Hnn. apply Forall_app. split; [|apply zeros_within; lra].
      pose proof (Hnonneg (sqrt_accurate_nonneg sqrtQ item_user Hacc) Hnn) as H0.
      pose proof (Hbound Hacc) as H1.
      rewrite List.Forall_forall in H0, H1. apply List.Forall_forall.
      intros s Hsin. split; [now apply H0|now apply H1].
Qed.

End Tables.

Section SqrtFixed.
Import PyNum MovieLens BuilderSpec.
Local Open Scope Q_scope.

(** The ten-decimal square root is accurate in the sense asked for. *)
Lemma sqrt_fixed_spec (x : Q) :
  0 <= x ->
  0 <= sqrt_fixed x /\ x <= (sqrt_fixed x + eps) * (sqrt_fixed x + eps).
Proof.
  intros Hx. unfold sqrt_fixed, eps.
  set (n := Qfloor (x * inject_Z (10 ^ 20))).
  set (r := Z.sqrt n).
  assert (Hn : (0 <= n)%Z).
  { unfold n. change 0%Z with (Qfloor 0). apply Qfloor_resp_le.
    apply Qmult_le_0_compat; [exact Hx | discriminate]. }
  assert (Hr : (0 <= r)%Z) by apply Z.sqrt_nonneg.
  destruct (Z.sqrt_spec n Hn) as [_ Hup]. fold r in Hup.
  assert (Hfl : x * inject_Z (10 ^ 20) < inject_Z (n + 1)) by apply Qlt_floor.
  assert (Hle : inject_Z (n + 1) <= inject_Z ((r + 1) * (r + 1))).
  { rewrite <- Zle_Qle. lia. }
  assert (Hs : inject_Z r / inject_Z (10 ^ 10) + (1 # 10000000000)
               == inject_Z (r + 1) / inject_Z (10 ^ 10)).
  { rewrite inject_Z_plus. change (inject_Z 1) with 1.
    change (inject_Z (10 ^ 10)) with 10000000000. field. }
  split.
  - apply Qle_shift_div_l; [reflexivity|].
    rewrite Qmult_0_l. change 0 with (inject_Z 0). now rewrite <- Zle_Qle.
  - rewrite Hs.
    assert (Hsq : inject_Z (r + 1) / inject_Z (10 ^ 10) * (inject_Z (r + 1) / inject_Z (10 ^ 10))
                  == inject_Z ((r + 1) * (r + 1)) / inject_Z (10 ^ 20)).
    { rewrite inject_Z_mult.
      change (inject_Z (10 ^ 20)) with 100000000000000000000.
      change (inject_Z (10 ^ 10)) with 10000000000. field. }
    rewrite Hsq. apply Qle_shift_div_l; [reflexivity|]. lra.
Qed.

Lemma sqrt_fixed_accurate (item_user : list (list Q)) :
  sqrt_accurate sqrt_fixed item_user.
Proof.
  apply List.Forall_forall. intros r _.
  apply sqrt_fixed_spec, dot_self_nonneg.
Qed.

(** Four items rated by three users, two slots per row, three rows to a
    block; no two candidates of a row have scores close to each other. *)
Lemma blockwise_tables_witness :
  exists ti ts,
    compute_item_similarities_blockwise sqrt_fixed
      [[5; 3; 0]; [4; 0; 1]; [0; 2; 2]; [1; 1; 3]] 2 3 = Some (ti, ts) /\
    ti = [[1; 3]; [0; 3]; [3; 0]; [2; 1]]%nat /\
    Forall (Forall (fun s => 0 <= s /\ s <= 1)) ts.
Proof.
  set (m := [[5; 3; 0]; [4; 0; 1]; [0; 2; 2]; [1; 1; 3]]).
  destruct (compute_item_similarities_blockwise sqrt_fixed m 2 3) as [[ti ts]|] eqn:Hc;
    [|vm_compute in Hc; discriminate].
  exists ti, ts. split; [reflexivity|].
  split; [vm_compute in Hc; injection Hc as <- _; reflexivity|].
  destruct (blockwise_tables sqrt_fixed m 2 3) as [_ Hrows].
  destruct (Hrows ti ts Hc) as (_ & Hlen & Hall).
  assert (Hnn : nonnegative m).
  { unfold nonnegative, m. repeat constructor; unfold Qle; simpl; lia. }
  apply Forall_lookup. intros g row_s Hg.
  assert (Hlt : (g < n_items m)%nat).
  { rewrite <- Hlen. now apply lookup_lt_Some in Hg. }
  destruct (Hall g Hlt) as (row_i & row_s' & _ & Hs & _ & _ & Hrest).
  rewrite Hg in Hs. injection Hs as <-.
  destruct Hrest as (_ & _ & _ & _ & _ & Hunit).
  exact (Hunit (sqrt_fixed_accurate m) Hnn).
Defined.

End SqrtFixed.

(** ** No model from an over-pruned data set *)

Section Builder.
Import PyNum Recommender MovieLens BuilderSpec.
Local Open Scope Q_scope.

Lemma filter_none {A} (f : A -> bool) (l : list A) :
  (forall x, In x l -> f x = false) -> List.filter f l = [].
Proof.
  induction l as [|x l IH]; intros H; simpl; [reflexivity|].
  rewrite (H x (or_introl eq_refl)). apply IH. intros y Hy. apply H. now right.
Qed.

Lemma count_ratings_pos (valid : list RatingRow) (r : RatingRow) :
  In r valid -> (1 <= count_ratings valid (movieId r))%nat.
Proof.
  intros Hin. unfold count_ratings.
  assert (H : In r (List.filter (fun r' => Z.eqb (movieId r') (movieId r)) valid)).
  { apply List.filter_In. split; [exact Hin | apply Z.eqb_refl]. }
  destruct (List.filter _ valid); [destruct H | simpl; lia].
Qed.

Lemma pruned_nil (links : list LinkRow) (ratings : list RatingRow) (min_item_ratings : Z) :
  (forall r, In r (in_crosswalk links ratings) ->
     (Z.of_nat (count_ratings (in_crosswalk links ratings) (movieId r)) < min_item_ratings)%Z) ->
  pruned links ratings min_item_ratings = [].
Proof.
  intros H. unfold pruned.
  destruct (1 <? min_item_ratings)%Z eqn:E.
  - apply filter_none. intros r Hr. apply Z.leb_gt. now apply H.
  - apply Z.ltb_ge in E.
    destruct (in_crosswalk links ratings) as [|r rest] eqn:Ev; [reflexivity|].
    exfalso. specialize (H r (or_introl eq_refl)).
    pose proof (count_ratings_pos (r :: rest) r (or_introl eq_refl)). lia.
Qed.

(** C8. When every item left after the crosswalk filter has fewer than
    [min_item_ratings] ratings, [build_and_save_cf_model] returns the
    no-model result: it does not raise and the file system is as before. *)
Theorem no_model_when_all_pruned (sqrtQ : Q -> Q) (fs : gmap string CFModel)
    (ratings : list RatingRow) (links : list LinkRow) (model_path : string)
    (top_k : nat) (min_item_ratings block_size : Z) :
  (forall r, In r (in_crosswalk links ratings) ->
     (Z.of_nat (count_ratings (in_crosswalk links ratings) (movieId r)) < min_item_ratings)%Z) ->
  build_and_save_cf_model sqrtQ fs ratings links model_path top_k
    min_item_ratings block_size = (NoModel, fs).
Proof.
  intros H. unfold build_and_save_cf_model.
  destruct (build_tmdb_mapping links) as [movie_to_tmdb tmdb_to_movie].
  now rewrite (pruned_nil links ratings min_item_ratings H).
Qed.

Lemma no_model_when_all_pruned_witness :
  build_and_save_cf_model sqrt_fixed ∅ Fixtures.few_ratings Fixtures.two_links
    "models/movielens_cf.pkl" 50 5 500 = (NoModel, ∅).
Proof.
  apply no_model_when_all_pruned.
  intros r Hr. vm_compute in Hr.
  destruct Hr as [<- | [<- | [<- | []]]]; vm_compute; reflexivity.
Defined.

(** With a threshold of 1 the same data gives a model, saved under the
    given path and readable by the serving side. *)
Example model_built_and_saved :
  exists model,
    build_and_save_cf_model sqrt_fixed ∅ Fixtures.few_ratings Fixtures.two_links
      "models/movielens_cf.pkl" 2 1 500
    = (Saved "models/movielens_cf.pkl", <["models/movielens_cf.pkl" := model]> ∅)
    /\ top_indices model = [[1; 0]; [0; 0]]%nat
    /\ recommend_similar_by_tmdbId 100 model 12 = Some [200%Z].
Proof.
  eexists. split; [|split].
  - vm_compute. reflexivity.
  - reflexivity.
  - vm_compute. reflexivity.
Qed.

End Builder.

(** * Further properties of the code *)

(** ** The model is loaded at most once *)

Section LoadOnce.
Import PyNum Recommender.

(** X1. After the first load attempt the engine is marked as loaded,
    and no later attempt changes it, whatever is on disk by then: a
    model file that appears afterwards is not picked up, and one that
    was loaded stays. *)
Theorem cf_model_loaded_once (env env' : Env) (self : Engine)
    (tmdb_id tmdb_id' : Z) (top_n top_n' : nat) :
  let self1 := fst (_cf_neighbors_for_tmdb env self tmdb_id top_n) in
  cf_loaded self1 = true /\
  _try_load_cf env' self1 = self1 /\
  fst (_cf_neighbors_for_tmdb env' self1 tmdb_id' top_n') = self1 /\
  (cf_loaded self = true -> self1 = self).
Proof.
  assert (H1 : fst (_cf_neighbors_for_tmdb env self tmdb_id top_n) = _try_load_cf env self).
  { unfold _cf_neighbors_for_tmdb. now destruct (cf_model (_try_load_cf env self)). }
  assert (H2 : cf_loaded (_try_load_cf env self) = true).
  { unfold _try_load_cf. destruct (cf_loaded self) eqn:E; [exact E|].
    destruct (ML_AVAILABLE env); [|reflexivity]. now destruct (cf_file env). }
  assert (H3 : forall e s, cf_loaded s = true -> _try_load_cf e s = s).
  { intros e s Hs. unfold _try_load_cf. now rewrite Hs. }
  simpl. rewrite H1. split; [exact H2|]. split; [now apply H3|]. split.
  - unfold _cf_neighbors_for_tmdb. rewrite (H3 env' _ H2).
    now destruct (cf_model (_try_load_cf env self)).
  - apply H3.
Qed.

Lemma cf_model_loaded_once_witness :
  cf_model (fst (_cf_neighbors_for_tmdb Fixtures.env_with_model
                   (fst (_cf_neighbors_for_tmdb
                           {| ML_AVAILABLE := true; cf_file := FileAbsent |}
                           new_engine 100 50)) 100 50)) = None.
Proof.
  destruct (cf_model_loaded_once {| ML_AVAILABLE := true; cf_file := FileAbsent |}
              Fixtures.env_with_model new_engine 100 100 50 50) as (_ & _ & H & _).
  cbv zeta in H. rewrite H. reflexivity.
Defined.

End LoadOnce.

(** ** Reading neighbours from the model *)

Section Neighbours.
Import PyNum Recommender ServingSpec.

Lemma collect_neighbors_spec (movie_id : Z) (index_to_movie : list Z)
    (neighbors : list nat) (scores : list Q) (top_n : nat) (P : Z -> Prop) :
  (forall j nb sc mid, neighbors !! j = Some nb -> scores !! j = Some sc ->
     index_to_movie !! nb = Some mid -> mid <> movie_id -> (0 < sc)%Q -> P mid) ->
  forall (order : list nat) (acc recs : list Z),
    collect_neighbors movie_id index_to_movie neighbors scores top_n order acc = Some recs ->
    Forall P acc -> ~ In movie_id acc ->
    Forall P recs /\ ~ In movie_id recs /\
    (length recs <= Nat.max top_n (S (length acc)))%nat.
Proof.
  intros HP. induction order as [|j order IH]; intros acc recs H Hacc Hnot.
  - simpl in H. injection H as <-. repeat split; auto. lia.
  - simpl in H.
    destruct (neighbors !! j) as [nb|] eqn:Enb; [|discriminate]. simpl in H.
    destruct (index_to_movie !! nb) as [mid|] eqn:Emid; [|discriminate]. simpl in H.
    destruct (scores !! j) as [sc|] eqn:Esc; [|discriminate]. simpl in H.
    set (acc' := if negb (Z.eqb mid movie_id) && Qltb 0 sc then acc ++ [mid] else acc) in *.
    assert (Hacc' : Forall P acc' /\ ~ In movie_id acc' /\
                    (length acc' <= S (length acc))%nat).
    { unfold acc'. destruct (negb (Z.eqb mid movie_id) && Qltb 0 sc) eqn:E.
      - apply andb_true_iff in E as [E1 E2].
        apply negb_true_iff, Z.eqb_neq in E1. apply Qltb_lt in E2.
        split; [|split].
        + apply Forall_app. split; [exact Hacc|]. constructor; [|constructor].
          now apply (HP j nb sc mid).
        + intros Hin. apply in_app_iff in Hin as [Hin | [Hin | []]]; congruence.
        + rewrite length_app. simpl. lia.
      - split; [exact Hacc|]. split; [exact Hnot|]. lia. }
    destruct Hacc' as (H1 & H2 & H3).
    destruct (top_n <=? length acc')%nat eqn:E.
    + injection H as <-. split; [exact H1|]. split; [exact H2|]. lia.
    + apply Nat.leb_gt in E.
      destruct (IH acc' recs H H1 H2) as (H4 & H5 & H6).
      split; [exact H4|]. split; [exact H5|]. lia.
Qed.

(** X2. An answer of [recommend_similar_by_movieId] never contains the
    seed; each entry comes from a slot of the seed's row whose score is
    positive, so the zero padding is never returned; it has at most
    [top_n] entries, or one when [top_n] is 0 (the length is tested only
    after an entry was added); and a seed the model does not know gets
    the empty answer. *)
Theorem neighbours_by_movie_id (movie_id : Z) (model : CFModel)
    (index_to_movie : list Z) (top_n : nat) (recs : list Z) :
  recommend_similar_by_movieId movie_id model index_to_movie top_n = Some recs ->
  ~ In movie_id recs /\
  Forall (from_positive_slot model index_to_movie movie_id) recs /\
  (length recs <= Nat.max top_n 1)%nat /\
  (item_index model !! movie_id = None -> recs = []).
Proof.
  unfold recommend_similar_by_movieId. intros H.
  destruct (item_index model !! movie_id) as [idx|] eqn:Eidx.
  - destruct (top_indices model !! idx) as [row_i|] eqn:Ei; [|discriminate].
    destruct (top_scores model !! idx) as [row_s|] eqn:Es; [|discriminate].
    simpl in H.
    destruct (collect_neighbors_spec movie_id index_to_movie row_i row_s top_n
                (from_positive_slot model index_to_movie movie_id)) with
      (order := argsort_desc row_s) (acc := @nil Z) (recs := recs)
      as (H1 & H2 & H3); auto.
    + intros j nb sc mid Hj Hs Hm _ Hpos.
      exists idx, j, nb, row_i, row_s, sc. auto 10.
    + repeat split; auto. discriminate.
  - injection H as <-. repeat split; auto. simpl. lia.
Qed.

Lemma neighbours_by_movie_id_witness :
  ~ In 1%Z [2%Z] /\ (length [2%Z] <= Nat.max 0 1)%nat.
Proof.
  destruct (neighbours_by_movie_id 1 Fixtures.small_model [1%Z; 2%Z] 0 [2%Z])
    as (H1 & _ & H3 & _).
  - vm_compute. reflexivity.
  - split; [exact H1 | exact H3].
Defined.

Lemma neighbours_ml (movie_id : Z) (model : CFModel) (index_to_movie : list Z)
    (top_n : nat) (recs : list Z) :
  recommend_similar_by_movieId movie_id model index_to_movie top_n = Some recs ->
  ~ In movie_id recs.
Proof.
  unfold recommend_similar_by_movieId. intros H.
  destruct (item_index model !! movie_id) as [idx|].
  - destruct (top_indices model !! idx) as [row_i|]; [|discriminate].
    destruct (top_scores model !! idx) as [row_s|]; [|discriminate].
    simpl in H.
    destruct (collect_neighbors_spec movie_id index_to_movie row_i row_s top_n
                (fun _ => True)) with
      (order := argsort_desc row_s) (acc := @nil Z) (recs := recs)
      as (_ & H2 & _); auto.
  - injection H as <-. auto.
Qed.

Lemma neighbours_ml_slots (movie_id : Z) (model : CFModel) (index_to_movie : list Z)
    (top_n : nat) (recs : list Z) :
  recommend_similar_by_movieId movie_id model index_to_movie top_n = Some recs ->
  Forall (from_positive_slot model index_to_movie movie_id) recs.
Proof.
  unfold recommend_similar_by_movieId. intros H.
  destruct (item_index model !! movie_id) as [idx|] eqn:Eidx.
  - destruct (top_indices model !! idx) as [row_i|] eqn:Ei; [|discriminate].
    destruct (top_scores model !! idx) as [row_s|] eqn:Es; [|discriminate].
    simpl in H.
    destruct (collect_neighbors_spec movie_id index_to_movie row_i row_s top_n
                (from_positive_slot model index_to_movie movie_id)) with
      (order := argsort_desc row_s) (acc := @nil Z) (recs := recs)
      as (H1 & _ & _); auto.
    intros j nb sc mid Hj Hs Hm _ Hpos.
    exists idx, j, nb, row_i, row_s, sc. auto 10.
  - injection H as <-. constructor.
Qed.

Lemma map_to_tmdb_spec (movie_to_tmdb : gmap Z Z) (top_n : nat) (P : Z -> Prop) :
  forall (rec_ml_ids acc : list Z),
    Forall P acc ->
    Forall (fun mid => forall tid, movie_to_tmdb !! mid = Some tid -> tid <> 0%Z -> P tid)
      rec_ml_ids ->
    Forall P (map_to_tmdb movie_to_tmdb top_n rec_ml_ids acc) /\
    (length (map_to_tmdb movie_to_tmdb top_n rec_ml_ids acc)
       <= Nat.max top_n (S (length acc)))%nat.
Proof.
  induction rec_ml_ids as [|mid rest IH]; intros acc Hacc Hall; simpl.
  - split; [exact Hacc | lia].
  - apply Forall_cons in Hall as [Hmid Hall].
    set (acc' := match movie_to_tmdb !! mid with
                 | Some tid => if Z.eqb tid 0 then acc else acc ++ [tid]
                 | None => acc
                 end).
    assert (Hacc' : Forall P acc' /\ (length acc' <= S (length acc))%nat).
    { unfold acc'. destruct (movie_to_tmdb !! mid) as [tid|] eqn:E; [|split; [auto | lia]].
      destruct (Z.eqb tid 0) eqn:E0; [split; [auto | lia]|].
      apply Z.eqb_neq in E0. split.
      - apply Forall_app. split; [exact Hacc|]. constructor; [|constructor]. now apply Hmid.
      - rewrite length_app. simpl. lia. }
    destruct Hacc' as [H1 H2].
    destruct (top_n <=? length acc')%nat eqn:E.
    + split; [exact H1 | lia].
    + apply Nat.leb_gt in E. destruct (IH acc' H1 Hall) as [H3 H4].
      split; [exact H3 | lia].
Qed.

(** The answer is built from the neighbours in their order: it is the
    start of the list of their crosswalk images. *)
Lemma map_to_tmdb_prefix (movie_to_tmdb : gmap Z Z) (top_n : nat) :
  forall (rec_ml_ids acc : list Z),
    exists k, map_to_tmdb movie_to_tmdb top_n rec_ml_ids acc
              = acc ++ firstn k (omap (crosswalk_image movie_to_tmdb) rec_ml_ids).
Proof.
  induction rec_ml_ids as [|mid rest IH]; intros acc.
  - exists 0%nat. simpl. now rewrite app_nil_r.
  - cbn [map_to_tmdb omap list_omap]. unfold crosswalk_image at 1.
    destruct (movie_to_tmdb !! mid) as [tid|]; simpl.
    + destruct (Z.eqb tid 0).
      * destruct (top_n <=? length acc)%nat.
        -- exists 0%nat. simpl. now rewrite app_nil_r.
        -- apply IH.
      * destruct (top_n <=? length (acc ++ [tid]))%nat.
        -- exists 1%nat. reflexivity.
        -- destruct (IH (acc ++ [tid])) as [k ->]. exists (S k).
           now rewrite <- app_assoc.
    + destruct (top_n <=? length acc)%nat.
      * exists 0%nat. simpl. now rewrite app_nil_r.
      * apply IH.
Qed.

(** X3. An answer of [recommend_similar_by_tmdbId] holds only non-zero
    TMDb ids, each the crosswalk image of a MovieLens neighbour: an id
    that [recommend_similar_by_movieId] returns for the seed's MovieLens
    item when asked for twice as many, other than that item, read from
    a slot with a positive score.  The answer follows the order of the
    neighbours: it is the start of the list of their crosswalk images.
    It has at most [top_n] entries (one when [top_n] is 0).  A TMDb id
    outside the crosswalk, or a model without its index-to-id list,
    gets the empty answer instead of an error. *)
Theorem neighbours_by_tmdb_id (tmdb_id : Z) (model : CFModel) (top_n : nat)
    (recs : list Z) :
  recommend_similar_by_tmdbId tmdb_id model top_n = Some recs ->
  Forall (fun tid =>
            tid <> 0%Z /\
            exists ml_seed index_to_movie rec_ml_ids mid,
              tmdbId_to_movieId model !! tmdb_id = Some ml_seed /\
              index_to_movieId model = Some index_to_movie /\
              recommend_similar_by_movieId ml_seed model index_to_movie (top_n * 2)
                = Some rec_ml_ids /\
              In mid rec_ml_ids /\ mid <> ml_seed /\
              from_positive_slot model index_to_movie ml_seed mid /\
              movieId_to_tmdbId model !! mid = Some tid) recs /\
  (forall ml_seed index_to_movie rec_ml_ids,
     tmdbId_to_movieId model !! tmdb_id = Some ml_seed ->
     index_to_movieId model = Some index_to_movie ->
     recommend_similar_by_movieId ml_seed model index_to_movie (top_n * 2)
       = Some rec_ml_ids ->
     recs `prefix_of` omap (crosswalk_image (movieId_to_tmdbId model)) rec_ml_ids) /\
  (length recs <= Nat.max top_n 1)%nat /\
  (tmdbId_to_movieId model !! tmdb_id = None \/ index_to_movieId model = None ->
     recs = []) /\
  ((forall mid, movieId_to_tmdbId model !! mid = Some tmdb_id ->
      tmdbId_to_movieId model !! tmdb_id = Some mid) ->
   ~ In tmdb_id recs).
Proof.
  intros H.
  set (P := fun tid : Z =>
              tid <> 0%Z /\
              exists ml_seed index_to_movie rec_ml_ids mid,
                tmdbId_to_movieId model !! tmdb_id = Some ml_seed /\
                index_to_movieId model = Some index_to_movie /\
                recommend_similar_by_movieId ml_seed model index_to_movie (top_n * 2)
                  = Some rec_ml_ids /\
                In mid rec_ml_ids /\ mid <> ml_seed /\
                from_positive_slot model index_to_movie ml_seed mid /\
                movieId_to_tmdbId model !! mid = Some tid).
  assert (Hmain :
    Forall P recs /\
    (forall ml_seed index_to_movie rec_ml_ids,
       tmdbId_to_movieId model !! tmdb_id = Some ml_seed ->
       index_to_movieId model = Some index_to_movie ->
       recommend_similar_by_movieId ml_seed model index_to_movie (top_n * 2)
         = Some rec_ml_ids ->
       recs `prefix_of` omap (crosswalk_image (movieId_to_tmdbId model)) rec_ml_ids) /\
    (length recs <= Nat.max top_n 1)%nat /\
    (tmdbId_to_movieId model !! tmdb_id = None \/ index_to_movieId model = None ->
       recs = [])).
  { revert H. unfold recommend_similar_by_tmdbId. intros H.
    destruct (tmdbId_to_movieId model !! tmdb_id) as [ml_seed|] eqn:Eseed.
    - destruct (index_to_movieId model) as [index_to_movie|] eqn:Eidx.
      + destruct (recommend_similar_by_movieId ml_seed model index_to_movie (top_n * 2))
          as [rec_ml_ids|] eqn:Erec; [|discriminate].
        simpl in H. injection H as <-.
        pose proof (neighbours_ml _ _ _ _ _ Erec) as Hseed.
        pose proof (neighbours_ml_slots _ _ _ _ _ Erec) as Hslots.
        rewrite List.Forall_forall in Hslots.
        destruct (map_to_tmdb_spec (movieId_to_tmdbId model) top_n P rec_ml_ids [])
          as [H1 H2].
        * constructor.
        * apply List.Forall_forall. intros mid Hmid tid Htid Hnz.
          split; [exact Hnz|]. exists ml_seed, index_to_movie, rec_ml_ids, mid.
          repeat split; auto.
          intros ->. now apply Hseed.
        * split; [exact H1|]. split; [|split; [exact H2|intros [?|?]; discriminate]].
          intros ml_seed' itm' ids' [= <-] [= <-] E. rewrite Erec in E.
          injection E as <-.
          destruct (map_to_tmdb_prefix (movieId_to_tmdbId model) top_n rec_ml_ids [])
            as [k ->].
          simpl. apply prefix_take.
      + injection H as <-. split; [constructor|].
        split; [intros ? ? ? _ [=]|]. split; [simpl; lia|reflexivity].
    - injection H as <-. split; [constructor|].
      split; [intros ? ? ? [=]|]. split; [simpl; lia|reflexivity]. }
  destruct Hmain as (H1 & H2 & H3 & H4).
  split; [exact H1|]. split; [exact H2|]. split; [exact H3|]. split; [exact H4|].
  intros Hone Hin. rewrite List.Forall_forall in H1.
  destruct (H1 _ Hin) as (_ & ml_seed & itm & ids & mid & Hs & _ & _ & _ & Hne & _ & Hm).
  apply Hone in Hm. congruence.
Qed.

Lemma neighbours_by_tmdb_id_witness :
  ~ In 100%Z [200%Z] /\ (length [200%Z] <= Nat.max 50 1)%nat.
Proof.
  destruct (neighbours_by_tmdb_id 100 Fixtures.small_model 50 [200%Z])
    as (_ & _ & H2 & _ & H4).
  - vm_compute. reflexivity.
  - split; [|exact H2]. apply H4.
    intros mid Hmid.
    destruct (decide (mid = 1%Z)) as [->|Hne]; [reflexivity|].
    exfalso. revert Hmid.
    unfold Fixtures.small_model. simpl.
    rewrite lookup_insert_ne by congruence.
    destruct (decide (mid = 2%Z)) as [->|Hne2].
    + rewrite lookup_insert_eq. discriminate.
    + rewrite lookup_insert_ne by congruence. rewrite lookup_empty. discriminate.
Defined.

End Neighbours.

(** ** Base ranking, re-ranking and selection *)

Section Ranking.
Import PyNum Recommender BuilderSpec ServingSpec.
Local Open Scope Q_scope.

(** X4. The base ranking is in descending order of final score, and it
    is a rearrangement of exactly the entries whose raw similarity is at
    least 0.03. *)
Theorem base_ranking_sorted (scored_movies : list ScoredMovie) :
  descending (List.map final_score (base_ranking scored_movies)) /\
  Permutation (base_ranking scored_movies)
    (List.filter (fun m => Qleb noise_floor (similarity_score m)) scored_movies) /\
  Forall (fun m => noise_floor <= similarity_score m) (base_ranking scored_movies).
Proof.
  unfold base_ranking. split; [|split].
  - apply sort_desc_descending.
  - apply sort_desc_perm.
  - apply sort_desc_Forall. apply List.Forall_forall. intros m Hm.
    apply List.filter_In in Hm as [_ Hm]. now apply Qleb_le.
Qed.

Lemma attach_scores_core (subset : list ScoredMovie) :
  forall scores, List.map core (attach_scores subset scores) = List.map core subset.
Proof.
  induction subset as [|m ms IH]; intros scores; [now destruct scores|].
  destruct scores as [|s ss]; [reflexivity|]. simpl. now rewrite IH.
Qed.

Lemma rerank_core_perm (reranker : option Reranker) (top_k : Z)
    (source_profile : Profile) (scored_movies : list ScoredMovie) :
  let k := Z.to_nat (Z.max 1 top_k) in
  Permutation (List.map core (firstn k (rerank reranker top_k source_profile scored_movies)))
    (List.map core (firstn k scored_movies)) /\
  skipn k (rerank reranker top_k source_profile scored_movies) = skipn k scored_movies.
Proof.
  intros k. unfold rerank. fold k.
  destruct reranker as [predict|]; [|split; reflexivity].
  destruct scored_movies as [|m0 rest] eqn:E; [split; reflexivity|]. rewrite <- E.
  match goal with |- context [predict ?x] => destruct (predict x) as [scores|] end;
    [|split; reflexivity].
  set (head := sort_desc (fun x => default 0 (rerank_score x))
                 (attach_scores (firstn k scored_movies) scores)).
  assert (Hperm : Permutation (List.map core head) (List.map core (firstn k scored_movies))).
  { unfold head. rewrite <- (attach_scores_core (firstn k scored_movies) scores).
    apply Permutation_map, sort_desc_perm. }
  assert (Hlen : length head = length (firstn k scored_movies)).
  { apply Permutation_length in Hperm. now rewrite !length_map in Hperm. }
  destruct (Nat.le_gt_cases k (length scored_movies)) as [Hk | Hk].
  - assert (Hh : length head = k) by (rewrite Hlen, length_firstn; lia).
    split.
    + rewrite firstn_app, Hh, Nat.sub_diag, firstn_O, app_nil_r.
      rewrite firstn_all2 by lia. exact Hperm.
    + rewrite skipn_app, Hh, Nat.sub_diag. simpl.
      rewrite skipn_all2 by lia. reflexivity.
  - assert (Hs : skipn k scored_movies = []) by (apply skipn_all2; lia).
    rewrite Hs, app_nil_r.
    assert (Hh : (length head <= k)%nat) by (rewrite Hlen, length_firstn; lia).
    split.
    + rewrite firstn_all2 by exact Hh. exact Hperm.
    + apply skipn_all2. exact Hh.
Qed.

(** X5. Re-ranking keeps the length of the list; it rearranges the
    first [max(1, RERANKER_TOP_K)] entries without changing their
    profiles or scores, and leaves the entries after them where they
    were.  Without a re-ranker, or when the re-ranker raises, the list
    is returned as it was. *)
Theorem rerank_rearranges_prefix (reranker : option Reranker) (top_k : Z)
    (source_profile : Profile) (scored_movies : list ScoredMovie) :
  let k := Z.to_nat (Z.max 1 top_k) in
  let out := rerank reranker top_k source_profile scored_movies in
  length out = length scored_movies /\
  Permutation (List.map core (firstn k out)) (List.map core (firstn k scored_movies)) /\
  skipn k out = skipn k scored_movies /\
  (reranker = None -> out = scored_movies) /\
  (forall predict, reranker = Some predict ->
     predict (List.map (fun item => (join_text source_profile, join_text (profile item)))
                (firstn k scored_movies)) = None ->
     out = scored_movies).
Proof.
  intros k out.
  destruct (rerank_core_perm reranker top_k source_profile scored_movies) as [Hp Hs].
  fold k in Hp, Hs. fold out in Hp, Hs.
  split; [|split; [exact Hp|split; [exact Hs|split]]].
  - rewrite <- (firstn_skipn k out), <- (firstn_skipn k scored_movies) at 1.
    rewrite !length_app, Hs. f_equal.
    apply Permutation_length in Hp. now rewrite !length_map in Hp.
  - intros ->. reflexivity.
  - intros predict -> Hnone. unfold out, rerank.
    destruct scored_movies as [|m0 rest] eqn:E; [reflexivity|]. rewrite <- E in *.
    fold k. now rewrite Hnone.
Qed.

Lemma rerank_rearranges_prefix_witness :
  length (rerank (Some (fun _ => None)) 40 Fixtures.seed Fixtures.three_scored) = 3%nat /\
  rerank (Some (fun _ => None)) 40 Fixtures.seed Fixtures.three_scored
    = Fixtures.three_scored.
Proof.
  destruct (rerank_rearranges_prefix (Some (fun _ => None)) 40 Fixtures.seed
              Fixtures.three_scored) as (Hlen & _ & _ & _ & Hraise).
  split; [exact Hlen|].
  apply (Hraise (fun _ => None)); reflexivity.
Defined.

End Ranking.

Section Selection2.
Import PyNum Recommender BuilderSpec ServingSpec.
Local Open Scope Q_scope.

Lemma omap_submseteq {A B} (f : A -> option B) (l k : list A) :
  l ⊆+ k -> omap f l ⊆+ omap f k.
Proof.
  induction 1 as [|x l k H IH|x y l|x l k H IH|l1 l2 l3 H1 IH1 H2 IH2]; simpl.
  - constructor.
  - destruct (f x); [now constructor | exact IH].
  - destruct (f x), (f y); try reflexivity. apply Permutation_submseteq, perm_swap.
  - destruct (f x); [now apply submseteq_cons | exact IH].
  - now transitivity (omap f l2).
Qed.

Lemma remove_first_perm (b : nat) (l : list nat) :
  In b l -> Permutation l (b :: remove_first b l).
Proof.
  induction l as [|y l IH]; intros Hin; [destruct Hin|]. simpl.
  destruct (Nat.eqb b y) eqn:E.
  - apply Nat.eqb_eq in E. now subst.
  - apply Nat.eqb_neq in E. destruct Hin as [Hin | Hin]; [congruence|].
    rewrite (IH Hin) at 1. apply perm_swap.
Qed.

Lemma pick_best_in (value : nat -> Q) (available : list nat) (b : nat) :
  fst (pick_best value available) = Some b -> In b available.
Proof.
  unfold pick_best. intros H.
  destruct (best_fold_spec value available None mmr_floor)
    as [(H1 & _) | (before & i & after & H1 & H2 & _)].
  - rewrite H in H1. discriminate.
  - rewrite H in H2. injection H2 as <-. rewrite H1.
    apply in_or_app. right. now left.
Qed.

(** What a completed selection loop has picked. *)
Lemma mmr_loop_picks (lam : Q) (pairwise : nat -> nat -> Q) (id_to_idx : gmap Z nat)
    (scored_movies : list ScoredMovie) (n : nat) :
  forall selected available sel,
    mmr_loop lam pairwise id_to_idx scored_movies n selected available = Some sel ->
    exists picks,
      sel = selected ++ picks /\ picks ⊆+ available /\
      length picks = Nat.min n (length available).
Proof.
  induction n as [|n IH]; intros selected available sel H; simpl in H.
  - injection H as <-. exists []. rewrite app_nil_r. repeat split. apply submseteq_nil_l.
  - destruct available as [|a rest] eqn:Ea.
    + injection H as <-. exists []. rewrite app_nil_r. repeat split. constructor.
    + rewrite <- Ea in *.
      destruct (fst (pick_best (mmr_value lam pairwise id_to_idx scored_movies selected)
                       available)) as [b|] eqn:Eb; [|discriminate].
      apply pick_best_in in Eb. pose proof (remove_first_perm b available Eb) as Hperm.
      destruct (IH _ _ _ H) as (picks & -> & Hsub & Hlen).
      exists (b :: picks). split; [now rewrite <- app_assoc|]. split.
      * rewrite Hperm. now apply submseteq_skip.
      * simpl. rewrite Hlen. apply Permutation_length in Hperm. simpl in Hperm.
        rewrite Hperm. lia.
Qed.

Lemma mmr_picks_valid (scored_movies : list ScoredMovie) (picks : list nat) :
  picks ⊆+ seq 0 (length scored_movies) ->
  length (omap (fun i => scored_movies !! i) picks) = length picks /\
  omap (fun i => scored_movies !! i) picks ⊆+ scored_movies.
Proof.
  intros Hsub. split.
  - assert (Hvalid : Forall (fun i => is_Some (scored_movies !! i)) picks).
    { apply Forall_forall. intros i Hi.
      apply (elem_of_submseteq _ _ _ Hi) in Hsub.
      apply list_elem_of_In, in_seq in Hsub. apply lookup_lt_is_Some. lia. }
    clear Hsub. induction Hvalid as [|i picks [m Hm] _ IH]; [reflexivity|].
    simpl. rewrite Hm. simpl. f_equal. exact IH.
  - transitivity (omap (fun i => scored_movies !! i) (seq 0 (length scored_movies))).
    + now apply omap_submseteq.
    + pose proof (omap_lookup_seq scored_movies []) as Hs. simpl in Hs.
      now rewrite Hs.
Qed.

Lemma mmr_select_sub (lam : Q)
    (pairwise : option (nat -> nat -> Q)) (id_to_idx : gmap Z nat)
    (scored_movies : list ScoredMovie) (n : nat) :
  mmr_select lam pairwise id_to_idx scored_movies n ⊆+ scored_movies.
Proof.
  unfold mmr_select.
  destruct pairwise as [pw|]; [|apply submseteq_take].
  destruct (mmr_indices lam pw id_to_idx scored_movies n) as [sel|] eqn:E;
    [|apply submseteq_take].
  unfold mmr_indices in E.
  apply mmr_loop_picks in E as (picks & -> & Hsub & _). simpl.
  now apply mmr_picks_valid.
Qed.

(** X6. The selection returns exactly [min(N, number of scored
    entries)] entries, whether the MMR loop completes or the plain
    prefix is taken instead, and they are entries of the scored list at
    distinct positions: nothing is invented and no entry is selected
    twice. *)
Theorem mmr_select_picks_distinct_entries (lam : Q)
    (pairwise : option (nat -> nat -> Q)) (id_to_idx : gmap Z nat)
    (scored_movies : list ScoredMovie) (n : nat) :
  length (mmr_select lam pairwise id_to_idx scored_movies n)
    = Nat.min n (length scored_movies) /\
  mmr_select lam pairwise id_to_idx scored_movies n ⊆+ scored_movies.
Proof.
  split; [|apply mmr_select_sub].
  unfold mmr_select.
  destruct pairwise as [pw|]; [|apply length_firstn].
  destruct (mmr_indices lam pw id_to_idx scored_movies n) as [sel|] eqn:E;
    [|apply length_firstn].
  unfold mmr_indices in E.
  apply mmr_loop_picks in E as (picks & -> & Hsub & Hlen). simpl.
  rewrite (proj1 (mmr_picks_valid scored_movies picks Hsub)).
  now rewrite Hlen, length_seq.
Qed.

End Selection2.

Section Pipeline.
Import PyNum Recommender BuilderSpec ServingSpec FilterSpec.
Local Open Scope Q_scope.

Local Abbreviation ids := (List.map (fun m : ScoredMovie => movie_id (profile m))).

Lemma round_half_even_floor (y : Q) : (Qfloor y <= round_half_even y)%Z.
Proof.
  unfold round_half_even.
  destruct (Qltb _ _); [lia|]. destruct (Qltb _ _); [lia|].
  destruct (Z.even _); lia.
Qed.

(** A similarity at or above the floor is reported as at least 3.0 percent. *)
Lemma percent_at_least_three (s : Q) : noise_floor <= s -> 3 <= round (s * 100) 1.
Proof.
  intros Hs. unfold round, noise_floor in *.
  change (inject_Z (10 ^ Z.of_nat 1)) with 10.
  apply Qle_shift_div_l; [reflexivity|].
  change (3 * 10) with (inject_Z 30). rewrite <- Zle_Qle.
  etransitivity; [|apply round_half_even_floor].
  change 30%Z with (Qfloor (inject_Z 30)). apply Qfloor_resp_le.
  change (inject_Z 30) with 30. lra.
Qed.

Lemma submseteq_NoDup {A} (l k : list A) : l ⊆+ k -> NoDup k -> NoDup l.
Proof.
  intros Hsub Hnd. apply submseteq_Permutation in Hsub as [k' Hk].
  rewrite Hk in Hnd. now apply NoDup_app in Hnd as [Hnd _].
Qed.

Lemma score_loop_ids (cf_neighbors : gset Z) (cands : list Profile) :
  forall sims scored,
    score_loop cf_neighbors cands sims = Some scored ->
    ids scored ⊆+ List.map movie_id cands.
Proof.
  induction cands as [|p ps IH]; intros sims scored H; simpl in H.
  - injection H as <-. constructor.
  - destruct sims as [|s sims]; [discriminate|].
    destruct (score_candidate cf_neighbors p s) as [| |m] eqn:E; [discriminate| |].
    + simpl. apply submseteq_cons. now apply (IH sims).
    + destruct (score_loop cf_neighbors ps sims) as [rest|] eqn:E'; [|discriminate].
      simpl in H. injection H as <-.
      assert (Hp : profile m = p).
      { unfold score_candidate in E. destruct (Qltb s noise_floor); [discriminate|].
        destruct (vote_average p); [|discriminate].
        destruct (popularity p); [|discriminate]. now injection E as <-. }
      simpl. rewrite Hp. apply submseteq_skip. now apply (IH sims).
Qed.

Lemma filter_ids (f : ScoredMovie -> bool) (l : list ScoredMovie) :
  ids (List.filter f l) ⊆+ ids l.
Proof.
  induction l as [|m l IH]; simpl; [constructor|].
  destruct (f m); simpl; [now apply submseteq_skip | now apply submseteq_cons].
Qed.

Lemma core_ids (l : list ScoredMovie) :
  ids l = List.map (fun c : Profile * Q * Q => movie_id (fst (fst c))) (List.map core l).
Proof. rewrite List.map_map. reflexivity. Qed.

Lemma rerank_ids (reranker : option Reranker) (top_k : Z) (source_profile : Profile)
    (l : list ScoredMovie) :
  Permutation (ids (rerank reranker top_k source_profile l)) (ids l).
Proof.
  destruct (rerank_core_perm reranker top_k source_profile l) as [Hp Hs].
  set (k := Z.to_nat (Z.max 1 top_k)) in *.
  set (out := rerank reranker top_k source_profile l) in *.
  assert (Hout : ids out = ids (firstn k out) ++ ids (skipn k out)).
  { now rewrite <- List.map_app, firstn_skipn. }
  assert (Hl : ids l = ids (firstn k l) ++ ids (skipn k l)).
  { now rewrite <- List.map_app, firstn_skipn. }
  rewrite Hout, Hl, Hs. apply Permutation_app_tail.
  rewrite !core_ids. now apply Permutation_map.
Qed.

(** X7. When the [try] block completes, the returned list has at most
    [num_recommendations] entries; each entry carries the id and title
    of its profile and is reported with a match of at least 3.0 percent;
    and when the candidate ids are distinct, no title is recommended
    twice. *)
Theorem ranked_list_bounded_and_distinct (env : Env)
    (vectorize : string -> list string -> option (list Q))
    (pairwise_of : string -> list string -> option (nat -> nat -> Q))
    (reranker : option Reranker) (top_k : Z)
    (self self' : Engine) (source_movie_id : Z) (source_profile : Profile)
    (cands : list Profile) (n : nat) (recs : list Recommendation) :
  ranked_recommendations env vectorize pairwise_of reranker top_k
    self source_movie_id source_profile cands n = (self', Some recs) ->
  (length recs <= n)%nat /\
  (length recs <= length cands)%nat /\
  Forall (fun r => rec_id r = movie_id (rec_profile r) /\
                   rec_title r = title (rec_profile r) /\
                   3 <= rec_similarity_score r) recs /\
  (NoDup (List.map movie_id cands) -> NoDup (List.map rec_id recs)).
Proof.
  unfold ranked_recommendations. intros H.
  destruct (vectorize _ _) as [sims|]; [|discriminate].
  destruct (_cf_neighbors_for_tmdb env self source_movie_id 50) as [self1 cf].
  injection H as _ H.
  destruct cf as [cf_neighbors|]; [|discriminate]. simpl in H.
  destruct (score_loop cf_neighbors cands sims) as [scored|] eqn:Es; [|discriminate].
  simpl in H. injection H as <-.
  set (ranked := rerank reranker top_k source_profile (base_ranking scored)).
  set (final := mmr_select lambda_rel _ _ ranked n).
  assert (Hids : List.map rec_id (List.map to_recommendation (firstn n final))
                 ⊆+ List.map movie_id cands).
  { rewrite List.map_map.
    change (List.map (fun x => rec_id (to_recommendation x)) (firstn n final))
      with (ids (firstn n final)).
    transitivity (ids final).
    { change (ids ?l) with ((fun m : ScoredMovie => movie_id (profile m)) <$> l).
      apply fmap_submseteq, submseteq_take. }
    transitivity (ids ranked).
    { change (ids ?l) with ((fun m : ScoredMovie => movie_id (profile m)) <$> l).
      apply fmap_submseteq.
      apply mmr_select_sub. }
    unfold ranked. rewrite rerank_ids. unfold base_ranking.
    transitivity (ids (List.filter (fun m => Qleb noise_floor (similarity_score m)) scored)).
    { apply Permutation_submseteq, Permutation_map, sort_desc_perm. }
    transitivity (ids scored); [apply filter_ids|].
    now apply (score_loop_ids cf_neighbors cands sims). }
  split; [|split; [|split]].
  - rewrite length_map. apply firstn_le_length.
  - apply submseteq_length in Hids. rewrite !length_map in Hids.
    rewrite length_map. exact Hids.
  - apply Forall_map, Forall_take.
    apply score_loop_from_candidate in Es.
    eapply Forall_impl.
    + apply mmr_select_Forall, rerank_Forall, base_ranking_Forall, Es.
      intros m s Hm. exact Hm.
    + intros m (i & _ & _ & Hfloor). simpl. repeat split.
      now apply percent_at_least_three.
  - intros Hnd. now apply (submseteq_NoDup _ _ Hids).
Qed.

Lemma ranked_list_bounded_and_distinct_witness :
  NoDup (List.map movie_id [Fixtures.cand_a; Fixtures.cand_b]) /\
  NoDup (List.map rec_id
           (default [] (snd (ranked_recommendations Fixtures.env_with_model
                               Fixtures.sims_low_high Fixtures.pairwise_flat None 40
                               new_engine 100 Fixtures.seed
                               [Fixtures.cand_a; Fixtures.cand_b] 12)))).
Proof.
  assert (Hnd : NoDup (List.map movie_id [Fixtures.cand_a; Fixtures.cand_b])).
  { apply (bool_decide_unpack (NoDup _)). vm_compute. reflexivity. }
  split; [exact Hnd|].
  set (r := ranked_recommendations Fixtures.env_with_model Fixtures.sims_low_high
              Fixtures.pairwise_flat None 40 new_engine 100 Fixtures.seed
              [Fixtures.cand_a; Fixtures.cand_b] 12).
  assert (E : r = (fst r, Some (default [] (snd r)))) by (vm_compute; reflexivity).
  exact (proj2 (proj2 (proj2
           (ranked_list_bounded_and_distinct Fixtures.env_with_model
              Fixtures.sims_low_high Fixtures.pairwise_flat None 40 new_engine
              (fst r) 100 Fixtures.seed [Fixtures.cand_a; Fixtures.cand_b] 12
              (default [] (snd r)) E))) Hnd).
Defined.

End Pipeline.

(** ** Interaction events *)

Section Events.
Import PyStr PyNum Recommender UserPreference PrefSpec Tracking EventSpec.
Local Open Scope Q_scope.

Lemma last_n_spec {A} (n : nat) (l : list A) :
  (0 < n)%nat ->
  (exists dropped, l = dropped ++ last_n n l) /\
  length (last_n n l) = Nat.min n (length l).
Proof.
  intros Hn. unfold last_n.
  destruct (Nat.eqb_spec n 0) as [->|_]; [lia|].
  split.
  - exists (firstn (length l - n) l). symmetry. apply firstn_skipn.
  - rewrite length_skipn. lia.
Qed.

Lemma keeps_latest_last_n {A} (cap : nat) (old : list A) (x : A) :
  (0 < cap)%nat -> keeps_latest cap old x (last_n cap (old ++ [x])).
Proof.
  intros Hcap.
  destruct (last_n_spec cap (old ++ [x]) Hcap) as [[dropped Hd] Hlen].
  assert (Hlen' : length (last_n cap (old ++ [x])) = Nat.min cap (S (length old))).
  { rewrite Hlen, length_app. simpl. f_equal. lia. }
  split; [now exists dropped|split; [exact Hlen'|]].
  destruct (last_n cap (old ++ [x])) as [|y rest] eqn:E using rev_ind.
  - simpl in Hlen'. lia.
  - rewrite app_assoc in Hd. apply app_inj_tail in Hd as [_ ->].
    apply last_snoc.
Qed.

Lemma load_other (store : gmap string ProfileFile) (now uid uid' : string) :
  uid' <> uid -> snd (load_user_profile store now uid) !! uid' = store !! uid'.
Proof.
  intros Hne. unfold load_user_profile.
  destruct (store !! uid) as [[| |p]|]; simpl; try reflexivity.
  now apply lookup_delete_ne.
Qed.

Lemma with_profile_fst (disk_ok : bool) (loaded_at : string)
    (store : gmap string ProfileFile) (uid : string)
    (change : UserProfile -> UserProfile) :
  fst (with_profile disk_ok loaded_at store uid change)
    = change (fst (load_user_profile store loaded_at uid)).
Proof.
  unfold with_profile. now destruct (load_user_profile store loaded_at uid).
Qed.

Lemma with_profile_snd (disk_ok : bool) (loaded_at : string)
    (store : gmap string ProfileFile) (uid : string)
    (change : UserProfile -> UserProfile) :
  snd (with_profile disk_ok loaded_at store uid change)
    = save_user_profile disk_ok (snd (load_user_profile store loaded_at uid)) uid
        (change (fst (load_user_profile store loaded_at uid))).
Proof.
  unfold with_profile. now destruct (load_user_profile store loaded_at uid).
Qed.

Lemma load_saved (store : gmap string ProfileFile) (now uid : string) (p : UserProfile) :
  load_user_profile (save_user_profile true store uid p) now uid
    = (p, save_user_profile true store uid p).
Proof.
  unfold load_user_profile, save_user_profile. now rewrite lookup_insert_eq.
Qed.

(** X8. The three bounded histories.  Each of [track_view],
    [track_trailer_click] and [track_search] appends the new entry with
    its timestamp and keeps the most recent 100, 50 and 50 entries in
    their order; the new entry is always the last one kept, and nothing
    else in the profile changes. *)
Theorem histories_keep_latest (disk_ok : bool) (loaded_at now : string)
    (store : gmap string ProfileFile) (uid : string) (movie_id : Z) (query : string) :
  let loaded := fst (load_user_profile store loaded_at uid) in
  let after_view := fst (track_view disk_ok loaded_at now store uid movie_id) in
  let after_click := fst (track_trailer_click disk_ok loaded_at now store uid movie_id) in
  let after_search := fst (track_search disk_ok loaded_at now store uid query) in
  keeps_latest 100 (viewed loaded) (movie_id, now) (viewed after_view)
  /\ keeps_latest 50 (clicked_trailers loaded) (movie_id, now)
       (clicked_trailers after_click)
  /\ keeps_latest 50 (searches loaded) (query, now) (searches after_search)
  /\ beyond_histories after_view = beyond_histories loaded
  /\ beyond_histories after_click = beyond_histories loaded
  /\ beyond_histories after_search = beyond_histories loaded
  /\ clicked_trailers after_view = clicked_trailers loaded
  /\ searches after_view = searches loaded
  /\ viewed after_click = viewed loaded
  /\ searches after_click = searches loaded
  /\ viewed after_search = viewed loaded
  /\ clicked_trailers after_search = clicked_trailers loaded.
Proof.
  intros loaded after_view after_click after_search.
  unfold after_view, after_click, after_search,
    track_view, track_trailer_click, track_search.
  rewrite !with_profile_fst. fold loaded.
  unfold view_profile, trailer_profile, search_profile. simpl.
  repeat split; try reflexivity; try (apply keeps_latest_last_n; lia).
  all: destruct (keeps_latest_last_n 100 (viewed loaded) (movie_id, now))
         as ((d1 & H1) & H2 & H3); try lia;
       destruct (keeps_latest_last_n 50 (clicked_trailers loaded) (movie_id, now))
         as ((d2 & H4) & H5 & H6); try lia;
       destruct (keeps_latest_last_n 50 (searches loaded) (query, now))
         as ((d3 & H7) & H8 & H9); try lia; eauto.
Qed.

Lemma elem_of_snoc_new {A} (l : list A) (x : A) : x ∈ l ++ [x].
Proof. apply elem_of_app. right. apply list_elem_of_singleton. reflexivity. Qed.

Lemma NoDup_snoc_new {A} (l : list A) (x : A) : x ∉ l -> NoDup l -> NoDup (l ++ [x]).
Proof.
  intros Hx Hnd. apply NoDup_app. split; [exact Hnd|]. split.
  - intros y Hy Hy'. apply list_elem_of_singleton in Hy'. now subst.
  - apply NoDup_singleton.
Qed.

Lemma list_remove_absent (x : Z) (l : list Z) : x ∉ l -> list_remove x l = l.
Proof.
  induction l as [|y l IH]; intros Hx; [reflexivity|]. simpl.
  destruct (Z.eqb_spec x y) as [->|Hne].
  - exfalso. apply Hx. left.
  - f_equal. apply IH. intros H. apply Hx. now right.
Qed.

Lemma list_remove_perm (x : Z) (l : list Z) : x ∈ l -> l ≡ₚ x :: list_remove x l.
Proof.
  induction l as [|y l IH]; intros Hx; [now apply elem_of_nil in Hx|]. simpl.
  destruct (Z.eqb_spec x y) as [->|Hne]; [reflexivity|].
  apply elem_of_cons in Hx as [->|Hx]; [congruence|].
  rewrite (IH Hx) at 1. apply Permutation_swap.
Qed.

Lemma list_remove_sublist (x : Z) (l : list Z) : list_remove x l `sublist_of` l.
Proof.
  induction l as [|y l IH]; [constructor|]. simpl.
  destruct (Z.eqb x y); [now apply sublist_cons|now apply sublist_skip].
Qed.

Lemma list_remove_snoc (x : Z) (l : list Z) : x ∉ l -> list_remove x (l ++ [x]) = l.
Proof.
  induction l as [|y l IH]; intros Hx; simpl.
  - now rewrite Z.eqb_refl.
  - destruct (Z.eqb_spec x y) as [->|Hne].
    + exfalso. apply Hx. left.
    + f_equal. apply IH. intros H. apply Hx. now right.
Qed.

(** X9. [add_to_watchlist] puts the title on the watchlist at the end,
    unless it is there already; it never introduces a duplicate, and
    adding the same title a second time changes neither the profile nor
    the stored file. *)
Theorem add_to_watchlist_once (disk_ok : bool) (loaded_at loaded_at' : string)
    (store : gmap string ProfileFile) (uid : string) (movie_id : Z) :
  let loaded := fst (load_user_profile store loaded_at uid) in
  let result := fst (add_to_watchlist disk_ok loaded_at store uid movie_id) in
  movie_id ∈ watchlist result
  /\ (movie_id ∈ watchlist loaded -> result = loaded)
  /\ (movie_id ∉ watchlist loaded -> watchlist result = watchlist loaded ++ [movie_id])
  /\ (NoDup (watchlist loaded) -> NoDup (watchlist result))
  /\ add_to_watchlist true loaded_at'
       (snd (add_to_watchlist true loaded_at store uid movie_id)) uid movie_id
     = add_to_watchlist true loaded_at store uid movie_id.
Proof.
  intros loaded result. unfold result, add_to_watchlist.
  rewrite with_profile_fst. fold loaded.
  assert (Hidem : forall p, add_watchlist_profile (add_watchlist_profile p movie_id) movie_id
                            = add_watchlist_profile p movie_id).
  { intros p. destruct (decide (movie_id ∈ watchlist p)) as [H|H].
    - assert (E : add_watchlist_profile p movie_id = p).
      { unfold add_watchlist_profile. now rewrite bool_decide_eq_true_2. }
      now rewrite !E.
    - assert (E : add_watchlist_profile p movie_id
                  = set_watchlist p (watchlist p ++ [movie_id])).
      { unfold add_watchlist_profile. now rewrite bool_decide_eq_false_2. }
      rewrite !E. unfold add_watchlist_profile.
      rewrite bool_decide_eq_true_2; [reflexivity|]. simpl. apply elem_of_snoc_new. }
  unfold add_watchlist_profile at 1 2 3 4.
  split; [|split; [|split; [|split]]].
  - case_bool_decide as H; [exact H|]. simpl. apply elem_of_snoc_new.
  - intros H. now rewrite bool_decide_eq_true_2.
  - intros H. now rewrite bool_decide_eq_false_2.
  - intros Hnd. case_bool_decide as H; [exact Hnd|]. simpl.
    now apply NoDup_snoc_new.
  - apply injective_projections.
    + rewrite !with_profile_fst, with_profile_snd, load_saved. simpl. apply Hidem.
    + rewrite !with_profile_snd, load_saved. simpl. rewrite Hidem.
      unfold save_user_profile. apply insert_insert_eq.
Qed.

(** X10. [remove_from_watchlist] takes one occurrence of the title off
    the watchlist and keeps the order of the rest: a title that is not
    listed changes nothing, a duplicate-free watchlist no longer holds
    the title afterwards, and removing a title that was just added to a
    watchlist without it gives the former watchlist back. *)
Theorem remove_from_watchlist_once (disk_ok : bool) (loaded_at loaded_at' : string)
    (store : gmap string ProfileFile) (uid : string) (movie_id : Z) :
  let loaded := fst (load_user_profile store loaded_at uid) in
  let result := fst (remove_from_watchlist disk_ok loaded_at store uid movie_id) in
  (movie_id ∉ watchlist loaded -> result = loaded)
  /\ (movie_id ∈ watchlist loaded -> watchlist loaded ≡ₚ movie_id :: watchlist result)
  /\ watchlist result `sublist_of` watchlist loaded
  /\ (NoDup (watchlist loaded) ->
        (movie_id ∉ watchlist result) /\ NoDup (watchlist result))
  /\ (movie_id ∉ watchlist loaded ->
        watchlist (fst (remove_from_watchlist disk_ok loaded_at'
                          (snd (add_to_watchlist true loaded_at store uid movie_id))
                          uid movie_id))
        = watchlist loaded).
Proof.
  intros loaded result. unfold result, remove_from_watchlist.
  rewrite with_profile_fst. fold loaded. unfold remove_watchlist_profile.
  split; [|split; [|split; [|split]]].
  - intros H. now rewrite bool_decide_eq_false_2.
  - intros H. rewrite bool_decide_eq_true_2 by exact H. simpl.
    now apply list_remove_perm.
  - case_bool_decide as H; [simpl; apply list_remove_sublist|reflexivity].
  - intros Hnd. case_bool_decide as H; simpl.
    + pose proof (list_remove_perm _ _ H) as Hp.
      rewrite Hp in Hnd. apply NoDup_cons in Hnd. exact Hnd.
    + split; assumption.
  - intros H. unfold add_to_watchlist.
    rewrite with_profile_fst, with_profile_snd, load_saved. simpl. fold loaded.
    assert (E : add_watchlist_profile loaded movie_id
                = set_watchlist loaded (watchlist loaded ++ [movie_id])).
    { unfold add_watchlist_profile. now rewrite bool_decide_eq_false_2. }
    rewrite E. simpl. rewrite bool_decide_eq_true_2 by apply elem_of_snoc_new. simpl.
    now apply list_remove_snoc.
Qed.

(** X11. After [track_not_interested] the title is on the list of
    disliked titles, once; ratings and learned preferences are as
    before; and with a working disk the next load of the profile finds
    it there, so that every entry for this title gets the penalty of
    0.5 in the personalized ranking. *)
Theorem not_interested_then_penalised (loaded_at loaded_at' : string)
    (store : gmap string ProfileFile) (uid : string) (movie_id : Z) :
  let loaded := fst (load_user_profile store loaded_at uid) in
  let result := fst (track_not_interested true loaded_at store uid movie_id) in
  let store' := snd (track_not_interested true loaded_at store uid movie_id) in
  let reloaded := fst (load_user_profile store' loaded_at' uid) in
  reloaded = result
  /\ movie_id ∈ disliked result
  /\ (movie_id ∈ disliked loaded -> result = loaded)
  /\ (movie_id ∉ disliked loaded -> disliked result = disliked loaded ++ [movie_id])
  /\ (NoDup (disliked loaded) -> NoDup (disliked result))
  /\ ratings result = ratings loaded
  /\ preferences result = preferences loaded
  /\ (forall (r : Rec) (p : Profile),
        r_profile r = Some p -> Recommender.movie_id p = movie_id ->
        adjusted_score reloaded r
          = base_score r
            + _calculate_personalization_score (preferences loaded) (Some p) - 0.5).
Proof.
  intros loaded result store' reloaded.
  assert (Hre : reloaded = result).
  { unfold reloaded, store', result, track_not_interested.
    now rewrite with_profile_snd, load_saved, with_profile_fst. }
  assert (Hres : result = not_interested_profile loaded movie_id).
  { unfold result, track_not_interested. now rewrite with_profile_fst. }
  assert (Hin : movie_id ∈ disliked result).
  { rewrite Hres. unfold not_interested_profile.
    case_bool_decide as H; [exact H|]. simpl. apply elem_of_snoc_new. }
  assert (Hprefs : preferences result = preferences loaded).
  { rewrite Hres. unfold not_interested_profile. now case_bool_decide. }
  split; [exact Hre|split; [exact Hin|]].
  split; [|split; [|split; [|split; [|split; [exact Hprefs|]]]]].
  - intros H. rewrite Hres. unfold not_interested_profile.
    now rewrite bool_decide_eq_true_2.
  - intros H. rewrite Hres. unfold not_interested_profile.
    now rewrite bool_decide_eq_false_2.
  - intros Hnd. rewrite Hres. unfold not_interested_profile.
    case_bool_decide as H; [exact Hnd|]. simpl. now apply NoDup_snoc_new.
  - rewrite Hres. unfold not_interested_profile. now case_bool_decide.
  - intros r p Hp Hid. rewrite Hre, <- Hprefs.
    apply adjusted_score_disliked; [exact Hp|]. now rewrite Hid.
Qed.

(** X12. [track_more_like] lists the title as liked, once, but
    reinforces the preferences at every call, also for a title that is
    liked already: each feature of the title's data gains the weight
    0.5 (actors 0.25, keywords 0.15).  It leaves the ratings and the
    list of disliked titles alone, so liking a title does not lift a
    penalty set before; without data the preferences stay as they
    were. *)
Theorem more_like_reinforces (disk_ok : bool) (loaded_at : string)
    (store : gmap string ProfileFile) (uid : string) (movie_id : Z)
    (movie_data : option MovieData) :
  let loaded := fst (load_user_profile store loaded_at uid) in
  let result := fst (track_more_like disk_ok loaded_at store uid movie_id movie_data) in
  movie_id ∈ liked result
  /\ (movie_id ∈ liked loaded -> liked result = liked loaded)
  /\ (movie_id ∉ liked loaded -> liked result = liked loaded ++ [movie_id])
  /\ (NoDup (liked loaded) -> NoDup (liked result))
  /\ ratings result = ratings loaded
  /\ disliked result = disliked loaded
  /\ (movie_data = None -> preferences result = preferences loaded)
  /\ (forall md, movie_data = Some md ->
        accumulated 0.5
          (List.map entry_name (default [] (md_genres md)))
          (pref_genres (preferences loaded)) (pref_genres (preferences result)) /\
        accumulated 0.5
          (default [] (md_director md))
          (pref_directors (preferences loaded)) (pref_directors (preferences result)) /\
        accumulated (0.5 * 0.5)
          (List.map entry_name (firstn 5 (default [] (md_cast md))))
          (pref_actors (preferences loaded)) (pref_actors (preferences result)) /\
        accumulated (0.5 * 0.3)
          (List.map entry_name (firstn 10 (default [] (md_keywords md))))
          (pref_keywords (preferences loaded)) (pref_keywords (preferences result))).
Proof.
  intros loaded result.
  assert (Hres : result = more_like_profile loaded movie_id movie_data).
  { unfold result, track_more_like. now rewrite with_profile_fst. }
  rewrite Hres. unfold more_like_profile.
  set (p1 := if bool_decide (movie_id ∈ liked loaded) then loaded
             else set_liked loaded (liked loaded ++ [movie_id])).
  assert (Hl : movie_id ∈ liked p1).
  { unfold p1. case_bool_decide as H; [exact H|]. simpl. apply elem_of_snoc_new. }
  assert (Hr : ratings p1 = ratings loaded) by (unfold p1; now case_bool_decide).
  assert (Hd : disliked p1 = disliked loaded) by (unfold p1; now case_bool_decide).
  assert (Hp : preferences p1 = preferences loaded) by (unfold p1; now case_bool_decide).
  assert (Hk : liked (match movie_data with
                                 | Some md => set_preferences p1
                                     (_update_preferences (preferences p1) md 0.5)
                                 | None => p1
                                 end) = liked p1) by (now destruct movie_data).
  split; [|split; [|split; [|split; [|split; [|split; [|split]]]]]].
  - now destruct movie_data.
  - intros H. destruct movie_data; simpl; unfold p1; now rewrite bool_decide_eq_true_2.
  - intros H. destruct movie_data; simpl; unfold p1; now rewrite bool_decide_eq_false_2.
  - intros Hnd.
    assert (Hnd1 : NoDup (liked p1)).
    { unfold p1. case_bool_decide as H; [exact Hnd|]. simpl. now apply NoDup_snoc_new. }
    now destruct movie_data.
  - now destruct movie_data.
  - now destruct movie_data.
  - intros ->. exact Hp.
  - intros md ->. simpl. rewrite Hp.
    repeat split; try apply bump_all_accumulated.
    all: apply (bump_all_accumulated _ _ _).
Qed.

(** X13. A title that has just been rated is never recommended to that
    user again: whatever the base recommendations, the personalized
    list computed from the profile stored by [track_rating] holds no
    entry whose profile carries the rated id. *)
Theorem rated_title_not_recommended_again (loaded_at now loaded_at' : string)
    (store : gmap string ProfileFile) (uid : string) (movie_id : Z)
    (r : Q) (movie_data : option MovieData)
    (base_engine : nat -> list Rec) (n : nat) :
  let store' := snd (track_rating true loaded_at now store uid movie_id r movie_data) in
  let reloaded := fst (load_user_profile store' loaded_at' uid) in
  reloaded = fst (track_rating true loaded_at now store uid movie_id r movie_data)
  /\ forall out p,
       In out (get_personalized_recommendations reloaded base_engine n) ->
       r_profile out = Some p -> Recommender.movie_id p <> movie_id.
Proof.
  intros store' reloaded.
  assert (Hre : reloaded
                = rate_profile now (fst (load_user_profile store loaded_at uid))
                    movie_id r movie_data).
  { unfold reloaded, store', track_rating.
    destruct (load_user_profile store loaded_at uid) as [p0 s0]. cbn [fst snd].
    now rewrite load_saved. }
  split.
  { rewrite Hre. unfold track_rating.
    now destruct (load_user_profile store loaded_at uid). }
  intros out p Hin Hp Hid.
  unfold get_personalized_recommendations in Hin.
  destruct (base_engine (n * 2)%nat) as [|b0 rest] eqn:Eb; [destruct Hin|].
  apply In_firstn in Hin. apply in_personalized_recs in Hin as (b & _ & Hone).
  apply personalize_one_unrated in Hone as (Hnone & _ & Hprof & _).
  rewrite <- Hprof, Hp in Hnone. simpl in Hnone.
  rewrite Hre, rate_profile_ratings, Hid, lookup_insert_eq in Hnone. discriminate.
Qed.

End Events.

(** ** Learned preferences and the personalized list *)

Section PreferenceInvariant.
Import PyStr PyNum Recommender UserPreference PrefSpec Tracking EventSpec.
Local Open Scope Q_scope.

Lemma scale_pos (ndigits : nat) : 0 < inject_Z (10 ^ Z.of_nat ndigits).
Proof.
  change 0 with (inject_Z 0). rewrite <- Zlt_Qlt.
  apply Z.pow_pos_nonneg; lia.
Qed.

Lemma round_nonneg (x : Q) (ndigits : nat) : 0 <= x -> 0 <= round x ndigits.
Proof.
  intros Hx. unfold round.
  pose proof (scale_pos ndigits) as Hs.
  set (scale := inject_Z (10 ^ Z.of_nat ndigits)) in *.
  assert (H0 : (0 <= round_half_even (x * scale))%Z).
  { pose proof (round_half_even_floor (x * scale)) as Hf.
    assert (Hfl : (Qfloor 0 <= Qfloor (x * scale))%Z).
    { apply Qfloor_resp_le. nra. }
    change (Qfloor 0) with 0%Z in Hfl. lia. }
  apply Qle_shift_div_l; [exact Hs|].
  rewrite Qmult_0_l. change 0 with (inject_Z 0). now rewrite <- Zle_Qle.
Qed.

Lemma bump_all_nonneg (w : Q) (names : list string) :
  0 <= w -> forall acc, nonneg_acc acc -> nonneg_acc (bump_all w names acc).
Proof.
  intros Hw. unfold bump_all.
  induction names as [|k names IH]; intros acc Hacc; [exact Hacc|]. simpl.
  apply IH. destruct (truthy_str k); [|exact Hacc].
  intros k' v. unfold bump.
  destruct (decide (k' = k)) as [->|Hne].
  - rewrite lookup_insert_eq. intros [= <-]. apply round_nonneg.
    assert (0 <= default 0 (acc !! k)).
    { destruct (acc !! k) as [v0|] eqn:E; simpl; [now apply (Hacc k)|lra]. }
    lra.
  - rewrite lookup_insert_ne by congruence. apply Hacc.
Qed.

Lemma bump_all_keys (w : Q) (names : list string) (k : string) :
  forall acc, is_Some (acc !! k) -> is_Some (bump_all w names acc !! k).
Proof.
  unfold bump_all.
  induction names as [|k0 names IH]; intros acc Hk; [exact Hk|]. simpl.
  apply IH. destruct (truthy_str k0); [|exact Hk].
  unfold bump. destruct (decide (k = k0)) as [->|Hne].
  - rewrite lookup_insert_eq. eauto.
  - now rewrite lookup_insert_ne by congruence.
Qed.

Lemma update_preferences_nonneg (prefs : Preferences) (md : MovieData) (w : Q) :
  0 <= w -> nonneg_prefs prefs -> nonneg_prefs (_update_preferences prefs md w).
Proof.
  intros Hw Hp which.
  destruct which; simpl; apply bump_all_nonneg; try lra;
    first [apply (Hp Genres)|apply (Hp Directors)|apply (Hp Actors)|apply (Hp Keywords)].
Qed.

Lemma update_preferences_keys (prefs : Preferences) (md : MovieData) (w : Q) :
  keys_kept prefs (_update_preferences prefs md w).
Proof. intros which k Hk. destruct which; simpl; now apply bump_all_keys. Qed.

Lemma overlap_fold_nonneg (acc : gmap string Q) (w : Q) (names : list string) :
  nonneg_acc acc -> 0 <= w ->
  forall s, 0 <= s ->
    0 <= fold_left (fun s k => match acc !! k with
                               | Some v => s + v * w
                               | None => s
                               end) names s.
Proof.
  intros Hacc Hw. induction names as [|k names IH]; intros s Hs; [exact Hs|].
  simpl. apply IH. destruct (acc !! k) as [v|] eqn:E; [|exact Hs].
  pose proof (Hacc k v E). nra.
Qed.

Lemma overlap_nonneg (acc : gmap string Q) (w : Q) (names : list string) :
  nonneg_acc acc -> 0 <= w -> 0 <= overlap acc w names.
Proof. intros Hacc Hw. apply overlap_fold_nonneg; [exact Hacc|exact Hw|lra]. Qed.

Lemma pmin_cases (a c : Q) : (pmin a c == a /\ a <= c) \/ (pmin a c == c /\ c <= a).
Proof.
  unfold pmin. destruct (Qltb c a) eqn:E.
  - apply Qltb_lt in E. right. split; [reflexivity|lra].
  - apply Qltb_ge in E. left. split; [reflexivity|lra].
Qed.

Lemma personalization_score_range (prefs : Preferences) (p : option Profile) :
  nonneg_prefs prefs ->
  0 <= _calculate_personalization_score prefs p <= 0.30.
Proof.
  intros Hp. unfold _calculate_personalization_score.
  assert (Hg : 0 <= genre_score prefs p).
  { apply overlap_nonneg; [apply (Hp Genres)|lra]. }
  assert (Hd : 0 <= director_score prefs p).
  { apply overlap_nonneg; [apply (Hp Directors)|lra]. }
  assert (Ha : 0 <= actor_score prefs p).
  { apply overlap_nonneg; [apply (Hp Actors)|lra]. }
  destruct (pmin_cases (genre_score prefs p) 0.15) as [[E1 _]|[E1 _]];
  destruct (pmin_cases (director_score prefs p) 0.10) as [[E2 _]|[E2 _]];
  destruct (pmin_cases (actor_score prefs p) 0.05) as [[E3 _]|[E3 _]];
  match goal with
  | |- _ <= pmin ?s _ <= _ => destruct (pmin_cases s 0.30) as [[E4 H4]|[E4 H4]]
  end; lra.
Qed.

(** X14. Learning never forgets and never goes negative.  Whatever the
    rating and whatever the title's data, [track_rating] and
    [track_more_like] keep every feature the profile knew, and when no
    accumulator of the loaded profile is negative, none is negative
    afterwards. *)
Theorem learning_keeps_preferences_nonnegative (disk_ok : bool)
    (loaded_at now : string) (store : gmap string ProfileFile) (uid : string)
    (movie_id : Z) (r : Q) (movie_data : option MovieData) :
  let loaded := fst (load_user_profile store loaded_at uid) in
  let rated := fst (track_rating disk_ok loaded_at now store uid movie_id r movie_data) in
  let liked := fst (track_more_like disk_ok loaded_at store uid movie_id movie_data) in
  keys_kept (preferences loaded) (preferences rated)
  /\ keys_kept (preferences loaded) (preferences liked)
  /\ (nonneg_prefs (preferences loaded) ->
        nonneg_prefs (preferences rated) /\ nonneg_prefs (preferences liked)).
Proof.
  intros loaded rated liked.
  assert (Hr : rated = rate_profile now loaded movie_id r movie_data).
  { unfold rated, loaded, track_rating.
    now destruct (load_user_profile store loaded_at uid). }
  assert (Hl : liked = more_like_profile loaded movie_id movie_data).
  { unfold liked, track_more_like. now rewrite with_profile_fst. }
  assert (Hlp : forall p1, p1 = (if bool_decide (movie_id ∈ UserPreference.liked loaded)
                                 then loaded
                                 else set_liked loaded
                                        (UserPreference.liked loaded ++ [movie_id])) ->
                           preferences p1 = preferences loaded).
  { intros p1 ->. now case_bool_decide. }
  rewrite Hr, Hl. unfold rate_profile, more_like_profile.
  split; [|split; [|intros Hnn; split]].
  - destruct movie_data as [md|]; [|intros which k Hk; exact Hk].
    destruct (Qleb 4 r); [|intros which k Hk; exact Hk].
    simpl. apply update_preferences_keys.
  - destruct movie_data as [md|].
    + simpl. rewrite (Hlp _ eq_refl). apply update_preferences_keys.
    + rewrite (Hlp _ eq_refl). intros which k Hk; exact Hk.
  - destruct movie_data as [md|]; [|exact Hnn].
    destruct (Qleb 4 r) eqn:E; [|exact Hnn].
    simpl. apply update_preferences_nonneg; [|exact Hnn].
    apply Qleb_le in E. apply Qle_shift_div_l; lra.
  - destruct movie_data as [md|].
    + simpl. rewrite (Hlp _ eq_refl). apply update_preferences_nonneg; [lra|exact Hnn].
    + now rewrite (Hlp _ eq_refl).
Qed.

Lemma drama_fan_nonneg : nonneg_prefs (preferences Fixtures.drama_fan).
Proof.
  intros which k v. destruct which; simpl; intros Hk.
  - apply lookup_insert_Some in Hk as [[_ <-]|[_ Hk]]; [lra|].
    now rewrite lookup_empty in Hk.
  - now rewrite lookup_empty in Hk.
  - now rewrite lookup_empty in Hk.
  - now rewrite lookup_empty in Hk.
Qed.

Lemma learning_keeps_preferences_nonnegative_witness :
  nonneg_prefs
    (preferences
       (fst (track_rating true "2024-05-01T11:59:59" "2024-05-01T12:00:00"
               Fixtures.one_user "u1" 78 5 (Some Fixtures.drama_details)))).
Proof.
  destruct (learning_keeps_preferences_nonnegative true "2024-05-01T11:59:59"
              "2024-05-01T12:00:00" Fixtures.one_user "u1" 78 5
              (Some Fixtures.drama_details)) as (_ & _ & Hnn).
  apply Hnn. exact drama_fan_nonneg.
Defined.

End PreferenceInvariant.

Section PersonalizedList.
Import PyStr PyNum Recommender UserPreference PrefSpec Tracking EventSpec BuilderSpec.
Local Open Scope Q_scope.

Lemma descending_firstn (n : nat) (l : list Q) : descending l -> descending (firstn n l).
Proof.
  intros H p q a b Hpq Hp Hq.
  apply lookup_take_Some in Hp as [Hp _]. apply lookup_take_Some in Hq as [Hq _].
  exact (H p q a b Hpq Hp Hq).
Qed.

Lemma round_half_even_le (y : Q) (n : Z) : y <= inject_Z n -> (round_half_even y <= n)%Z.
Proof.
  intros Hy. unfold round_half_even.
  pose proof (Qfloor_le y) as Hlo. pose proof (Qlt_floor y) as Hhi.
  assert (Hfn : (Qfloor y <= n)%Z).
  { rewrite Zle_Qle. lra. }
  destruct (Z.eq_dec (Qfloor y) n) as [E|Hne].
  - assert (Hfrac : y - inject_Z (Qfloor y) == 0) by (rewrite E in *; lra).
    destruct (Qltb (y - inject_Z (Qfloor y)) (1 # 2)) eqn:E1; [lia|].
    apply Qltb_ge in E1. lra.
  - destruct (Qltb _ _); [lia|]. destruct (Qltb _ _); [lia|].
    destruct (Z.even _); lia.
Qed.

Lemma percent_range (x : Q) : 0 <= x <= 0.30 -> 0 <= round (x * 100) 1 <= 30.
Proof.
  intros [Hlo Hhi]. split; [apply round_nonneg; lra|].
  unfold round. change (inject_Z (10 ^ Z.of_nat 1)) with 10.
  assert (H : (round_half_even (x * 100 * 10) <= 300)%Z).
  { apply round_half_even_le. change (inject_Z 300) with 300. lra. }
  rewrite Zle_Qle in H. change (inject_Z 300) with 300 in H.
  apply Qle_shift_div_r; lra.
Qed.

(** X15. The personalized list has at most [num_recommendations]
    entries, in descending order of final score.  Each entry is a base
    recommendation of an unrated title with id, title, similarity and
    profile untouched, its final score replaced by the adjusted score
    and the personalization boost reported in percent.  When no
    accumulator of the profile is negative, the boost lies between 0
    and 30 percent and the adjusted score between the base score minus
    0.5 and the base score plus 0.30.  An empty base list gives an
    empty list. *)
Theorem personalized_list_shape (profile : UserProfile)
    (base_engine : nat -> list Rec) (n : nat) :
  let base_recs := base_engine (n * 2)%nat in
  let out := get_personalized_recommendations profile base_engine n in
  (length out <= n)%nat
  /\ (length out <= length base_recs)%nat
  /\ descending (List.map (fun r => default 0 (r_final_score r)) out)
  /\ Forall (fun r' => exists r,
       In r base_recs /\
       r_id r' = r_id r /\ r_title r' = r_title r /\
       r_similarity_score r' = r_similarity_score r /\
       r_profile r' = r_profile r /\
       ratings profile !! id_key (r_profile r) = None /\
       r_final_score r' = Some (adjusted_score profile r) /\
       r_personalization_score r'
         = Some (round (_calculate_personalization_score (preferences profile)
                          (r_profile r) * 100) 1) /\
       (nonneg_prefs (preferences profile) ->
          base_score r - 0.5 <= adjusted_score profile r <= base_score r + 0.30 /\
          0 <= round (_calculate_personalization_score (preferences profile)
                        (r_profile r) * 100) 1 <= 30)) out
  /\ (base_recs = [] -> out = []).
Proof.
  intros base_recs out. unfold out, get_personalized_recommendations.
  fold base_recs.
  split; [|split; [|split; [|split]]].
  - destruct base_recs; [simpl; lia|]. apply firstn_le_length.
  - destruct base_recs as [|b0 rest] eqn:E; [simpl; lia|]. rewrite <- E.
    rewrite length_firstn. unfold personalized_recs. rewrite sort_desc_length.
    pose proof (omap_length_le (personalize_one profile) base_recs). lia.
  - destruct base_recs as [|b0 rest] eqn:E.
    + intros p q a b _ Hp. destruct p; discriminate.
    + rewrite <- E. rewrite <- firstn_map. apply descending_firstn.
      unfold personalized_recs. apply sort_desc_descending.
  - destruct base_recs as [|b0 rest] eqn:E; [constructor|]. rewrite <- E.
    apply List.Forall_forall. intros r' Hin.
    apply In_firstn in Hin. apply in_personalized_recs in Hin as (r & Hr & Hone).
    exists r. split; [exact Hr|].
    unfold personalize_one in Hone.
    destruct (is_rated profile (r_profile r)) eqn:Er; [discriminate|].
    injection Hone as <-. simpl.
    repeat split; try reflexivity.
    + unfold is_rated in Er. apply bool_decide_eq_false in Er.
      destruct (ratings profile !! id_key (r_profile r)); [|reflexivity].
      exfalso. apply Er. eauto.
    + pose proof (personalization_score_range (preferences profile) (r_profile r) H).
      unfold adjusted_score. destruct (is_disliked _ _); lra.
    + pose proof (personalization_score_range (preferences profile) (r_profile r) H).
      unfold adjusted_score. destruct (is_disliked _ _); lra.
    + apply percent_range. now apply personalization_score_range.
    + apply percent_range. now apply personalization_score_range.
  - intros ->. reflexivity.
Qed.

End PersonalizedList.

Section Seedless.
Import PyStr PyNum Recommender UserPreference PrefSpec Tracking EventSpec BuilderSpec.
Local Open Scope Q_scope.

(** The basic profile of a popular title has no genres, director or
    cast, so no accumulator is ever consulted for it. *)
Lemma seedless_score (prefs : Preferences) (movie : PopularMovie) :
  _calculate_personalization_score prefs (Some (basic_profile movie))
    = pmin (0 + pmin 0 0.15 + pmin 0 0.10 + pmin 0 0.05) 0.30.
Proof. reflexivity. Qed.

Lemma seedless_score_zero (prefs : Preferences) (movie : PopularMovie) :
  _calculate_personalization_score prefs (Some (basic_profile movie)) == 0.
Proof. rewrite seedless_score. vm_compute. reflexivity. Qed.

Lemma profile_based_entries (candidates : list PopularMovie) (profile : UserProfile)
    (k : nat) (r : Rec) :
  In r (_get_profile_based_recommendations candidates profile k) ->
  exists movie, In movie (firstn (k * 2) candidates) /\
                r = profile_based_entry profile movie.
Proof.
  unfold _get_profile_based_recommendations. intros H.
  apply In_firstn in H.
  apply (Permutation_in _ (sort_desc_perm _ _)) in H.
  apply in_map_iff in H as (movie & <- & Hm). now exists movie.
Qed.

Lemma profile_based_ignores_preferences (candidates : list PopularMovie)
    (profile : UserProfile) (prefs' : Preferences) (k : nat) :
  _get_profile_based_recommendations candidates (set_preferences profile prefs') k
    = _get_profile_based_recommendations candidates profile k.
Proof. reflexivity. Qed.

Lemma omap_ext_in {A B} (f g : A -> option B) (l : list A) :
  (forall x, In x l -> f x = g x) -> omap f l = omap g l.
Proof.
  induction l as [|x l IH]; intros H; [reflexivity|].
  cbn [omap list_omap]. rewrite (H x) by now left.
  destruct (g x); [f_equal|]; apply IH; intros y Hy; apply H; now right.
Qed.

Lemma personalize_one_seedless (profile : UserProfile) (prefs' : Preferences)
    (movie : PopularMovie) (r : Rec) :
  r_profile r = Some (basic_profile movie) ->
  personalize_one (set_preferences profile prefs') r = personalize_one profile r.
Proof.
  intros Hr. unfold personalize_one, adjusted_score, is_rated, is_disliked.
  rewrite Hr. reflexivity.
Qed.

(** X16. Without a seed title the learned preferences have no effect on
    the personalized list: the profiles built for the popular titles
    carry no genres, director or cast, so the list is the same for any
    two users with the same ratings and disliked titles.  Every entry
    is one of the first [4 * num_recommendations] popular titles, with a
    boost of 0 and, as its final score, a hundredth of its vote average,
    less 0.5 when the title is disliked.  A seed id of 0 counts as no
    seed. *)
Theorem seedless_list_ignores_preferences (engine : Z -> nat -> list Recommendation)
    (candidates : list PopularMovie) (profile : UserProfile)
    (prefs' : Preferences) (n : nat) :
  let out := recommend_for_user engine candidates profile None n in
  recommend_for_user engine candidates (set_preferences profile prefs') None n = out
  /\ recommend_for_user engine candidates profile (Some 0%Z) n = out
  /\ Forall (fun r' => exists movie f s,
       In movie (firstn (n * 2 * 2) candidates) /\
       r_id r' = pm_id movie /\ r_title r' = pm_title movie /\
       ratings profile !! pretty (pm_id movie) = None /\
       r_final_score r' = Some f /\
       f == default 0 (pm_vote_average movie) / 100
            - (if bool_decide (pm_id movie ∈ disliked profile) then 0.5 else 0) /\
       r_personalization_score r' = Some s /\ s == 0) out.
Proof.
  intros out. unfold out, recommend_for_user, get_personalized_recommendations.
  split; [|split].
  - rewrite profile_based_ignores_preferences.
    destruct (_get_profile_based_recommendations candidates profile (n * 2))
      as [|b0 rest] eqn:E; [reflexivity|]. rewrite <- E.
    f_equal. unfold personalized_recs. f_equal.
    apply omap_ext_in. intros r Hr.
    apply profile_based_entries in Hr as (movie & _ & ->).
    now apply (personalize_one_seedless profile prefs' movie).
  - reflexivity.
  - destruct (_get_profile_based_recommendations candidates profile (n * 2))
      as [|b0 rest] eqn:E; [constructor|]. rewrite <- E.
    apply List.Forall_forall. intros r' Hin.
    apply In_firstn in Hin. apply in_personalized_recs in Hin as (r & Hr & Hone).
    apply profile_based_entries in Hr as (movie & Hm & ->).
    unfold personalize_one in Hone. cbn [profile_based_entry r_profile] in Hone.
    destruct (is_rated profile (Some (basic_profile movie))) eqn:Er; [discriminate|].
    injection Hone as <-.
    exists movie. eexists. eexists.
    split; [exact Hm|]. split; [reflexivity|]. split; [reflexivity|].
    split.
    { unfold is_rated in Er. apply bool_decide_eq_false in Er. cbn in Er.
      destruct (ratings profile !! pretty (pm_id movie)) eqn:El; [|reflexivity].
      exfalso. apply Er. eauto. }
    split; [reflexivity|]. split.
    { unfold adjusted_score, base_score, is_disliked.
      cbn [r_profile r_final_score profile_based_entry basic_profile
           Recommender.movie_id].
      pose proof (seedless_score_zero (preferences profile) movie) as Hz.
      destruct (bool_decide (pm_id movie ∈ disliked profile)); rewrite !Hz; lra. }
    split; [reflexivity|].
    cbn [r_profile]. rewrite seedless_score. vm_compute. reflexivity.
Qed.

End Seedless.

(** ** The data set: crosswalk and rating matrix *)

Section FoldInsert.
Context {K : Type} `{Countable K} {V X : Type} (kf : X -> K) (vf : X -> V).

Local Abbreviation put := (fun (m : gmap K V) (x : X) => <[kf x := vf x]> m).

Lemma fold_insert_absent (l : list X) (k : K) :
  (forall x, In x l -> kf x <> k) ->
  forall m, fold_left put l m !! k = m !! k.
Proof.
  induction l as [|x l IH]; intros Hk m; [reflexivity|]. simpl.
  rewrite IH by (intros y Hy; apply Hk; now right).
  apply lookup_insert_ne. apply Hk. now left.
Qed.

Lemma fold_insert_from (l : list X) (k : K) (v : V) :
  forall m, fold_left put l m !! k = Some v ->
    (exists x, In x l /\ kf x = k /\ vf x = v) \/ m !! k = Some v.
Proof.
  induction l as [|x l IH]; intros m Hl; [now right|]. simpl in Hl.
  apply IH in Hl as [(y & Hy & Hk & Hv)|Hl].
  - left. exists y. split; [now right|now split].
  - destruct (decide (kf x = k)) as [E|Hne].
    + rewrite <- E, lookup_insert_eq in Hl. injection Hl as Hl.
      left. exists x. split; [now left|now split].
    + rewrite lookup_insert_ne in Hl by exact Hne. now right.
Qed.

Lemma fold_insert_keeps (l : list X) (k : K) :
  forall m, is_Some (m !! k) -> is_Some (fold_left put l m !! k).
Proof.
  induction l as [|x l IH]; intros m Hm; [exact Hm|]. simpl. apply IH.
  destruct (decide (kf x = k)) as [E|Hne].
  - rewrite <- E, lookup_insert_eq. eauto.
  - now rewrite lookup_insert_ne by exact Hne.
Qed.

Lemma fold_insert_has (l : list X) (x : X) :
  In x l -> forall m, is_Some (fold_left put l m !! kf x).
Proof.
  induction l as [|y l IH]; intros Hx m; [destruct Hx|]. simpl.
  destruct Hx as [->|Hx]; [|now apply IH].
  apply fold_insert_keeps. rewrite lookup_insert_eq. eauto.
Qed.

Lemma fold_insert_last (before after : list X) (x : X) :
  (forall y, In y after -> kf y <> kf x) ->
  forall m, fold_left put (before ++ x :: after) m !! kf x = Some (vf x).
Proof.
  intros Hafter m. rewrite fold_left_app. simpl.
  rewrite fold_insert_absent by exact Hafter. apply lookup_insert_eq.
Qed.

End FoldInsert.

Section Unique.
Import PyNum Recommender MovieLens DatasetSpec.

Lemma unique_from_spec (l : list Z) :
  forall seen,
    NoDup (unique_from seen l) /\
    (forall x, x ∈ unique_from seen l <-> x ∈ l /\ x ∉ seen).
Proof.
  induction l as [|y l IH]; intros seen; simpl.
  - split; [constructor|]. intros x. split; [intros Hx|intros [Hx _]];
      now apply elem_of_nil in Hx.
  - case_bool_decide as Hy.
    + destruct (IH seen) as [Hnd Hel]. split; [exact Hnd|].
      intros x. rewrite Hel, elem_of_cons. split; [tauto|].
      intros [[->|Hx] Hs]; [contradiction|tauto].
    + destruct (IH (y :: seen)) as [Hnd Hel]. split.
      * apply NoDup_cons. split; [|exact Hnd].
        rewrite Hel. intros [_ Hs]. apply Hs. left.
      * intros x. rewrite !elem_of_cons, Hel, not_elem_of_cons.
        split.
        -- intros [->|(Hx & Hxy & Hs)]; [tauto|tauto].
        -- intros [[->|Hx] Hs]; [now left|].
           destruct (decide (x = y)) as [->|Hne]; [now left|right; tauto].
Qed.

Lemma unique_NoDup (l : list Z) : NoDup (unique l).
Proof. apply unique_from_spec. Qed.

Lemma elem_of_unique (l : list Z) (x : Z) : x ∈ unique l <-> x ∈ l.
Proof.
  unfold unique. rewrite (proj2 (unique_from_spec l [])).
  split; [tauto|]. intros Hx. split; [exact Hx|]. apply not_elem_of_nil.
Qed.

Lemma combine_snoc {A B} (l : list A) (k : list B) (a : A) (b : B) :
  length l = length k -> combine (l ++ [a]) (k ++ [b]) = combine l k ++ [(a, b)].
Proof.
  revert k. induction l as [|x l IH]; intros [|y k] Hlen; try discriminate.
  - reflexivity.
  - simpl. f_equal. apply IH. now injection Hlen.
Qed.

Lemma index_map_snoc (values : list Z) (v : Z) :
  index_map (values ++ [v]) = <[v := length values]> (index_map values).
Proof.
  unfold index_map. rewrite length_app. simpl.
  rewrite Nat.add_1_r, seq_S. simpl.
  rewrite combine_snoc by now rewrite length_seq.
  now rewrite fold_left_app.
Qed.

Lemma index_map_bound (values : list Z) (v : Z) (i : nat) :
  index_map values !! v = Some i -> (i < length values)%nat.
Proof.
  induction values as [|x values IH] using rev_ind; [discriminate|].
  rewrite index_map_snoc, length_app. simpl.
  destruct (decide (x = v)) as [->|Hne].
  - rewrite lookup_insert_eq. intros [= <-]. lia.
  - rewrite lookup_insert_ne by exact Hne. intros Hi. apply IH in Hi. lia.
Qed.

Lemma index_map_enumerates (values : list Z) :
  NoDup values -> enumerates (index_map values) values.
Proof.
  induction values as [|x values IH] using rev_ind; intros Hnd v i.
  - split; discriminate.
  - apply NoDup_app in Hnd as (Hnd & Hx & _).
    rewrite index_map_snoc.
    destruct (decide (x = v)) as [->|Hne].
    + rewrite lookup_insert_eq. split.
      * intros [= <-]. now rewrite list_lookup_middle.
      * intros Hi. f_equal.
        destruct (decide (i < length values)%nat) as [Hlt|Hge].
        -- rewrite lookup_app_l in Hi by exact Hlt.
           exfalso. apply (Hx v); [|left].
           now apply list_elem_of_lookup_2 in Hi.
        -- apply lookup_lt_Some in Hi. rewrite length_app in Hi. simpl in Hi. lia.
    + rewrite lookup_insert_ne by exact Hne. rewrite (IH Hnd v i). split.
      * intros Hi. rewrite lookup_app_l; [exact Hi|]. now apply lookup_lt_Some in Hi.
      * intros Hi.
        destruct (decide (i < length values)%nat) as [Hlt|Hge].
        -- now rewrite lookup_app_l in Hi.
        -- assert (i = length values).
           { apply lookup_lt_Some in Hi. rewrite length_app in Hi. simpl in Hi. lia. }
           subst i. rewrite list_lookup_middle in Hi by reflexivity. congruence.
Qed.

End Unique.

Section Crosswalk.
Import PyNum Recommender MovieLens DatasetSpec.

Local Abbreviation clean :=
  (omap (fun l : LinkRow => t ← tmdbId l; Some (link_movieId l, t))).

Lemma in_clean (links : list LinkRow) (m t : Z) :
  In (m, t) (clean links) <-> links_pair links m t.
Proof.
  rewrite <- list_elem_of_In, list_elem_of_omap. unfold links_pair. split.
  - intros (l & Hl & Hm). destruct (tmdbId l) as [t'|] eqn:E; [|discriminate].
    simpl in Hm. injection Hm as <- <-. exists l.
    split; [now apply list_elem_of_In|now split].
  - intros (l & Hl & <- & Ht). exists l. split; [now apply list_elem_of_In|].
    now rewrite Ht.
Qed.

(** X17. The crosswalk.  Both dictionaries of [build_tmdb_mapping] hold
    only pairs found in a row of [links.csv] that has a TMDb id, and
    every such row's ids are keys; among rows with the same key the
    last one wins.  When the file pairs the ids one to one, the two
    dictionaries are exactly the file's pairs, each the inverse of the
    other. *)
Theorem crosswalk_round_trip (links : list LinkRow) :
  let movie_to_tmdb := fst (build_tmdb_mapping links) in
  let tmdb_to_movie := snd (build_tmdb_mapping links) in
  (forall m t, movie_to_tmdb !! m = Some t -> links_pair links m t)
  /\ (forall m t, tmdb_to_movie !! t = Some m -> links_pair links m t)
  /\ (forall m t, links_pair links m t ->
        is_Some (movie_to_tmdb !! m) /\ is_Some (tmdb_to_movie !! t))
  /\ (forall before l after t,
        links = before ++ l :: after -> tmdbId l = Some t ->
        ((forall l', In l' after -> link_movieId l' = link_movieId l -> tmdbId l' = None) ->
           movie_to_tmdb !! link_movieId l = Some t) /\
        ((forall l', In l' after -> tmdbId l' <> Some t) ->
           tmdb_to_movie !! t = Some (link_movieId l)))
  /\ (one_to_one links ->
        forall m t,
          (movie_to_tmdb !! m = Some t <-> links_pair links m t) /\
          (tmdb_to_movie !! t = Some m <-> links_pair links m t) /\
          (movie_to_tmdb !! m = Some t <-> tmdb_to_movie !! t = Some m)).
Proof.
  intros movie_to_tmdb tmdb_to_movie.
  assert (H1 : forall m t, movie_to_tmdb !! m = Some t -> links_pair links m t).
  { intros m t Hl. unfold movie_to_tmdb, build_tmdb_mapping in Hl. simpl in Hl.
    apply (fold_insert_from fst snd) in Hl as [([m' t'] & Hx & Hk & Hv)|Hl];
      [|discriminate].
    simpl in Hk, Hv. subst. now apply in_clean. }
  assert (H2 : forall m t, tmdb_to_movie !! t = Some m -> links_pair links m t).
  { intros m t Hl. unfold tmdb_to_movie, build_tmdb_mapping in Hl. simpl in Hl.
    apply (fold_insert_from snd fst) in Hl as [([m' t'] & Hx & Hk & Hv)|Hl];
      [|discriminate].
    simpl in Hk, Hv. subst. now apply in_clean. }
  assert (H3 : forall m t, links_pair links m t ->
                 is_Some (movie_to_tmdb !! m) /\ is_Some (tmdb_to_movie !! t)).
  { intros m t Hp. apply in_clean in Hp. split.
    - apply (fold_insert_has fst snd _ (m, t) Hp).
    - apply (fold_insert_has snd fst _ (m, t) Hp). }
  split; [exact H1|split; [exact H2|split; [exact H3|split]]].
  - intros before l after t -> Ht.
    assert (Hc : clean (before ++ l :: after)
                 = clean before ++ (link_movieId l, t) :: clean after).
    { rewrite omap_app. f_equal. cbn [omap list_omap]. now rewrite Ht. }
    split; intros Hafter.
    + unfold movie_to_tmdb, build_tmdb_mapping. cbn [fst]. rewrite Hc.
      apply (fold_insert_last fst snd (clean before) (clean after) (link_movieId l, t)).
      intros [m' t'] Hy Hk. simpl in Hk. subst m'.
      apply in_clean in Hy as (l' & Hl' & Hm' & Ht').
      rewrite (Hafter l' Hl' Hm') in Ht'. discriminate.
    + unfold tmdb_to_movie, build_tmdb_mapping. cbn [snd]. rewrite Hc.
      apply (fold_insert_last snd fst (clean before) (clean after) (link_movieId l, t)).
      intros [m' t'] Hy Hk. simpl in Hk. subst t'.
      apply in_clean in Hy as (l' & Hl' & Hm' & Ht').
      exact (Hafter l' Hl' Ht').
  - intros Hone m t.
    assert (Ha : links_pair links m t -> movie_to_tmdb !! m = Some t).
    { intros Hp. destruct (proj1 (H3 m t Hp)) as [t' Ht'].
      rewrite Ht'. f_equal. apply (Hone m t' m t (H1 m t' Ht') Hp). reflexivity. }
    assert (Hb : links_pair links m t -> tmdb_to_movie !! t = Some m).
    { intros Hp. destruct (proj2 (H3 m t Hp)) as [m' Hm'].
      rewrite Hm'. f_equal. apply (Hone m' t m t (H2 m' t Hm') Hp). reflexivity. }
    split; [|split]; split; auto.
Qed.

Lemma two_links_one_to_one : one_to_one Fixtures.two_links.
Proof.
  intros m t m' t' (l & Hl & <- & Ht) (l' & Hl' & <- & Ht').
  simpl in Hl, Hl'.
  destruct Hl as [<-|[<-|[<-|[]]]]; destruct Hl' as [<-|[<-|[<-|[]]]];
    simpl in *; try discriminate;
    injection Ht as <-; injection Ht' as <-; split; intros; (reflexivity || lia).
Qed.

Lemma crosswalk_round_trip_witness :
  fst (build_tmdb_mapping Fixtures.two_links) !! 1%Z = Some 100%Z <->
  snd (build_tmdb_mapping Fixtures.two_links) !! 100%Z = Some 1%Z.
Proof.
  destruct (crosswalk_round_trip Fixtures.two_links) as (_ & _ & _ & _ & Hone).
  apply (Hone two_links_one_to_one 1%Z 100%Z).
Defined.

End Crosswalk.

Section Matrix.
Import PyNum Recommender MovieLens DatasetSpec.
Local Open Scope Q_scope.

(** X18. The rating matrix has one row per distinct item and one
    column per distinct user, numbered in order of first appearance;
    the two index dictionaries map each id to its row or column and
    nothing else; and the cell of an item and a user holds the sum of
    the ratings that user gave the item, 0 when there is none. *)
Theorem item_user_matrix_cells (ratings : list RatingRow) :
  let mat := fst (fst (build_item_user_matrix ratings)) in
  let item_index := snd (fst (build_item_user_matrix ratings)) in
  let user_index := snd (build_item_user_matrix ratings) in
  let items := unique (List.map movieId ratings) in
  let users := unique (List.map userId ratings) in
  length mat = length items
  /\ Forall (fun row => length row = length users) mat
  /\ NoDup items /\ NoDup users
  /\ (forall r, In r ratings -> movieId r ∈ items /\ userId r ∈ users)
  /\ enumerates item_index items
  /\ enumerates user_index users
  /\ (forall i j mid uid,
        items !! i = Some mid -> users !! j = Some uid ->
        exists row, mat !! i = Some row /\
                    row !! j = Some (Qsum (ratings_of ratings mid uid)))
  /\ (forall mid uid,
        (forall r, In r ratings -> movieId r = mid -> userId r <> uid) ->
        Qsum (ratings_of ratings mid uid) = 0).
Proof.
  intros mat item_index user_index items users.
  unfold mat, item_index, user_index, build_item_user_matrix. cbn [fst snd].
  fold items. fold users.
  split; [apply length_map|].
  split.
  { apply List.Forall_forall. intros row Hrow.
    apply in_map_iff in Hrow as (mid & <- & _). apply length_map. }
  split; [apply unique_NoDup|]. split; [apply unique_NoDup|].
  split.
  { intros r Hr. split; apply elem_of_unique, list_elem_of_In, in_map, Hr. }
  split; [apply index_map_enumerates, unique_NoDup|].
  split; [apply index_map_enumerates, unique_NoDup|].
  split.
  - intros i j mid uid Hi Hj. eexists. split.
    + change (List.map ?f ?l) with (f <$> l). rewrite list_lookup_fmap, Hi. reflexivity.
    + change (List.map ?f ?l) with (f <$> l). rewrite list_lookup_fmap, Hj. reflexivity.
  - intros mid uid Hnone. unfold ratings_of.
    rewrite filter_none; [reflexivity|].
    intros r Hr. destruct (Z.eqb_spec (movieId r) mid) as [E|_]; [|reflexivity].
    destruct (Z.eqb_spec (userId r) uid) as [E'|_]; [|reflexivity].
    exfalso. exact (Hnone r Hr E E').
Qed.

End Matrix.

(** ** From the data set to a served model *)

Section BlockSize.
Import PyNum Recommender MovieLens BuilderSpec DatasetSpec ServingSpec.
Local Open Scope Q_scope.

(** X19. The block size is a memory setting only: any two positive
    block sizes give the same two tables, those of the row-by-row
    computation.  A negative block size gives tables of zeros, because
    the loop over blocks is empty. *)
Theorem block_size_independence (sqrtQ : Q -> Q) (item_user : list (list Q))
    (top_k : nat) (block_size block_size' : Z) :
  (0 < block_size)%Z -> (0 < block_size')%Z ->
  compute_item_similarities_blockwise sqrtQ item_user top_k block_size
    = compute_item_similarities_blockwise sqrtQ item_user top_k block_size'
  /\ compute_item_similarities_blockwise sqrtQ item_user top_k block_size
     = Some (fold_left (process_row sqrtQ item_user top_k)
               (seq 0 (n_items item_user)) (zero_tables item_user top_k))
  /\ (forall negative, (negative < 0)%Z ->
        compute_item_similarities_blockwise sqrtQ item_user top_k negative
        = Some (zero_tables item_user top_k)).
Proof.
  intros Hb Hb'. split; [|split].
  - now rewrite !compute_rows.
  - now apply compute_rows.
  - intros negative Hneg. now apply negative_block_size_no_rows.
Qed.

Lemma block_size_independence_witness :
  compute_item_similarities_blockwise sqrt_fixed
    [[5; 3; 0]; [4; 0; 0]; [0; 0; 2]; [1; 1; 1]] 2 3
  = compute_item_similarities_blockwise sqrt_fixed
      [[5; 3; 0]; [4; 0; 0]; [0; 0; 2]; [1; 1; 1]] 2 500.
Proof.
  apply (block_size_independence sqrt_fixed
           [[5; 3; 0]; [4; 0; 0]; [0; 0; 2]; [1; 1; 1]] 2 3 500); lia.
Defined.

End BlockSize.

Section Shape.
Import PyNum Recommender MovieLens BuilderSpec DatasetSpec ServingSpec.
Local Open Scope Q_scope.

Lemma stored_indices_bound (sqrtQ : Q -> Q) (item_user : list (list Q))
    (top_k g : nat) :
  (g < n_items item_user)%nat ->
  length (stored_indices sqrtQ item_user top_k g)
    = length (stored_order sqrtQ item_user top_k g) /\
  length (stored_scores sqrtQ item_user top_k g)
    = length (stored_order sqrtQ item_user top_k g) /\
  (length (stored_order sqrtQ item_user top_k g) <= top_k)%nat /\
  Forall (fun j => (j < n_items item_user)%nat) (stored_indices sqrtQ item_user top_k g).
Proof.
  intros Hg. unfold stored_indices, stored_scores.
  rewrite !take_at_length. split; [reflexivity|]. split; [reflexivity|].
  split; [rewrite stored_order_length; lia|].
  unfold take_at. apply List.Forall_forall. intros nb Hnb.
  apply in_map_iff in Hnb as (j & <- & Hj).
  destruct (Nat.lt_ge_cases j (length (List.map fst (neighbors sqrtQ item_user g))))
    as [Hlt|Hge].
  - pose proof (nth_In _ 0%nat Hlt) as Hin.
    apply in_map_iff in Hin as ([nb s] & Hfst & Hin). simpl in Hfst.
    rewrite <- Hfst. now apply in_neighbors in Hin as (_ & Hn & _).
  - rewrite nth_overflow by exact Hge. lia.
Qed.

Lemma repeat_Forall {A} (P : A -> Prop) (x : A) (m : nat) : P x -> Forall P (List.repeat x m).
Proof. intros Hx. induction m; simpl; constructor; assumption. Qed.

Lemma compute_well_formed (sqrtQ : Q -> Q) (item_user : list (list Q)) (top_k : nat)
    (block_size : Z) (ti : list (list nat)) (ts : list (list Q)) :
  compute_item_similarities_blockwise sqrtQ item_user top_k block_size = Some (ti, ts) ->
  length ti = n_items item_user /\ length ts = n_items item_user /\
  Forall (fun r => length r = top_k /\
                   Forall (fun j => (j < n_items item_user)%nat) r) ti /\
  Forall (fun r => length r = top_k) ts.
Proof.
  intros Hc.
  destruct (Z.lt_trichotomy block_size 0) as [Hneg|[->|Hpos]].
  - rewrite negative_block_size_no_rows in Hc by exact Hneg.
    injection Hc as <- <-. unfold zero_tables. rewrite !repeat_length.
    split; [reflexivity|]. split; [reflexivity|]. split.
    + apply List.Forall_forall. intros r Hr.
      assert (Hn : (0 < n_items item_user)%nat).
      { destruct (n_items item_user); [destruct Hr|lia]. }
      apply repeat_spec in Hr as ->.
      rewrite repeat_length. split; [reflexivity|].
      now apply repeat_Forall.
    + apply List.Forall_forall. intros r Hr. apply repeat_spec in Hr as ->.
      apply repeat_length.
  - rewrite block_size_zero_raises in Hc. discriminate.
  - pose proof Hc as Hc'. rewrite compute_rows in Hc' by exact Hpos.
    injection Hc' as Hf.
    destruct (fold_rows_length sqrtQ item_user top_k (seq 0 (n_items item_user))
                (zero_tables item_user top_k)) as [Hl1 Hl2].
    rewrite Hf in Hl1, Hl2.
    unfold zero_tables in Hl1, Hl2. cbn [fst snd] in Hl1, Hl2.
    rewrite repeat_length in Hl1, Hl2.
    split; [exact Hl1|]. split; [exact Hl2|]. split.
    + apply Forall_lookup. intros g r Hr.
      assert (Hg : (g < n_items item_user)%nat).
      { rewrite <- Hl1. now apply lookup_lt_Some in Hr. }
      destruct (compute_row_lookup sqrtQ item_user top_k block_size ti ts g Hpos Hc Hg)
        as [Hi _].
      rewrite Hi in Hr. injection Hr as <-.
      destruct (stored_indices_bound sqrtQ item_user top_k g Hg) as (L1 & _ & L3 & L4).
      split.
      * rewrite length_app, repeat_length, L1. lia.
      * apply Forall_app. split; [exact L4|]. apply repeat_Forall. lia.
    + apply Forall_lookup. intros g r Hr.
      assert (Hg : (g < n_items item_user)%nat).
      { rewrite <- Hl2. now apply lookup_lt_Some in Hr. }
      destruct (compute_row_lookup sqrtQ item_user top_k block_size ti ts g Hpos Hc Hg)
        as [_ Hs].
      rewrite Hs in Hr. injection Hr as <-.
      destruct (stored_indices_bound sqrtQ item_user top_k g Hg) as (_ & L2 & L3 & _).
      rewrite length_app, repeat_length, L2. lia.
Qed.

End Shape.

Section Build.
Import PyNum Recommender MovieLens BuilderSpec DatasetSpec ServingSpec.
Local Open Scope Q_scope.

Lemma build_cases (sqrtQ : Q -> Q) (fs : gmap string CFModel)
    (ratings : list RatingRow) (links : list LinkRow) (model_path : string)
    (top_k : nat) (min_item_ratings block_size : Z) :
  build_and_save_cf_model sqrtQ fs ratings links model_path top_k
    min_item_ratings block_size
  = match pruned links ratings min_item_ratings with
    | [] => (NoModel, fs)
    | _ :: _ =>
        match compute_item_similarities_blockwise sqrtQ
                (fst (fst (build_item_user_matrix
                             (pruned links ratings min_item_ratings))))
                top_k block_size with
        | None => (BuildRaised, fs)
        | Some tables =>
            match save_similarity_model fs model_path
                    (built_payload links (pruned links ratings min_item_ratings) tables) with
            | Some fs' => (Saved model_path, fs')
            | None => (BuildRaised, fs)
            end
        end
    end.
Proof.
  unfold build_and_save_cf_model, built_payload.
  destruct (build_tmdb_mapping links) as [m2t t2m]. cbv zeta.
  destruct (pruned links ratings min_item_ratings) as [|r0 rest]; [reflexivity|].
  unfold build_item_user_matrix. cbn [fst snd].
  destruct (compute_item_similarities_blockwise _ _ _ _) as [[ti ts]|]; reflexivity.
Qed.





End Build.

Section Serve.
Import PyNum Recommender MovieLens BuilderSpec DatasetSpec ServingSpec.
Local Open Scope Q_scope.

Lemma collect_neighbors_returns (movie_id : Z) (index_to_movie : list Z)
    (neighbors : list nat) (scores : list Q) (top_n : nat) (order : list nat) :
  Forall (fun j => (j < length neighbors)%nat /\ (j < length scores)%nat) order ->
  Forall (fun nb => (nb < length index_to_movie)%nat) neighbors ->
  forall recs,
    is_Some (collect_neighbors movie_id index_to_movie neighbors scores top_n order recs).
Proof.
  intros Horder Hnb. induction Horder as [|j order [Hj1 Hj2] _ IH]; intros recs.
  - simpl. eauto.
  - simpl.
    destruct (lookup_lt_is_Some_2 neighbors j Hj1) as [nb Enb]. rewrite Enb. simpl.
    assert (Hb : (nb < length index_to_movie)%nat).
    { rewrite Forall_forall in Hnb. apply Hnb. now apply list_elem_of_lookup_2 in Enb. }
    destruct (lookup_lt_is_Some_2 index_to_movie nb Hb) as [mid Emid].
    rewrite Emid. simpl.
    destruct (lookup_lt_is_Some_2 scores j Hj2) as [sc Esc]. rewrite Esc. simpl.
    destruct (_ <=? _)%nat; [eauto|apply IH].
Qed.

Lemma well_shaped_serves (model : CFModel) (n k : nat) :
  well_shaped model n k ->
  (forall index_to_movie movie_id top_n,
     index_to_movieId model = Some index_to_movie ->
     is_Some (recommend_similar_by_movieId movie_id model index_to_movie top_n)) /\
  (forall tmdb_id top_n, is_Some (recommend_similar_by_tmdbId tmdb_id model top_n)).
Proof.
  intros (Hidx & Hli & Hls & Hri & Hrs & itm & Hitm & Hlen).
  assert (Hm : forall movie_id top_n,
             is_Some (recommend_similar_by_movieId movie_id model itm top_n)).
  { intros movie_id top_n. unfold recommend_similar_by_movieId.
    destruct (item_index model !! movie_id) as [idx|] eqn:Ei; [|eauto].
    apply Hidx in Ei.
    destruct (lookup_lt_is_Some_2 (top_indices model) idx) as [row_i Eri]; [lia|].
    destruct (lookup_lt_is_Some_2 (top_scores model) idx) as [row_s Ers]; [lia|].
    rewrite Eri, Ers. simpl.
    rewrite Forall_forall in Hri. rewrite Forall_forall in Hrs.
    destruct (Hri row_i (list_elem_of_lookup_2 _ _ _ Eri)) as [Hk Hb].
    pose proof (Hrs row_s (list_elem_of_lookup_2 _ _ _ Ers)) as Hk'.
    apply collect_neighbors_returns.
    - apply List.Forall_forall. intros j Hj. apply argsort_desc_valid in Hj. lia.
    - now rewrite Hlen. }
  split.
  - intros index_to_movie movie_id top_n E. rewrite Hitm in E. injection E as <-.
    apply Hm.
  - intros tmdb_id top_n. unfold recommend_similar_by_tmdbId.
    destruct (tmdbId_to_movieId model !! tmdb_id) as [ml|]; [|eauto].
    rewrite Hitm.
    destruct (Hm ml (top_n * 2)%nat) as [recs ->]. simpl. eauto.
Qed.

Lemma built_payload_well_shaped (sqrtQ : Q -> Q) (links : list LinkRow)
    (valid : list RatingRow) (top_k : nat) (block_size : Z)
    (tables : list (list nat) * list (list Q)) :
  compute_item_similarities_blockwise sqrtQ
    (fst (fst (build_item_user_matrix valid))) top_k block_size = Some tables ->
  well_shaped (built_payload links valid tables)
    (length (unique (List.map movieId valid))) top_k.
Proof.
  destruct tables as [ti ts]. intros Hc.
  apply compute_well_formed in Hc as (H1 & H2 & H3 & H4).
  assert (Hn : n_items (fst (fst (build_item_user_matrix valid)))
               = length (unique (List.map movieId valid))).
  { unfold n_items, build_item_user_matrix. cbn [fst]. apply length_map. }
  rewrite Hn in *.
  unfold well_shaped, built_payload. cbn.
  split.
  { intros m idx Hidx. now apply index_map_bound in Hidx. }
  split; [exact H1|]. split; [exact H2|].
  split; [apply Forall_forall; rewrite List.Forall_forall in H3; intros r Hr;
          apply H3; now apply list_elem_of_In|].
  split; [apply Forall_forall; rewrite List.Forall_forall in H4; intros r Hr;
          apply H4; now apply list_elem_of_In|].
  eexists. split; reflexivity.
Qed.

(** X21. A model that [build_and_save_cf_model] has saved can be served
    without an index error.  The snapshot at the model path has as many
    table rows as indexed titles, rows of [top_k] slots that point at
    existing rows, and an id list that inverts the item index; so
    [recommend_similar_by_tmdbId] returns a list for every TMDb id and
    every length asked for, and an engine that loads the snapshot gets
    a set of neighbours rather than an exception. *)
Theorem built_model_serves (sqrtQ : Q -> Q) (fs fs' : gmap string CFModel)
    (ratings : list RatingRow) (links : list LinkRow) (model_path : string)
    (top_k : nat) (min_item_ratings block_size : Z) :
  build_and_save_cf_model sqrtQ fs ratings links model_path top_k
    min_item_ratings block_size = (Saved model_path, fs') ->
  exists model index_to_movie,
    fs' !! model_path = Some model /\
    index_to_movieId model = Some index_to_movie /\
    well_shaped model (length index_to_movie) top_k /\
    enumerates (item_index model) index_to_movie /\
    (forall m, m ∈ index_to_movie <->
       exists r, In r (pruned links ratings min_item_ratings) /\ movieId r = m) /\
    (forall tmdb_id top_n,
       is_Some (recommend_similar_by_tmdbId tmdb_id model top_n)) /\
    (forall tmdb_id top_n,
       is_Some (snd (_cf_neighbors_for_tmdb (serving model) new_engine tmdb_id top_n))).
Proof.
  rewrite build_cases.
  destruct (pruned links ratings min_item_ratings) as [|r0 rest] eqn:Ev; [discriminate|].
  rewrite <- Ev.
  destruct (compute_item_similarities_blockwise _ _ _ _) as [tables|] eqn:Ec;
    [|discriminate].
  unfold save_similarity_model.
  destruct (has_separator model_path && negb (ends_with_separator model_path));
    [|discriminate].
  intros [= <-].
  set (valid := pruned links ratings min_item_ratings) in *.
  pose proof (built_payload_well_shaped sqrtQ links valid top_k block_size tables Ec)
    as Hws.
  destruct (well_shaped_serves _ _ _ Hws) as [_ Hserve].
  exists (built_payload links valid tables), (unique (List.map movieId valid)).
  split; [apply lookup_insert_eq|]. split; [reflexivity|].
  split; [exact Hws|].
  split.
  { unfold built_payload, build_item_user_matrix. cbn.
    apply index_map_enumerates, unique_NoDup. }
  split.
  { intros m. rewrite elem_of_unique, list_elem_of_In, in_map_iff.
    split; intros (r & H1 & H2); exists r; tauto. }
  split; [exact Hserve|].
  intros tmdb_id top_n. unfold _cf_neighbors_for_tmdb, serving. cbn.
  destruct (Hserve tmdb_id top_n) as [recs ->]. simpl. eauto.
Qed.

Lemma built_model_serves_witness :
  exists model,
    snd (build_and_save_cf_model sqrt_fixed ∅ Fixtures.few_ratings Fixtures.two_links
           "models/movielens_cf.pkl" 2 1 500) !! "models/movielens_cf.pkl" = Some model /\
    is_Some (recommend_similar_by_tmdbId 100 model 12).
Proof.
  set (out := build_and_save_cf_model sqrt_fixed ∅ Fixtures.few_ratings
                Fixtures.two_links "models/movielens_cf.pkl" 2 1 500).
  assert (E : out = (Saved "models/movielens_cf.pkl", snd out))
    by (vm_compute; reflexivity).
  destruct (built_model_serves sqrt_fixed ∅ (snd out) Fixtures.few_ratings
              Fixtures.two_links "models/movielens_cf.pkl" 2 1 500 E)
    as (model & itm & Hm & _ & _ & _ & _ & Hserve & _).
  exists model. split; [exact Hm|apply Hserve].
Defined.

End Serve.

(** ** The whole request *)

Section WholeRequest.
Import PyNum Recommender MovieLens BuilderSpec DatasetSpec ServingSpec.
Local Open Scope Q_scope.







End WholeRequest.

(** ** Tag normalization *)

Section TagNormalization.
Import PyStr Tags TagSpec.

Lemma tag_char_facts (c : ascii) :
  is_tag_char c = true -> is_space c = false /\ is_upper c = false.
Proof.
  destruct c as [[] [] [] [] [] [] [] []]; vm_compute; intros H;
    first [discriminate H | split; reflexivity].
Qed.

Lemma space_facts (c : ascii) :
  is_space c = true -> is_tag_char c = false /\ is_upper c = false.
Proof.
  destruct c as [[] [] [] [] [] [] [] []]; vm_compute; intros H;
    first [discriminate H | split; reflexivity].
Qed.

Lemma tag_or_space_cases (c : ascii) :
  tag_or_space c = true -> is_tag_char c = true \/ (c = " "%char /\ is_space c = true).
Proof.
  unfold tag_or_space. destruct (is_tag_char c); [now left|]. simpl.
  intros H. apply Ascii.eqb_eq in H. subst. now right.
Qed.

Lemma all_chars_app (P : ascii -> bool) (s t : string) :
  all_chars P (s ++ t)%string = all_chars P s && all_chars P t.
Proof.
  induction s as [|c s IH]; simpl; [reflexivity|].
  now rewrite IH, andb_assoc.
Qed.

Lemma all_chars_impl (P Q : ascii -> bool) (s : string) :
  (forall c, P c = true -> Q c = true) -> all_chars P s = true -> all_chars Q s = true.
Proof.
  intros HPQ. induction s as [|c s IH]; simpl; [reflexivity|].
  intros H. apply andb_true_iff in H as [Hc Hs].
  now rewrite (HPQ c Hc), IH.
Qed.

Lemma append_cons (c : ascii) (s t : string) :
  (String c s ++ t)%string = String c (s ++ t)%string.
Proof. reflexivity. Qed.

Lemma append_empty_r (s : string) : (s ++ "")%string = s.
Proof. induction s as [|c s IH]; [reflexivity|]. rewrite append_cons. f_equal. exact IH. Qed.

Lemma append_assoc (s t u : string) : ((s ++ t) ++ u)%string = (s ++ t ++ u)%string.
Proof.
  induction s as [|c s IH]; [reflexivity|]. rewrite !append_cons. f_equal. exact IH.
Qed.

Lemma flush_token (cur : string) :
  all_chars is_tag_char cur = true -> Forall (fun w => token w = true) (flush cur).
Proof.
  intros H. destruct cur as [|c cur]; simpl; [constructor|].
  constructor; [|constructor]. unfold token. simpl. exact H.
Qed.

Lemma split_from_tokens (t : string) :
  forall cur,
    all_chars is_tag_char cur = true -> all_chars tag_or_space t = true ->
    Forall (fun w => token w = true) (split_from cur t).
Proof.
  induction t as [|c t IH]; intros cur Hcur Ht; simpl.
  - now apply flush_token.
  - simpl in Ht. apply andb_true_iff in Ht as [Hc Ht].
    destruct (tag_or_space_cases c Hc) as [Htag|[-> Hsp]].
    + rewrite (proj1 (tag_char_facts c Htag)). apply IH; [|exact Ht].
      rewrite all_chars_app. simpl. now rewrite Hcur, Htag.
    + rewrite Hsp. apply Forall_app. split; [now apply flush_token|].
      now apply IH.
Qed.

Lemma sub_runs_chars (t : string) :
  forall in_run, all_chars tag_or_space (sub_runs in_run t) = true.
Proof.
  induction t as [|c t IH]; intros in_run; simpl; [reflexivity|].
  destruct (is_tag_char c) eqn:E.
  - simpl. unfold tag_or_space at 1. now rewrite E, IH.
  - destruct in_run; [apply IH|]. simpl. apply IH.
Qed.

Lemma split_from_no_space (w : string) :
  forall cur,
    all_chars (fun c => negb (is_space c)) w = true ->
    split_from cur w = flush (cur ++ w)%string.
Proof.
  induction w as [|c w IH]; intros cur H; simpl.
  - now rewrite append_empty_r.
  - simpl in H. apply andb_true_iff in H as [Hc Hw].
    apply negb_true_iff in Hc. rewrite Hc, IH by exact Hw.
    now rewrite append_assoc.
Qed.

Lemma token_no_space (w : string) :
  all_chars is_tag_char w = true -> all_chars (fun c => negb (is_space c)) w = true.
Proof.
  apply all_chars_impl. intros c Hc.
  now rewrite (proj1 (tag_char_facts c Hc)).
Qed.

Lemma token_parts (w : string) :
  token w = true ->
  exists c w', w = String c w' /\ is_tag_char c = true /\ all_chars is_tag_char w' = true.
Proof.
  unfold token. destruct w as [|c w']; [discriminate|]. simpl.
  intros H. apply andb_true_iff in H as [Hc Hw]. now exists c, w'.
Qed.

Lemma words_token (w : string) : token w = true -> words w = [w].
Proof.
  intros H. destruct (token_parts w H) as (c & w' & -> & Hc & Hw).
  unfold words. rewrite split_from_no_space.
  - reflexivity.
  - apply token_no_space. simpl. now rewrite Hc, Hw.
Qed.

Lemma words_join_tokens (ws : list string) :
  Forall (fun w => token w = true) ws -> words (join " " ws) = ws.
Proof.
  intros H. rewrite words_join.
  induction H as [|w ws Hw _ IH]; [reflexivity|].
  simpl. now rewrite (words_token w Hw), IH.
Qed.

Lemma join_cons (w : string) (ws : list string) :
  exists t, join " " (w :: ws) = (w ++ t)%string.
Proof.
  destruct ws as [|w2 ws].
  - exists ""%string. simpl. now rewrite append_empty_r.
  - exists (" " ++ join " " (w2 :: ws))%string. reflexivity.
Qed.

Lemma join_tokens_chars (ws : list string) :
  Forall (fun w => token w = true) ws -> all_chars tag_or_space (join " " ws) = true.
Proof.
  induction 1 as [|w ws Hw Hws IH]; [reflexivity|].
  destruct (token_parts w Hw) as (c & w' & -> & Hc & Hw').
  assert (Hself : all_chars tag_or_space (String c w') = true).
  { apply (all_chars_impl is_tag_char); [|simpl; now rewrite Hc, Hw'].
    intros a Ha. unfold tag_or_space. now rewrite Ha. }
  destruct ws as [|w2 ws]; [exact Hself|].
  change (join " " (String c w' :: w2 :: ws))
    with (String c w' ++ " " ++ join " " (w2 :: ws))%string.
  rewrite all_chars_app, Hself. simpl. exact IH.
Qed.

Lemma lower_fixed (s : string) : all_chars tag_or_space s = true -> lower s = s.
Proof.
  induction s as [|c s IH]; simpl; [reflexivity|].
  intros H. apply andb_true_iff in H as [Hc Hs]. rewrite (IH Hs). f_equal.
  unfold lower_char.
  destruct (tag_or_space_cases c Hc) as [Htag|[-> Hsp]].
  - now rewrite (proj2 (tag_char_facts c Htag)).
  - reflexivity.
Qed.

Lemma sub_runs_token_app (w : string) :
  forall in_run t,
    token w = true ->
    sub_runs in_run (w ++ t)%string = (w ++ sub_runs false t)%string.
Proof.
  induction w as [|c w IH]; intros in_run t H; [discriminate|].
  unfold token in H. simpl in H. apply andb_true_iff in H as [Hc Hw].
  rewrite !append_cons. cbn [sub_runs]. rewrite Hc. f_equal.
  destruct w as [|c' w']; [reflexivity|].
  apply IH. unfold token. simpl. exact Hw.
Qed.

Lemma sub_runs_join (ws : list string) :
  Forall (fun w => token w = true) ws ->
  forall in_run, sub_runs in_run (join " " ws) = join " " ws.
Proof.
  induction 1 as [|w ws Hw Hws IH]; intros in_run; [reflexivity|].
  destruct ws as [|w2 ws].
  - simpl. rewrite <- (append_empty_r w) at 1.
    rewrite sub_runs_token_app by exact Hw. simpl. apply append_empty_r.
  - change (join " " (w :: w2 :: ws)) with (w ++ " " ++ join " " (w2 :: ws))%string.
    rewrite sub_runs_token_app by exact Hw. f_equal.
    change (" " ++ join " " (w2 :: ws))%string with (String " " (join " " (w2 :: ws))).
    cbn [sub_runs]. change (is_tag_char " ") with false. cbn iota.
    now rewrite IH.
Qed.

Lemma join_tokens_nonempty (w : string) (ws : list string) :
  token w = true -> join " " (w :: ws) <> ""%string.
Proof.
  intros Hw. destruct (token_parts w Hw) as (c & w' & -> & _).
  destruct (join_cons (String c w') ws) as [t ->]. discriminate.
Qed.

Lemma rstrip_no_space (w : string) :
  all_chars (fun c => negb (is_space c)) w = true -> rstrip w = w.
Proof.
  induction w as [|c w IH]; simpl; [reflexivity|].
  intros H. apply andb_true_iff in H as [Hc Hw]. rewrite (IH Hw).
  apply negb_true_iff in Hc. rewrite Hc. now destruct w.
Qed.

Lemma rstrip_app (s t : string) :
  rstrip t = t -> t <> ""%string -> rstrip (s ++ t) = (s ++ t)%string.
Proof.
  intros Ht Hne. induction s as [|c s IH]; [exact Ht|].
  rewrite append_cons. cbn [rstrip]. rewrite IH.
  destruct (s ++ t)%string eqn:E; [|reflexivity].
  destruct s; [contradiction|rewrite append_cons in E; discriminate].
Qed.

Lemma rstrip_cons (c : ascii) (s : string) :
  rstrip s = s -> s <> ""%string -> rstrip (String c s) = String c s.
Proof.
  intros H Hne. cbn [rstrip]. rewrite H. destruct s; [contradiction|reflexivity].
Qed.

Lemma rstrip_join (ws : list string) :
  Forall (fun w => token w = true) ws -> rstrip (join " " ws) = join " " ws.
Proof.
  induction 1 as [|w ws Hw Hws IH]; [reflexivity|].
  destruct ws as [|w2 ws].
  - simpl. apply rstrip_no_space, token_no_space.
    unfold token in Hw. now apply andb_true_iff in Hw as [_ Hw].
  - change (join " " (w :: w2 :: ws))
      with (w ++ String " " (join " " (w2 :: ws)))%string.
    apply rstrip_app; [|discriminate].
    apply rstrip_cons; [exact IH|].
    apply Forall_cons in Hws as [Hw2 _].
    now apply join_tokens_nonempty.
Qed.

Lemma strip_join (ws : list string) :
  Forall (fun w => token w = true) ws -> strip (join " " ws) = join " " ws.
Proof.
  intros H. unfold strip.
  assert (Hl : lstrip (join " " ws) = join " " ws).
  { destruct H as [|w ws Hw _]; [reflexivity|].
    destruct (token_parts w Hw) as (c & w' & -> & Hc & _).
    destruct (join_cons (String c w') ws) as [t ->]. simpl.
    now rewrite (proj1 (tag_char_facts c Hc)). }
  rewrite Hl. now apply rstrip_join.
Qed.

Lemma split_from_sub_runs_nil (u : string) :
  forall in_run cur,
    split_from cur (sub_runs in_run u) = [] <->
    cur = ""%string /\ all_chars (fun c => negb (is_tag_char c)) u = true.
Proof.
  induction u as [|c u IH]; intros in_run cur; simpl.
  - destruct cur; simpl; split; try tauto; try discriminate.
    intros [H _]. discriminate.
  - destruct (is_tag_char c) eqn:E; simpl.
    + rewrite (proj1 (tag_char_facts c E)), IH. split.
      * intros [H _]. destruct cur; discriminate.
      * intros [_ H]. discriminate.
    + destruct in_run; [apply IH|]. simpl.
      change (is_space " ") with true. cbn iota.
      split.
      * intros H. apply app_eq_nil in H as [H1 H2].
        apply IH in H2 as [_ H2]. split; [|exact H2].
        destruct cur; [reflexivity|discriminate].
      * intros [-> H]. simpl. apply IH. now split.
Qed.

Lemma all_chars_lower (P : ascii -> bool) (s : string) :
  all_chars P (lower s) = all_chars (fun c => P (lower_char c)) s.
Proof. induction s as [|c s IH]; simpl; [reflexivity|now rewrite IH]. Qed.

Lemma all_chars_lstrip (P : ascii -> bool) (s : string) :
  (forall c, is_space c = true -> P c = true) ->
  all_chars P (lstrip s) = all_chars P s.
Proof.
  intros HP. induction s as [|c s IH]; simpl; [reflexivity|].
  destruct (is_space c) eqn:E; [|reflexivity].
  now rewrite IH, (HP c E).
Qed.

Lemma all_chars_rstrip (P : ascii -> bool) (s : string) :
  (forall c, is_space c = true -> P c = true) ->
  all_chars P (rstrip s) = all_chars P s.
Proof.
  intros HP. induction s as [|c s IH]; simpl; [reflexivity|].
  rewrite <- IH. destruct (rstrip s) as [|c' r]; [|reflexivity].
  destruct (is_space c) eqn:E; simpl.
  - now rewrite (HP c E).
  - reflexivity.
Qed.

Lemma outside_class_space (c : ascii) : is_space c = true -> outside_class c = true.
Proof.
  intros H. unfold outside_class, lower_char.
  destruct (space_facts c H) as [H1 H2]. now rewrite H2, H1.
Qed.

(** X23. A normalized tag is a list of words of lower-case letters and
    digits joined by single spaces, with no space at either end; it
    consists of such characters and spaces only; normalizing it again
    changes nothing; and it is empty exactly when the tag has no letter
    and no digit. *)
Theorem normalize_tag_canonical (tag : string) :
  let t := _normalize_tag tag in
  Forall (fun w => token w = true) (words t)
  /\ t = join " " (words t)
  /\ all_chars tag_or_space t = true
  /\ strip t = t
  /\ _normalize_tag t = t
  /\ (t = ""%string <-> all_chars outside_class tag = true).
Proof.
  intros t. unfold t, _normalize_tag. cbv zeta.
  set (ws := words (sub_runs false (lower (strip tag)))).
  assert (Hws : Forall (fun w => token w = true) ws).
  { unfold ws, words. apply split_from_tokens; [reflexivity|apply sub_runs_chars]. }
  assert (Hwords : words (join " " ws) = ws) by now apply words_join_tokens.
  split; [now rewrite Hwords|]. split; [now rewrite Hwords|].
  split; [now apply join_tokens_chars|].
  split; [now apply strip_join|].
  split.
  - rewrite strip_join by exact Hws.
    rewrite lower_fixed by now apply join_tokens_chars.
    rewrite sub_runs_join by exact Hws. now rewrite Hwords.
  - assert (Hnil : ws = [] <-> all_chars outside_class tag = true).
    { unfold ws, words. rewrite split_from_sub_runs_nil, all_chars_lower.
      unfold strip.
      rewrite (all_chars_rstrip _ _ outside_class_space).
      rewrite (all_chars_lstrip _ _ outside_class_space).
      unfold outside_class. tauto. }
    rewrite <- Hnil. split.
    + intros Hj. destruct Hws as [|w ws' Hw _]; [reflexivity|].
      exfalso. exact (join_tokens_nonempty w ws' Hw Hj).
    + now intros ->.
Qed.

Example normalize_tag_ex :
  _normalize_tag "  Sci-Fi / CULT classic!! " = "sci fi cult classic"%string.
Proof. reflexivity. Qed.

End TagNormalization.

(** ** Activity summary *)

Section Stats.
Import PyStr PyNum Recommender UserPreference PrefSpec Tracking EventSpec BuilderSpec.
Local Open Scope Q_scope.

Lemma top_entries (acc : gmap string Q) (n : nat) :
  let top := firstn n (sort_desc snd (map_to_list acc)) in
  length top = Nat.min n (size acc)
  /\ descending (List.map snd top)
  /\ NoDup (List.map fst top)
  /\ (forall k v, In (k, v) top -> acc !! k = Some v)
  /\ (forall k v k' v',
        acc !! k = Some v -> ~ In (k, v) top -> In (k', v') top -> v <= v').
Proof.
  intros top. unfold top.
  set (sorted := sort_desc snd (map_to_list acc)).
  assert (Hperm : sorted ≡ₚ map_to_list acc) by apply sort_desc_perm.
  split; [|split; [|split; [|split]]].
  - rewrite length_firstn. unfold sorted. rewrite sort_desc_length.
    now rewrite length_map_to_list.
  - rewrite <- firstn_map. apply descending_firstn, sort_desc_descending.
  - apply (submseteq_NoDup _ (List.map fst (map_to_list acc))).
    + change (List.map fst ?l) with (fst <$> l).
      apply fmap_submseteq. transitivity sorted.
      * apply submseteq_take.
      * now apply Permutation_submseteq.
    + apply NoDup_fst_map_to_list.
  - intros k v Hin. apply In_firstn in Hin.
    apply elem_of_map_to_list. rewrite <- Hperm. now apply list_elem_of_In.
  - intros k v k' v' Hk Hout Hin.
    assert (Hs : In (k, v) sorted).
    { apply list_elem_of_In. rewrite Hperm. now apply elem_of_map_to_list. }
    rewrite <- (firstn_skipn n sorted) in Hs. apply in_app_or in Hs as [Hs|Hs];
      [contradiction|].
    apply list_elem_of_In, list_elem_of_lookup_1 in Hs as [q Hq].
    apply list_elem_of_In, list_elem_of_lookup_1 in Hin as [p Hp].
    rewrite lookup_drop in Hq. apply lookup_take_Some in Hp as [Hp Hpn].
    apply (sort_desc_descending snd (map_to_list acc) p (n + q)%nat v' v).
    + lia.
    + change (List.map snd ?l) with (snd <$> l). rewrite list_lookup_fmap.
      fold sorted. now rewrite Hp.
    + change (List.map snd ?l) with (snd <$> l). rewrite list_lookup_fmap.
      fold sorted. now rewrite Hq.
Qed.

Lemma sum_bounds (lo hi : Q) (rs : list Q) :
  Forall (fun r => lo <= r <= hi) rs ->
  inject_Z (Z.of_nat (length rs)) * lo <= fold_right Qplus 0 rs
  /\ fold_right Qplus 0 rs <= inject_Z (Z.of_nat (length rs)) * hi.
Proof.
  induction 1 as [|r rs [Hlo Hhi] _ [IH1 IH2]].
  - cbn [length fold_right]. change (inject_Z (Z.of_nat 0)) with 0. lra.
  - cbn [length fold_right].
    rewrite Nat2Z.inj_succ, <- Z.add_1_r, inject_Z_plus.
    change (inject_Z 1) with 1. lra.
Qed.

(** X24. The activity summary counts the rated titles, the watchlist,
    the views and the searches of the profile; its top genres and top
    directors are the accumulator's entries with the largest values, at
    most 5 and at most 3, largest first, and no entry left out has a
    value above one listed; the average rating is 0 without ratings and
    otherwise lies between the lowest and the highest rating. *)
Theorem user_stats_summary (profile : UserProfile) :
  let stats := get_user_stats profile in
  let genres := pref_genres (preferences profile) in
  let directors := pref_directors (preferences profile) in
  total_ratings stats = size (ratings profile)
  /\ total_watchlist stats = length (watchlist profile)
  /\ total_views stats = length (viewed profile)
  /\ total_searches stats = length (searches profile)
  /\ length (top_genres stats) = Nat.min 5 (size genres)
  /\ length (top_directors stats) = Nat.min 3 (size directors)
  /\ descending (List.map snd (top_genres stats))
  /\ descending (List.map snd (top_directors stats))
  /\ NoDup (List.map fst (top_genres stats))
  /\ NoDup (List.map fst (top_directors stats))
  /\ (forall k v, In (k, v) (top_genres stats) -> genres !! k = Some v)
  /\ (forall k v, In (k, v) (top_directors stats) -> directors !! k = Some v)
  /\ (forall k v k' v', genres !! k = Some v -> ~ In (k, v) (top_genres stats) ->
        In (k', v') (top_genres stats) -> v <= v')
  /\ (forall k v k' v', directors !! k = Some v -> ~ In (k, v) (top_directors stats) ->
        In (k', v') (top_directors stats) -> v <= v')
  /\ (ratings profile = ∅ -> average_rating stats = 0)
  /\ (forall lo hi,
        ratings profile <> ∅ ->
        (forall k e, ratings profile !! k = Some e -> lo <= rating e <= hi) ->
        lo <= average_rating stats <= hi).
Proof.
  intros stats genres directors. unfold stats, get_user_stats. cbn.
  destruct (top_entries genres 5) as (G1 & G2 & G3 & G4 & G5).
  destruct (top_entries directors 3) as (D1 & D2 & D3 & D4 & D5).
  split; [now rewrite length_map, length_map_to_list|].
  do 3 (split; [reflexivity|]).
  split; [exact G1|]. split; [exact D1|]. split; [exact G2|]. split; [exact D2|].
  split; [exact G3|]. split; [exact D3|]. split; [exact G4|]. split; [exact D4|].
  split; [exact G5|]. split; [exact D5|].
  split.
  - intros ->. now rewrite map_to_list_empty.
  - intros lo hi Hne Hall.
    set (rs := List.map (fun kv : string * RatingEntry => rating (snd kv))
                 (map_to_list (ratings profile))).
    assert (Hrs : Forall (fun r => lo <= r <= hi) rs).
    { apply List.Forall_forall. intros r Hr.
      apply in_map_iff in Hr as ([k e] & <- & Hin).
      apply list_elem_of_In, elem_of_map_to_list in Hin. exact (Hall k e Hin). }
    destruct (sum_bounds lo hi rs Hrs) as [S1 S2].
    destruct rs as [|r0 rest] eqn:E.
    + exfalso. apply Hne. apply map_to_list_empty_iff.
      unfold rs in E. now destruct (map_to_list (ratings profile)).
    + rewrite <- E in *.
      assert (Hn : 0 < inject_Z (Z.of_nat (length rs))).
      { change 0 with (inject_Z 0). rewrite <- Zlt_Qlt. rewrite E. simpl. lia. }
      split.
      * apply Qle_shift_div_l; [exact Hn|]. lra.
      * apply Qle_shift_div_r; [exact Hn|]. lra.
Qed.

End Stats.

(** ** The scoring loop *)

Section ScoreBand.
Import PyNum Recommender BuilderSpec ServingSpec FilterSpec.
Local Open Scope Q_scope.

Lemma adjustment_range (cf_neighbors : gset Z) (p : Profile) (rating pop : Q) :
  0 <= rating <= 10 -> 0 <= pop ->
  - 0.05 <= rating_boost rating + popularity_boost pop
            + age_penalty (release_year p) rating + cf_boost cf_neighbors p
  /\ rating_boost rating + popularity_boost pop
     + age_penalty (release_year p) rating + cf_boost cf_neighbors p <= 0.15.
Proof.
  intros [Hr0 Hr10] Hpop.
  assert (Hrb : 0 <= rating_boost rating <= 0.08).
  { unfold rating_boost. destruct (Qleb 6 rating); [|lra].
    unfold Qdiv. change (/ 10) with (1 # 10). lra. }
  assert (Hpb : 0 <= popularity_boost pop <= 0.02).
  { unfold popularity_boost.
    assert (0 <= pop / 1000) by (unfold Qdiv; change (/ 1000) with (1 # 1000); lra).
    destruct (pmin_cases (pop / 1000) 0.02) as [[E H1]|[E H1]]; lra. }
  assert (Hap : - 0.05 <= age_penalty (release_year p) rating <= 0).
  { unfold age_penalty. destruct (_ && _); lra. }
  assert (Hcb : 0 <= cf_boost cf_neighbors p <= 0.05).
  { unfold cf_boost. destruct (_ && _); lra. }
  lra.
Qed.

Lemma kept_final_score (cf_neighbors : gset Z) (p : Profile) (score rating pop : Q)
    (m : ScoredMovie) :
  vote_average p = Some rating -> popularity p = Some pop ->
  score_candidate cf_neighbors p score = Kept m ->
  noise_floor <= score /\
  final_score m = score + rating_boost rating + popularity_boost pop
                  + age_penalty (release_year p) rating + cf_boost cf_neighbors p.
Proof.
  intros Hr Hp. unfold score_candidate. rewrite Hr, Hp.
  destruct (Qltb score noise_floor) eqn:E; [discriminate|].
  intros [= <-]. split; [now apply Qltb_ge|reflexivity].
Qed.

(** X25. The quality adjustments move a score only within a band.  For
    a vote average between 0 and 10 and a popularity that is not
    negative, the final score of a kept candidate lies between its raw
    similarity minus 0.05 and plus 0.15; so a candidate whose raw
    similarity is more than 0.20 above another's always has the larger
    final score. *)
Theorem quality_adjustments_bounded (cf_neighbors : gset Z) (p : Profile)
    (score rating pop : Q) (m : ScoredMovie) :
  vote_average p = Some rating -> popularity p = Some pop ->
  0 <= rating <= 10 -> 0 <= pop ->
  score_candidate cf_neighbors p score = Kept m ->
  score - 0.05 <= final_score m <= score + 0.15
  /\ (forall cf_neighbors' p' score' rating' pop' m',
        vote_average p' = Some rating' -> popularity p' = Some pop' ->
        0 <= rating' <= 10 -> 0 <= pop' ->
        score_candidate cf_neighbors' p' score' = Kept m' ->
        score + 0.20 < score' -> final_score m < final_score m').
Proof.
  intros Hr Hp Hrange Hpop Hk.
  destruct (kept_final_score _ _ _ _ _ _ Hr Hp Hk) as [_ Hf].
  pose proof (adjustment_range cf_neighbors p rating pop Hrange Hpop) as [Hlo Hhi].
  split; [rewrite Hf; lra|].
  intros cf' p' score' rating' pop' m' Hr' Hp' Hrange' Hpop' Hk' Hgap.
  destruct (kept_final_score _ _ _ _ _ _ Hr' Hp' Hk') as [_ Hf'].
  pose proof (adjustment_range cf' p' rating' pop' Hrange' Hpop') as [Hlo' Hhi'].
  rewrite Hf, Hf'. lra.
Qed.

Lemma quality_adjustments_bounded_witness :
  exists m,
    score_candidate ∅ Fixtures.cand_a 0.5 = Kept m /\
    0.5 - 0.05 <= final_score m <= 0.5 + 0.15.
Proof.
  eexists. split; [reflexivity|].
  apply (quality_adjustments_bounded ∅ Fixtures.cand_a 0.5 7 10).
  - reflexivity.
  - reflexivity.
  - split; unfold Qle; simpl; lia.
  - unfold Qle; simpl; lia.
  - reflexivity.
Defined.

(** The three ways one iteration of the loop can go. *)
Lemma score_candidate_cases (cf_neighbors : gset Z) (p : Profile) (s : Q) :
  (score_candidate cf_neighbors p s = Skipped /\ s < noise_floor)
  \/ (score_candidate cf_neighbors p s = Raised /\ noise_floor <= s /\
      (vote_average p = None \/ popularity p = None))
  \/ (exists m, score_candidate cf_neighbors p s = Kept m /\ noise_floor <= s /\
                profile m = p /\ similarity_score m = s /\
                is_Some (vote_average p) /\ is_Some (popularity p)).
Proof.
  unfold score_candidate.
  destruct (Qltb s noise_floor) eqn:E.
  - left. split; [reflexivity|now apply Qltb_lt].
  - apply Qltb_ge in E. right.
    destruct (vote_average p) as [rating|]; [|left; auto].
    destruct (popularity p) as [pop|]; [|left; auto].
    right. eexists. split; [reflexivity|]. simpl. eauto 10.
Qed.

(** X26. The scoring loop raises whenever there are fewer similarities
    than candidates or some candidate at or above the noise floor has a
    null vote average or popularity.  A candidate below the floor is
    skipped before any of its fields is read: when every candidate is
    below the floor the loop completes with nothing scored, whatever
    the fields hold.  When the loop completes, the scored entries are
    exactly the candidates at or above the floor, in candidate order. *)
Theorem score_loop_outcome (cf_neighbors : gset Z) (cands : list Profile) (sims : list Q) :
  ((length sims < length cands)%nat \/
   (exists i p s, cands !! i = Some p /\ sims !! i = Some s /\ noise_floor <= s /\
                  (vote_average p = None \/ popularity p = None)) ->
   score_loop cf_neighbors cands sims = None)
  /\ ((length cands <= length sims)%nat ->
      (forall i s, (i < length cands)%nat -> sims !! i = Some s -> s < noise_floor) ->
      score_loop cf_neighbors cands sims = Some [])
  /\ (forall scored, score_loop cf_neighbors cands sims = Some scored ->
        List.map profile scored `sublist_of` cands /\
        Forall (from_candidate cands sims) scored /\
        (forall i p s, cands !! i = Some p -> sims !! i = Some s -> noise_floor <= s ->
           exists m, In m scored /\ profile m = p /\ similarity_score m = s)).
Proof.
  revert sims. induction cands as [|p ps IH]; intros sims.
  { split; [|split].
    - intros [H|(i & p & s & H & _)]; [simpl in H; lia|discriminate].
    - reflexivity.
    - intros scored [= <-]. split; [constructor|]. split; [constructor|].
      intros i p s H. discriminate. }
  destruct sims as [|score sims].
  { split; [reflexivity|]. split; [simpl; lia|discriminate]. }
  destruct (IH sims) as (IHraise & IHskip & IHdone).
  assert (Hshift : (length (score :: sims) < length (p :: ps))%nat \/
            (exists i q s, (p :: ps) !! i = Some q /\ (score :: sims) !! i = Some s /\
                           noise_floor <= s /\
                           (vote_average q = None \/ popularity q = None)) ->
            (noise_floor <= score /\ (vote_average p = None \/ popularity p = None))
            \/ score_loop cf_neighbors ps sims = None).
  { intros [H|(i & q & s & H1 & H2 & H3 & H4)].
    - right. apply IHraise. left. simpl in H. lia.
    - destruct i as [|i].
      + simpl in H1, H2. injection H1 as <-. injection H2 as <-. now left.
      + right. apply IHraise. right. now exists i, q, s. }
  cbn [score_loop].
  destruct (score_candidate_cases cf_neighbors p score)
    as [[-> Hlow]|[(-> & Hfloor & Hnull)|(m0 & -> & Hfloor & Hp0 & Hs0 & Hv & Hq)]].
  - (* below the floor: skipped *)
    split; [|split].
    + intros H. destruct (Hshift H) as [[Hge _]|Hnone]; [lra|exact Hnone].
    + intros Hlen Hall. apply IHskip; [simpl in Hlen; lia|].
      intros i s Hi Hs. apply (Hall (S i) s); [simpl; lia|exact Hs].
    + intros scored Hscored. destruct (IHdone scored Hscored) as (Hsub & _ & Hall).
      split; [now apply sublist_cons|]. split.
      * apply (score_loop_from_candidate cf_neighbors (p :: ps) (score :: sims)).
        cbn [score_loop]. unfold score_candidate.
        rewrite (proj2 (Qltb_lt score noise_floor) Hlow). exact Hscored.
      * intros i q s H1 H2 H3. destruct i as [|i].
        -- simpl in H2. injection H2 as <-. lra.
        -- now apply (Hall i).
  - (* a null field at or above the floor: the iteration raises *)
    split; [reflexivity|]. split; [|discriminate].
    intros _ Hall.
    pose proof (Hall 0%nat score ltac:(simpl; lia) eq_refl). lra.
  - (* kept *)
    split; [|split].
    + intros H. destruct (Hshift H) as [[_ Hnull]|Hnone].
      * destruct Hv as [v Hv], Hq as [w Hq]. destruct Hnull; congruence.
      * now rewrite Hnone.
    + intros _ Hall.
      pose proof (Hall 0%nat score ltac:(simpl; lia) eq_refl). lra.
    + intros scored Hscored.
      destruct (score_loop cf_neighbors ps sims) as [rest|] eqn:Erest; [|discriminate].
      simpl in Hscored. injection Hscored as <-.
      destruct (IHdone rest eq_refl) as (Hsub & Hfrom & Hall).
      split; [cbn [List.map]; rewrite Hp0; now apply sublist_skip|]. split.
      * constructor.
        -- exists 0%nat. simpl. rewrite Hp0, Hs0. auto.
        -- eapply Forall_impl; [exact Hfrom|]. intros m. apply from_candidate_shift.
      * intros i q s H1 H2 H3. destruct i as [|i].
        -- simpl in H1, H2. injection H1 as <-. injection H2 as <-.
           exists m0. split; [now left|now split].
        -- destruct (Hall i q s H1 H2 H3) as (m & Hm & Hpm & Hsm).
           exists m. split; [now right|now split].
Qed.

Lemma score_loop_outcome_witness :
  score_loop ∅ [Fixtures.cand_b_null; Fixtures.cand_a] [0.5; 0.4] = None.
Proof.
  apply (score_loop_outcome ∅ [Fixtures.cand_b_null; Fixtures.cand_a] [0.5; 0.4]).
  right. exists 0%nat, Fixtures.cand_b_null, 0.5.
  split; [reflexivity|]. split; [reflexivity|].
  split; [unfold noise_floor, Qle; simpl; lia|]. left. reflexivity.
Defined.

End ScoreBand.
